(** * hl7apy: the ER7 parser ([hl7apy/parser.py])

    A shallow embedding of the parsing functions of hl7apy and of the
    group search of [create_groups], with the properties of the
    specification stated over them. *)

From Stdlib Require Import ZArith String Ascii List Lia Bool DecimalString ZifyBool.
From stdpp Require Import base list.
Import ListNotations.
Local Open Scope string_scope.
Local Open Scope Z_scope.

(** ** Python results *)

(** The exceptions the parser raises or lets escape. [RecursionError] stands
    for the interpreter's recursion limit; [OperationNotAllowed] and
    [MaxChildLimitReached] are raised by the classes of [hl7apy.core]. *)
Inductive exn : Type :=
  | IndexError
  | KeyError
  | ValueError
  | RecursionError
  | InvalidName
  | OperationNotAllowed
  | MaxChildLimitReached
  | InvalidEncodingChars (msg : string)
  | ParserError (msg : string).

Inductive result (A : Type) : Type :=
  | Ok (a : A)
  | Raise (e : exn).
Arguments Ok {A} a.
Arguments Raise {A} e.

Definition bind {A B : Type} (r : result A) (k : A -> result B) : result B :=
  match r with
  | Ok a => k a
  | Raise e => Raise e
  end.

Notation "'let*' x ':=' r 'in' k" := (bind r (fun x => k))
  (at level 10, x name, r at level 100, k at level 200).
Notation "'let*' ' p ':=' r 'in' k" :=
  (bind r (fun x => match x with p => k end))
  (at level 10, p pattern, r at level 100, k at level 200).

(** ** Python lists *)

Module PyList.
Section PyList.
Context {A : Type}.

(** [l[i]] for an integer [i]: a negative index counts from the end. *)
Definition get (l : list A) (i : Z) : result A :=
  let n := Z.of_nat (length l) in
  let j := if i <? 0 then n + i else i in
  if (0 <=? j) && (j <? n) then
    match l !! Z.to_nat j with
    | Some a => Ok a
    | None => Raise IndexError
    end
  else Raise IndexError.

(** [l[i] = v]. *)
Definition set (l : list A) (i : Z) (v : A) : result (list A) :=
  let n := Z.of_nat (length l) in
  let j := if i <? 0 then n + i else i in
  if (0 <=? j) && (j <? n) then Ok (<[Z.to_nat j := v]> l)
  else Raise IndexError.

(** [l.pop()], keeping the shortened list only. *)
Definition pop (l : list A) : result (list A) :=
  match l with
  | [] => Raise IndexError
  | _ => Ok (removelast l)
  end.

(** [l.index(x)]: the first position holding [x]. *)
Fixpoint index (eqb : A -> A -> bool) (x : A) (l : list A) : result nat :=
  match l with
  | [] => Raise ValueError
  | y :: l' => if eqb x y then Ok O else let* i := index eqb x l' in Ok (S i)
  end.
End PyList.
End PyList.

(** ** Python strings *)

Module PyStr.
Definition CR : ascii := "013"%char.

(** The characters [str.strip()] removes and the regular expression's
    [\S] refuses: space, tab, line feed, vertical tab, form feed and
    carriage return. *)
Definition isspace (c : ascii) : bool :=
  let n := nat_of_ascii c in
  (Nat.eqb n 32 || (Nat.leb 9 n && Nat.leb n 13))%bool.

Definition chars (s : string) : list ascii := list_ascii_of_string s.
Definition of_chars (l : list ascii) : string := string_of_list_ascii l.

(** [len(s)] *)
Definition len (s : string) : Z := Z.of_nat (String.length s).

(** [s.split(sep)] for a one-character separator: consecutive separators
    are not collapsed and the empty string gives one empty piece. *)
Fixpoint split (sep : ascii) (s : string) : list string :=
  match s with
  | EmptyString => [EmptyString]
  | String c s' =>
      if Ascii.eqb c sep then EmptyString :: split sep s'
      else match split sep s' with
           | [] => [String c EmptyString]
           | x :: xs => String c x :: xs
           end
  end.

(** [s.split(sep, 1)[0]]: the text before the first separator. *)
Fixpoint before (sep : ascii) (s : string) : string :=
  match s with
  | EmptyString => EmptyString
  | String c s' => if Ascii.eqb c sep then EmptyString else String c (before sep s')
  end.

Fixpoint lstrip_by (p : ascii -> bool) (s : string) : string :=
  match s with
  | EmptyString => EmptyString
  | String c s' => if p c then lstrip_by p s' else s
  end.

Definition rstrip_by (p : ascii -> bool) (s : string) : string :=
  of_chars (rev (chars (lstrip_by p (of_chars (rev (chars s)))))).

Definition strip_by (p : ascii -> bool) (s : string) : string :=
  rstrip_by p (lstrip_by p s).

(** [s.strip()] and [s.strip("\r")] *)
Definition strip (s : string) : string := strip_by isspace s.
Definition strip_cr (s : string) : string := strip_by (Ascii.eqb CR) s.

(** The truth value of a string: non-empty. *)
Definition truthy (s : string) : bool :=
  match s with
  | EmptyString => false
  | String _ _ => true
  end.

(** [len(set(s))]: the number of distinct characters. *)
Definition distinct (s : string) : Z :=
  Z.of_nat (length (nodup ascii_dec (chars s))).

(** ["{0}_{1}".format(prefix, n)] with [n] written in decimal. *)
Definition decimal (n : nat) : string :=
  NilZero.string_of_uint (Nat.to_uint n).
Definition format_name (prefix : string) (n : nat) : string :=
  (prefix ++ "_" ++ decimal n)%string.

(** [s.startswith(p)] *)
Definition startswith (p s : string) : bool := String.prefix p s.
End PyStr.

(** ** The element tree and the collaborators of the parser *)

(** [encoding_chars]: the dictionary of separators. *)
Record encoding_chars : Type := {
  FIELD : ascii;
  COMPONENT : ascii;
  SUBCOMPONENT : ascii;
  REPETITION : ascii;
  ESCAPE : ascii;
  SEGMENT : ascii;
  GROUP : ascii
}.

(** A validation level as the caller passes it; [None] asks for the
    default one. *)
Definition validation_level : Type := option Z.

Record SubComponent : Type := {
  sc_name : option string;
  sc_datatype : option string;
  sc_value : string
}.

Record Component : Type := {
  c_name : option string;
  c_datatype : option string;
  (** [component.validation_level], the level the constructor kept *)
  c_validation_level : validation_level;
  c_children : list SubComponent
}.

Record Field : Type := {
  f_name : option string;
  f_datatype : option string;
  f_children : list Component
}.

Record Segment : Type := {
  seg_name : string;
  seg_children : list Field
}.

(** The kind of element a slot of a structure holds. *)
Inductive element_cls : Type := ClsSegment | ClsGroup.

(** One entry of [structure['structure_by_name']], in the order of its keys,
    together with the entry of [structure['repetitions']] under the same
    name: the pair (min, max). *)
Record slot : Type := {
  slot_name : string;
  slot_cls : element_cls;
  slot_repetitions : Z * Z
}.

Definition structure : Type := list slot.

(** A [reference] argument: [None], or the forced [('leaf', 'varies', None,
    None)] whose datatype is kept here. *)
Definition reference : Type := option string.

Definition varies_reference : reference := Some "varies".

(** What the parser imports from [hl7apy.core], [hl7apy.validation] and
    [hl7apy], for one HL7 version: the parser is given them, and nothing is
    assumed of what they answer. *)
Record core : Type := {
  (** [Field(name, version=, validation_level=, reference=)]: the exception
      the constructor raises, or the datatype of the field it builds *)
  Field_resolve :
    option string -> validation_level -> reference -> result (option string);
  (** [Component(name, datatype, version=, validation_level=)]: the
      exception, or the datatype of the component built *)
  Component_resolve :
    option string -> option string -> validation_level ->
    result (option string);
  (** [SubComponent(name=, datatype=, value=, version=, validation_level=)]:
      the exception, or the datatype of the sub-component built and the
      value it holds for the text given *)
  SubComponent_resolve :
    option string -> option string -> string -> validation_level ->
    result (option string * string);
  (** [Segment(name).allow_infinite_children], for a known segment name *)
  segment_ref : string -> option bool;
  is_base_datatype : option string -> bool;
  is_strict : validation_level -> bool;
  is_quiet : validation_level -> bool;
  (** what the assignment [x.children = children] raises, if anything, for
      a node of a datatype and a number of children *)
  child_limit : string -> nat -> option exn;
  (** [get_default_validation_level()] *)
  default_validation_level : validation_level;
  (** [ElementFinder.get_structure] of the message or group of a name *)
  get_structure : string -> structure
}.

(** Modelled from the spec: the validation policy a node keeps (section 3),
    [element.validation_level] of [hl7apy.core]: the level the constructor
    was given, the default one when it was given none. *)
Definition element_level (K : core) (vl : validation_level)
  : validation_level :=
  match vl with
  | Some l => Some l
  | None => default_validation_level K
  end.

(** Modelled from the spec: the constructor [Field] of [hl7apy.core], which
    is not among the sources. It raises, or it builds a node with the name
    given, the datatype resolved and no child (section 3); which exception,
    which datatype, is the collaborator's answer. *)
Definition new_Field (K : core) (name : option string) (vl : validation_level)
  (ref : reference) : result Field :=
  let* datatype := Field_resolve K name vl ref in
  Ok {| f_name := name; f_datatype := datatype; f_children := [] |}.

(** Modelled from the spec: the constructor [Component] of [hl7apy.core],
    in the same way; the node keeps its validation level. *)
Definition new_Component (K : core) (name datatype : option string)
  (vl : validation_level) : result Component :=
  let* resolved := Component_resolve K name datatype vl in
  Ok {| c_name := name; c_datatype := resolved;
        c_validation_level := element_level K vl; c_children := [] |}.

(** Modelled from the spec: the constructor [SubComponent] of
    [hl7apy.core], in the same way; the value the node holds for the text it
    is given is the collaborator's answer too. *)
Definition new_SubComponent (K : core) (name datatype : option string)
  (value : string) (vl : validation_level) : result SubComponent :=
  let* '(resolved, held) := SubComponent_resolve K name datatype value vl in
  Ok {| sc_name := name; sc_datatype := resolved; sc_value := held |}.

(** Modelled from the spec: [Element.add], which appends a child. *)
Definition Component_add (c : Component) (s : SubComponent) : Component :=
  {| c_name := c_name c; c_datatype := c_datatype c;
     c_validation_level := c_validation_level c;
     c_children := (c_children c ++ [s])%list |}.

Definition Field_add (f : Field) (c : Component) : Field :=
  {| f_name := f_name f; f_datatype := f_datatype f;
     f_children := (f_children f ++ [c])%list |}.

(** The assignment [x.datatype = None]. *)
Definition Field_set_datatype (f : Field) (d : option string) : Field :=
  {| f_name := f_name f; f_datatype := d; f_children := f_children f |}.
Definition Component_set_datatype (c : Component) (d : option string) : Component :=
  {| c_name := c_name c; c_datatype := d;
     c_validation_level := c_validation_level c; c_children := c_children c |}.

(** Modelled from the spec: the assignment [x.children = children] of
    [hl7apy.core]. A node with a declared datatype may refuse the children,
    as it does with [MaxChildLimitReached] for more than one child of a base
    datatype: that is the collaborator's answer. A node without a datatype
    takes what it is given: clearing the datatype is how the quiet policy
    avoids the error (section 4.2). *)
Definition children_refused (K : core) (datatype : option string) (n : nat)
  : option exn :=
  match datatype with
  | Some d => child_limit K d n
  | None => None
  end.

Definition Field_set_children (K : core) (f : Field) (l : list Component)
  : result Field :=
  match children_refused K (f_datatype f) (length l) with
  | Some e => Raise e
  | None =>
      Ok {| f_name := f_name f; f_datatype := f_datatype f; f_children := l |}
  end.

Definition Component_set_children (K : core) (c : Component)
  (l : list SubComponent) : result Component :=
  match children_refused K (c_datatype c) (length l) with
  | Some e => Raise e
  | None =>
      Ok {| c_name := c_name c; c_datatype := c_datatype c;
            c_validation_level := c_validation_level c; c_children := l |}
  end.

(** Modelled from the spec: the constant [N_SEPS] of [hl7apy.consts], the
    number of encoding characters of MSH.2. *)
Definition N_SEPS : Z := 4.

(** ** The parsing functions *)

Module PyStrSlice.
(** [s[:n]] and [s[n:]] *)
Fixpoint take (n : nat) (s : string) : string :=
  match n, s with
  | S n', String c s' => String c (take n' s')
  | _, _ => EmptyString
  end.
Fixpoint drop (n : nat) (s : string) : string :=
  match n, s with
  | S n', String _ s' => drop n' s'
  | _, _ => s
  end.
End PyStrSlice.

(** A loop [for index, x in enumerate(l)] whose body appends to a list that
    is returned at the end; [body] gives what one round appends. *)
Fixpoint for_enumerate {A B : Type} (body : nat -> A -> result (list B))
  (index : nat) (l : list A) : result (list B) :=
  match l with
  | [] => Ok []
  | x :: l' =>
      let* out := body index x in
      let* rest := for_enumerate body (S index) l' in
      Ok (out ++ rest)%list
  end.

(** A loop [for x in l] of the same shape. *)
Definition for_each {A B : Type} (body : A -> result (list B)) (l : list A)
  : result (list B) :=
  for_enumerate (fun _ x => body x) O l.

Definition opt_eqb (a : option string) (b : string) : bool :=
  match a with
  | Some x => String.eqb x b
  | None => false
  end.

Definition is_None {A : Type} (a : option A) : bool :=
  match a with
  | None => true
  | Some _ => false
  end.

Definition parse_subcomponent (K : core) (text : string)
  (name datatype : option string) (vl : validation_level)
  : result SubComponent :=
  new_SubComponent K name datatype text vl.

Definition parse_subcomponents (K : core) (E : encoding_chars) (text : string)
  (component_datatype : option string) (vl : validation_level)
  : result (list SubComponent) :=
  let subcomp_sep := SUBCOMPONENT E in
  for_enumerate
    (fun index subcomponent =>
       let '(subcomponent_name, subcomponent_datatype) :=
         if (is_base_datatype K component_datatype || is_None component_datatype)%bool
         then (None,
               match component_datatype with
               | Some d => Some d
               | None => Some "ST"
               end)
         else (match component_datatype with
               | Some d => Some (PyStr.format_name d (S index))
               | None => None
               end, None) in
       if (PyStr.truthy (PyStr.strip subcomponent) || is_None subcomponent_name)%bool
       then
         let* s := parse_subcomponent K subcomponent subcomponent_name
                     subcomponent_datatype vl in
         Ok [s]
       else Ok [])
    O (PyStr.split subcomp_sep text).

(** [Component(datatype, ...)] in the [except] branch passes the datatype
    in the place of the name. The quiet test reads the level the component
    keeps. *)
Definition parse_component (K : core) (E : encoding_chars) (text : string)
  (name datatype : option string) (vl : validation_level) : result Component :=
  let* component :=
    match new_Component K name datatype vl with
    | Raise InvalidName =>
        if is_strict K vl then Raise InvalidName
        else new_Component K datatype None vl
    | r => r
    end in
  let* children := parse_subcomponents K E text (c_datatype component) vl in
  let component :=
    if (is_quiet K (c_validation_level component)
        && is_base_datatype K (c_datatype component)
        && (Z.of_nat (length children) >? 1))%bool
    then Component_set_datatype component None
    else component in
  Component_set_children K component children.

Definition parse_components (K : core) (E : encoding_chars) (text : string)
  (field_datatype : option string) (vl : validation_level)
  : result (list Component) :=
  let component_sep := COMPONENT E in
  for_enumerate
    (fun index component =>
       let '(component_name, component_datatype) :=
         if is_base_datatype K field_datatype then (None, field_datatype)
         else if (is_None field_datatype || opt_eqb field_datatype "varies")%bool
         then (Some (PyStr.format_name "VARIES" (S index)), None)
         else (match field_datatype with
               | Some d => Some (PyStr.format_name d (S index))
               | None => None
               end, None) in
       if (PyStr.truthy (PyStr.strip component) || is_None component_name
           || match component_name with
              | Some n => PyStr.startswith "VARIES_" n
              | None => false
              end)%bool
       then
         let* c := parse_component K E component component_name
                     component_datatype vl in
         Ok [c]
       else Ok [])
    O (PyStr.split component_sep text).

(** The [except InvalidName] branch does not look at the validation
    level. The sub-component and the component of a control field are built
    without a name and without a validation level. *)
Definition parse_field (K : core) (E : encoding_chars) (text : string)
  (name : option string) (vl : validation_level) (ref : reference)
  (force_varies : bool) : result Field :=
  let* field :=
    match new_Field K name vl ref with
    | Raise InvalidName =>
        if force_varies then new_Field K name vl varies_reference
        else new_Field K None vl ref
    | r => r
    end in
  if (opt_eqb name "MSH_1" || opt_eqb name "MSH_2")%bool then
    let* s := new_SubComponent K None (Some "ST") text None in
    let* c := new_Component K None (Some "ST") None in
    let c := Component_add c s in
    Ok (Field_add field c)
  else
    let* children := parse_components K E text (f_datatype field) vl in
    let field :=
      if (is_quiet K vl && is_base_datatype K (f_datatype field)
          && (Z.of_nat (length children) >? 1))%bool
      then Field_set_datatype field None
      else field in
    Field_set_children K field children.

(** One round of the loop of [parse_fields]: what the slot [field] at
    position [index] appends to [fields]. *)
Definition parse_fields_slot (K : core) (E : encoding_chars)
  (name_prefix : option string) (vl : validation_level) (force_varies : bool)
  (index : nat) (field : string) : result (list Field) :=
  let field_sep := FIELD E in
  let repetition_sep := REPETITION E in
  let name :=
    match name_prefix with
    | Some p => Some (PyStr.format_name p (S index))
    | None => None
    end in
  if (PyStr.truthy (PyStr.strip field) || is_None name)%bool then
    if opt_eqb name "MSH_2" then
      let* f := parse_field K E field name vl None false in
      Ok [f]
    else
      for_each
        (fun rep =>
           let* f := parse_field K E rep name vl None force_varies in
           Ok [f])
        (PyStr.split repetition_sep field)
  else if opt_eqb name "MSH_1" then
    let* f := parse_field K E (String field_sep EmptyString) name vl None false in
    Ok [f]
  else Ok [].

Definition parse_fields (K : core) (E : encoding_chars) (text : string)
  (name_prefix : option string) (vl : validation_level) (force_varies : bool)
  : result (list Field) :=
  let text := PyStr.strip_cr text in
  let splitted_fields := PyStr.split (FIELD E) text in
  for_enumerate (parse_fields_slot K E name_prefix vl force_varies)
    O splitted_fields.

(** Modelled from the spec: the constructor [Segment] of [hl7apy.core],
    which raises [InvalidName] for a name the reference does not know. *)
Definition new_Segment (K : core) (name : string) : result bool :=
  match segment_ref K name with
  | Some allow_infinite_children => Ok allow_infinite_children
  | None => Raise InvalidName
  end.

Definition parse_segment (K : core) (E : encoding_chars) (text : string)
  (vl : validation_level) : result Segment :=
  let segment_name := PyStrSlice.take 3 text in
  let text :=
    if negb (String.eqb segment_name "MSH") then PyStrSlice.drop 4 text
    else PyStrSlice.drop 3 text in
  let* allow_infinite_children := new_Segment K segment_name in
  let* children :=
    parse_fields K E text (Some segment_name) vl allow_infinite_children in
  Ok {| seg_name := segment_name; seg_children := children |}.

(** The regular expression [^MSH(?P<field_sep>\S){1}] matched at the start
    of the text: the group [field_sep], when it matches. *)
Definition match_MSH (content : string) : option ascii :=
  match content with
  | String "M" (String "S" (String "H" (String c _))) =>
      if PyStr.isspace c then None else Some c
  | _ => None
  end.

Definition get_message_info (content : string)
  : result (encoding_chars * option string * option string) :=
  match match_MSH content with
  | Some field_sep =>
      let msh := PyStr.before PyStr.CR content in
      let fields := PyStr.split field_sep msh in
      let* seps := PyList.get fields 1 in
      if PyStr.len seps >? PyStr.distinct seps then
        Raise (InvalidEncodingChars "Found duplicate encoding chars")
      else
        match PyStr.chars seps with
        | [comp_sep; rep_sep; escape; sub_sep] =>
            let encoding_chars :=
              {| FIELD := field_sep; COMPONENT := comp_sep;
                 SUBCOMPONENT := sub_sep; REPETITION := rep_sep;
                 ESCAPE := escape; SEGMENT := PyStr.CR; GROUP := PyStr.CR |} in
            let message_structure :=
              match PyList.get fields 8 with
              | Ok f =>
                  let msh_9 := PyStr.strip f in
                  let message_type := PyStr.split (COMPONENT encoding_chars) msh_9 in
                  match PyList.get message_type 2 with
                  | Ok m => Some m
                  | Raise _ =>
                      match PyList.get message_type 0, PyList.get message_type 1 with
                      | Ok a, Ok b => Some (a ++ "_" ++ b)%string
                      | _, _ => None
                      end
                  end
              | Raise _ => None
              end in
            let version :=
              match PyList.get fields 11 with
              | Ok f =>
                  let msh_12 := PyStr.strip f in
                  let version_id := PyStr.split (COMPONENT encoding_chars) msh_12 in
                  match PyList.get version_id 0 with
                  | Ok v => Some v
                  | Raise _ => None
                  end
              | Raise _ => None
              end in
            Ok (encoding_chars, message_structure, version)
        | _ =>
            if PyStr.len seps <? N_SEPS then
              Raise (InvalidEncodingChars "Missing required encoding chars")
            else
              Raise (InvalidEncodingChars
                       ("Found " ++ PyStr.decimal (String.length seps)
                        ++ " encoding chars")%string)
        end
  | None => Raise (ParserError "Invalid message")
  end.

(** ** The group search of [create_groups] *)

(** The message and the groups are objects that both the search data and
    the tree under construction refer to, so they live in a store: element
    [0] is the message, a group is the position it was created at. *)
Inductive child : Type :=
  | CSeg (s : Segment)
  | CGrp (g : nat).

Record node : Type := {
  n_name : string;
  n_children : list child
}.

Abbreviation store := (list node).

(** [search_data]: three lists that grow and shrink together, written as in
    Python with the innermost level last. *)
Record search_data : Type := {
  parents : list nat;
  indexes : list Z;
  structures : list structure
}.

Record state : Type := {
  sd : search_data;
  objects : store
}.

(** Modelled from the spec: [Element.add] of [hl7apy.core] on a message or a
    group, which appends the child to the children of the parent. *)
Definition Element_add (parent : nat) (c : child) (h : store) : store :=
  alter (fun n => {| n_name := n_name n;
                     n_children := (n_children n ++ [c])%list |}) parent h.

(** Modelled from the spec: [Group(name, ...)], a new group without
    children; the result is the new object and the store holding it. *)
Definition new_Group (name : string) (h : store) : nat * store :=
  (length h, (h ++ [{| n_name := name; n_children := [] |}])%list).

(** [structure['structure_by_name'].keys().index(name)]; [ValueError] when
    the name is not a key. *)
Definition keys_index (name : string) (s : structure) : result nat :=
  PyList.index String.eqb name (map slot_name s).

(** [structure['repetitions'][name]] *)
Definition repetitions (name : string) (s : structure) : result (Z * Z) :=
  match find (fun x => String.eqb (slot_name x) name) s with
  | Some x => Ok (slot_repetitions x)
  | None => Raise KeyError
  end.

Definition is_Group (x : slot) : bool :=
  match slot_cls x with
  | ClsGroup => true
  | ClsSegment => false
  end.

Definition _go_back (d : search_data) : result search_data :=
  let* ps := PyList.pop (parents d) in
  let* ss := PyList.pop (structures d) in
  let* ixs := PyList.pop (indexes d) in
  Ok {| parents := ps; indexes := ixs; structures := ss |}.

Definition push (d : search_data) (p_structure : structure) (group : nat)
  : search_data :=
  {| structures := (structures d ++ [p_structure])%list;
     parents := (parents d ++ [group])%list;
     indexes := (indexes d ++ [-1])%list |}.

Definition set_indexes (d : search_data) (ixs : list Z) : search_data :=
  {| parents := parents d; indexes := ixs; structures := structures d |}.

Definition with_sd (s : state) (d : search_data) : state :=
  {| sd := d; objects := objects s |}.

(** The loop [for g in groups] of [_find_group], where [find] is the
    recursive call [_find_group(segment, search_data, validation_level)] and
    [structure] the structure read when the enclosing call started. The
    result is the value of [search_index] after the loop. *)
Fixpoint for_groups (K : core) (find : state -> result (Z * state))
  (structure : structure) (groups : list string) (s : state)
  : result (Z * state) :=
  match groups with
  | [] => Ok (-1, s)
  | g :: groups =>
      let '(group, h) := new_Group g (objects s) in
      let p_structure := get_structure K g in
      let s := {| sd := push (sd s) p_structure group; objects := h |} in
      let* '(found_index, s) := find s in
      if found_index >? -1 then
        let* i := PyList.index Nat.eqb group (parents (sd s)) in
        let find_parent := Z.of_nat i - 1 in
        let* parent := PyList.get (parents (sd s)) find_parent in
        let h := Element_add parent (CGrp group) (objects s) in
        let* search_index := keys_index g structure in
        let* ixs := PyList.set (indexes (sd s)) find_parent
                      (Z.of_nat search_index) in
        Ok (Z.of_nat search_index,
            {| sd := set_indexes (sd s) ixs; objects := h |})
      else
        let* d := _go_back (sd s) in
        for_groups K find structure groups (with_sd s d)
  end.

(** [_find_group]; [depth] is the number of nested calls the interpreter
    still allows. The result is the returned index and the search data and
    objects as the call leaves them. *)
Fixpoint _find_group (K : core) (depth : nat) (segment : Segment) (s : state)
  : result (Z * state) :=
  match depth with
  | O => Raise RecursionError
  | S depth =>
      let* current_index := PyList.get (indexes (sd s)) (-1) in
      let* structure := PyList.get (structures (sd s)) (-1) in
      match keys_index (seg_name segment) structure with
      | Raise _ =>
          let groups := map slot_name (List.filter is_Group structure) in
          for_groups K (_find_group K depth segment) structure groups s
      | Ok search_index =>
          let* rep := repetitions (seg_name segment) structure in
          if ((Z.of_nat search_index <=? current_index) && (snd rep =? 1))%bool
          then
            let* d := _go_back (sd s) in
            _find_group K depth segment (with_sd s d)
          else
            let* ixs := PyList.set (indexes (sd s)) (-1) (Z.of_nat search_index) in
            let s := with_sd s (set_indexes (sd s) ixs) in
            let* parent := PyList.get (parents (sd s)) (-1) in
            Ok (Z.of_nat search_index,
                {| sd := sd s;
                   objects := Element_add parent (CSeg segment) (objects s) |})
      end
  end.

(** The loop [for x in xrange(len(search_data['structures']))] of
    [create_groups] for one segment, with [n] rounds left: the last value
    of [found] and the state the loop leaves. *)
Fixpoint search_levels (K : core) (depth : nat) (c : Segment) (n : nat)
  (s : state) : result (Z * state) :=
  match n with
  | O => Ok (-1, s)
  | S n =>
      let* '(found, s) := _find_group K depth c s in
      if found =? -1 then
        let* d := _go_back (sd s) in
        search_levels K depth c n (with_sd s d)
      else Ok (found, s)
  end.

(** The body of [for c in children]: the search, then [message.add(c)] when
    nothing was found. The message is object [0]. *)
Definition place_segment (K : core) (depth : nat) (c : Segment) (s : state)
  : result state :=
  let* '(found, s) :=
    search_levels K depth c (length (structures (sd s))) s in
  if found =? -1 then
    Ok {| sd := sd s; objects := Element_add O (CSeg c) (objects s) |}
  else Ok s.

Fixpoint place_segments (K : core) (depth : nat) (children : list Segment)
  (s : state) : result state :=
  match children with
  | [] => Ok s
  | c :: children =>
      let* s := place_segment K depth c s in
      place_segments K depth children s
  end.

(** The state [create_groups] starts from: the message, just emptied of its
    children, is the only object and the only level of the search. *)
Definition initial_state (K : core) (message : string) : state :=
  {| sd := {| parents := [O]; indexes := [-1];
              structures := [get_structure K message] |};
     objects := [{| n_name := message; n_children := [] |}] |}.

Definition create_groups (K : core) (depth : nat) (message : string)
  (children : list Segment) : result state :=
  place_segments K depth children (initial_state K message).

(** ** The tree the objects form *)

(** The segments below object [i], in document order. [fuel] bounds the
    depth that is followed. *)
Fixpoint segments_below (fuel : nat) (h : store) (i : nat) : list Segment :=
  match fuel with
  | O => []
  | S fuel =>
      match h !! i with
      | None => []
      | Some n =>
          flat_map (fun c => match c with
                             | CSeg s => [s]
                             | CGrp g => segments_below fuel h g
                             end) (n_children n)
      end
  end.

(** The segments of the message tree. A group is created after its parent,
    so no path is longer than the store. *)
Definition tree_segments (h : store) : list Segment :=
  segments_below (length h) h O.

(** ** Observations the statements use *)

(** The fields of the control segment and MSH.2, as [get_message_info]
    reads them once the field separator [f] is known. *)
Definition MSH_fields (content : string) (f : ascii) : list string :=
  PyStr.split f (PyStr.before PyStr.CR content).
Definition MSH_2 (content : string) (f : ascii) : string :=
  nth 1 (MSH_fields content f) EmptyString.

(** The five extracted characters, field separator first. *)
Definition five_chars (E : encoding_chars) : list ascii :=
  [FIELD E; COMPONENT E; REPETITION E; ESCAPE E; SUBCOMPONENT E].

Definition raises_InvalidEncodingChars {A : Type} (r : result A) : Prop :=
  exists msg, r = Raise (InvalidEncodingChars msg).

(** What [parse_field] builds for a control field (lines 249-251): an ST
    sub-component made of the whole text, then an ST component it is added
    to, both without a name and without a validation level. *)
Definition control_leaf (K : core) (text : string) : result Component :=
  let* s := new_SubComponent K None (Some "ST") text None in
  let* c := new_Component K None (Some "ST") None in
  Ok (Component_add c s).

(** The leaf that holds a text as it is: one ST component with one ST
    sub-component whose value is the whole text. *)
Definition leaf_component (K : core) (text : string) : Component :=
  {| c_name := None; c_datatype := Some "ST";
     c_validation_level := element_level K None;
     c_children := [{| sc_name := None; sc_datatype := Some "ST";
                       sc_value := text |}] |}.

(** The classes build an unnamed ST node as they are asked to, and the ST
    sub-component holds its text unchanged. *)
Definition builds_ST_leaves (K : core) : Prop :=
  Component_resolve K None (Some "ST") None = Ok (Some "ST") /\
  forall text,
    SubComponent_resolve K None (Some "ST") text None = Ok (Some "ST", text).

(** A field that holds a text as a single leaf: it has one component, with
    one sub-component, the one the constructor makes of the whole text; and
    its child is [leaf_component] when the classes build ST leaves. *)
Definition single_leaf (K : core) (text : string) (f : Field) : Prop :=
  (exists c s,
      f_children f = [c] /\ c_children c = [s] /\
      new_SubComponent K None (Some "ST") text None = Ok s) /\
  (builds_ST_leaves K -> f_children f = [leaf_component K text]).

(** A piece that [strip()] empties. *)
Definition blank (s : string) : bool := negb (PyStr.truthy (PyStr.strip s)).

(** What the slot at position [i] (from 0) of a segment named [prefix]
    gives, in the words of the specification: nothing when it is blank,
    unless it is MSH_1, which gives one field made of the field separator;
    MSH_2 whole; and else one field for each repetition. *)
Definition slot_fields (K : core) (E : encoding_chars) (prefix : string)
  (vl : validation_level) (fv : bool) (i : nat) (slot : string)
  (out : list Field) : Prop :=
  let name := PyStr.format_name prefix (S i) in
  let field_sep := String (FIELD E) EmptyString in
  if blank slot then
    if String.eqb name "MSH_1" then
      exists f, out = [f] /\
                parse_field K E field_sep (Some name) vl None false = Ok f /\
                single_leaf K field_sep f
    else out = []
  else if String.eqb name "MSH_2" then
    exists f, out = [f] /\ parse_field K E slot (Some name) vl None false = Ok f
  else
    Forall2 (fun rep f => parse_field K E rep (Some name) vl None fv = Ok f)
      (PyStr.split (REPETITION E) slot) out.





(** [parse_field] after its [try] block, for the field that block built. *)
Definition parse_field_from (K : core) (E : encoding_chars) (text : string)
  (name : option string) (vl : validation_level) (field : Field)
  : result Field :=
  if (opt_eqb name "MSH_1" || opt_eqb name "MSH_2")%bool then
    let* c := control_leaf K text in
    Ok (Field_add field c)
  else
    let* children := parse_components K E text (f_datatype field) vl in
    Field_set_children K
      (if (is_quiet K vl && is_base_datatype K (f_datatype field)
           && (Z.of_nat (length children) >? 1))%bool
       then Field_set_datatype field None else field)
      children.

(** [parse_component] after its [try] block. *)
Definition parse_component_from (K : core) (E : encoding_chars) (text : string)
  (vl : validation_level) (component : Component) : result Component :=
  let* children := parse_subcomponents K E text (c_datatype component) vl in
  Component_set_children K
    (if (is_quiet K (c_validation_level component)
         && is_base_datatype K (c_datatype component)
         && (Z.of_nat (length children) >? 1))%bool
     then Component_set_datatype component None else component)
    children.

(** ** A small reference for the examples *)

Definition example_slot (name : string) (cls : element_cls) (lo hi : Z) : slot :=
  {| slot_name := name; slot_cls := cls; slot_repetitions := (lo, hi) |}.

(** The usual encoding characters. *)
Definition E0 : encoding_chars :=
  {| FIELD := "|"; COMPONENT := "^"; SUBCOMPONENT := "&"; REPETITION := "~";
     ESCAPE := "\"; SEGMENT := PyStr.CR; GROUP := PyStr.CR |}.

(** A reference with the fields of MSH (all ST) and two fields of PID, the
    components of XPN and the VARIES components, and the five
    sub-components of FN. An unknown name raises [InvalidName]; a field or a
    component without name and datatype is refused under the strict level
    with [OperationNotAllowed]; a sub-component holds its text as it is; a
    node of a base datatype refuses more than one child.
    Level 1 is the strict one, level 2 the quiet one and the default. The
    message [ORU] holds MSH, then a repeatable group [PATIENT] (PID, NTE
    and a group [VISIT] with PV1), then a repeatable group [ORDER] (OBR and
    PID). *)
Definition K0 : core :=
  {| Field_resolve := fun name vl ref =>
       match ref, name with
       | Some dt, _ => Ok (Some dt)
       | None, None =>
           match vl with
           | Some 1 => Raise OperationNotAllowed
           | _ => Ok None
           end
       | None, Some n =>
           if String.eqb n "PID_1" then Ok (Some "SI")
           else if String.eqb n "PID_5" then Ok (Some "XPN")
           else if String.prefix "MSH_" n then Ok (Some "ST")
           else Raise InvalidName
       end;
     Component_resolve := fun name datatype vl =>
       match name with
       | None =>
           match datatype, vl with
           | None, Some 1 => Raise OperationNotAllowed
           | _, _ => Ok datatype
           end
       | Some n =>
           if String.eqb n "XPN_1" then Ok (Some "FN")
           else if String.prefix "XPN_" n then Ok (Some "ST")
           else if String.prefix "VARIES_" n then Ok None
           else Raise InvalidName
       end;
     SubComponent_resolve := fun name datatype value vl =>
       match name with
       | None => Ok (datatype, value)
       | Some n =>
           if (String.eqb n "FN_1" || String.eqb n "FN_2" || String.eqb n "FN_3"
               || String.eqb n "FN_4" || String.eqb n "FN_5")%bool
           then Ok (Some "ST", value)
           else Raise InvalidName
       end;
     segment_ref := fun _ => Some false;
     is_base_datatype := fun d =>
       match d with
       | Some d => (String.eqb d "ST" || String.eqb d "SI")%bool
       | None => false
       end;
     is_strict := fun v => match v with Some 1 => true | _ => false end;
     is_quiet := fun v => match v with Some 2 => true | _ => false end;
     child_limit := fun d n =>
       if ((String.eqb d "ST" || String.eqb d "SI") && (1 <? Z.of_nat n))%bool
       then Some MaxChildLimitReached else None;
     default_validation_level := Some 2;
     get_structure := fun n =>
       if String.eqb n "ORU" then
         [example_slot "MSH" ClsSegment 1 1;
          example_slot "PATIENT" ClsGroup 0 (-1);
          example_slot "ORDER" ClsGroup 0 (-1)]
       else if String.eqb n "PATIENT" then
         [example_slot "PID" ClsSegment 1 1;
          example_slot "NTE" ClsSegment 0 (-1);
          example_slot "VISIT" ClsGroup 0 1]
       else if String.eqb n "VISIT" then [example_slot "PV1" ClsSegment 1 1]
       else if String.eqb n "ORDER" then
         [example_slot "OBR" ClsSegment 1 1; example_slot "PID" ClsSegment 0 1]
       else [] |}.

Definition example_segment (name : string) : Segment :=
  {| seg_name := name; seg_children := [] |}.




(** ** The shape of the objects during the search *)

(** The segments below object [i], followed as deep as the store allows. *)
Definition flat (h : store) (i : nat) : list Segment :=
  segments_below (length h - i) h i.

Definition flat_child (h : store) (c : child) : list Segment :=
  match c with
  | CSeg s => [s]
  | CGrp g => flat h g
  end.

(** A group is created after the object it is attached to and lives in the
    store. *)
Definition forward (h : store) : Prop :=
  forall i n j, h !! i = Some n -> In (CGrp j) (n_children n) ->
                (i < j)%nat /\ (j < length h)%nat.

(** The objects of the search data are in the store and each was created
    after the one of the level below. *)
Definition increasing (ps : list nat) : Prop :=
  forall i j p q, (i < j)%nat -> ps !! i = Some p -> ps !! j = Some q -> (p < q)%nat.

(** An object of the search data is referred to only by another one, and
    only as its last child. *)
Definition last_refs (h : store) (ps : list nat) : Prop :=
  forall i n k j, h !! i = Some n -> n_children n !! k = Some (CGrp j) ->
                  In j ps -> In i ps /\ S k = length (n_children n).

Record well_formed (s : state) : Prop := {
  wf_parents_indexes : length (parents (sd s)) = length (indexes (sd s));
  wf_parents_structures : length (parents (sd s)) = length (structures (sd s));
  wf_bounded : Forall (fun p => (p < length (objects s))%nat) (parents (sd s));
  wf_increasing : increasing (parents (sd s));
  wf_forward : forward (objects s);
  wf_last_refs : last_refs (objects s) (parents (sd s))
}.

(** Object [q] is the last child of object [p]. *)
Definition attached (h : store) (p q : nat) : Prop :=
  exists n, h !! p = Some n /\ last (n_children n) = Some (CGrp q).

(** Every level of the search data is the last child of the level below. *)
Fixpoint linked (h : store) (ps : list nat) : Prop :=
  match ps with
  | p :: (q :: _) as rest => attached h p q /\ linked h rest
  | _ => True
  end.

(** The objects of [h] other than [t] are the same in [h']. *)
Definition same_but (t : nat) (h h' : store) : Prop :=
  (length h <= length h')%nat /\
  forall i, (i < length h)%nat -> i <> t -> h' !! i = h !! i.

(** The objects of [h] are the same in [h']. *)
Definition extends (h h' : store) : Prop :=
  (length h <= length h')%nat /\
  forall i, (i < length h)%nat -> h' !! i = h !! i.

(** What a search that starts at a level just opened leaves behind. When
    it found a place ([found > -1]), the segment is the last one below the
    object [t] of that level, the levels it opened are linked from [t], and
    no other object that existed changed. When it found none, the search
    data are as before and so are the objects that existed. *)
Definition fresh_post (segment : Segment) (s : state) (found : Z) (s' : state)
  : Prop :=
  well_formed s' /\
  if found >? -1 then
    exists base t new_ps,
      parents (sd s) = (base ++ [t])%list /\
      parents (sd s') = (base ++ t :: new_ps)%list /\
      same_but t (objects s) (objects s') /\
      flat (objects s') t = (flat (objects s) t ++ [segment])%list /\
      linked (objects s') (t :: new_ps)
  else sd s' = sd s /\ extends (objects s) (objects s').

(** The same for a search that starts at any level: it may first have gone
    back, dropping the levels [popped]. *)
Definition search_post (segment : Segment) (s : state) (found : Z) (s' : state)
  : Prop :=
  well_formed s' /\
  if found >? -1 then
    exists base t popped new_ps,
      parents (sd s) = (base ++ t :: popped)%list /\
      parents (sd s') = (base ++ t :: new_ps)%list /\
      same_but t (objects s) (objects s') /\
      flat (objects s') t = (flat (objects s) t ++ [segment])%list /\
      linked (objects s') (t :: new_ps)
  else
    exists popped,
      parents (sd s) = (parents (sd s') ++ popped)%list /\
      extends (objects s) (objects s').

(** The state between two segments: the levels of the search data start at
    the message and are linked, and the tree holds the segments placed so
    far, in their order. *)
Definition settled (s : state) (placed : list Segment) : Prop :=
  well_formed s /\
  linked (objects s) (parents (sd s)) /\
  (forall p, head (parents (sd s)) = Some p -> p = O) /\
  (0 < length (objects s))%nat /\
  tree_segments (objects s) = placed.

(** The names of the group slots of a structure, as [_find_group] lists
    them. *)
Definition group_names (st : structure) : list string :=
  map slot_name (List.filter is_Group st).

(** [name] is no slot of the structure nor of the groups below it, and the
    allowed depth is enough to see that. *)
Fixpoint misses (K : core) (depth : nat) (name : string) (st : structure)
  : bool :=
  match depth with
  | O => false
  | S depth =>
      match keys_index name st with
      | Ok _ => false
      | Raise _ =>
          forallb (fun g => misses K depth name (get_structure K g))
            (group_names st)
      end
  end.

(** Every object of the list is without children. *)
Definition childless (l : list node) : Prop :=
  Forall (fun n => n_children n = []) l.

(** The state [create_groups] is in after MSH and PID of an ORU message of
    the example reference: the message holds MSH and a PATIENT group, which
    is the innermost level and holds the PID. *)
Definition after_MSH_PID : state :=
  {| sd := {| parents := [O; 1%nat]; indexes := [1; 0];
              structures := [get_structure K0 "ORU"; get_structure K0 "PATIENT"] |};
     objects :=
       [{| n_name := "ORU";
           n_children := [CSeg (example_segment "MSH"); CGrp 1] |};
        {| n_name := "PATIENT";
           n_children := [CSeg (example_segment "PID")] |}] |}.

(** The segments an object holds as direct children, and those held by all
    the objects of a store, whether in the tree or not. *)
Definition held_by (n : node) : list Segment :=
  flat_map (fun c => match c with
                     | CSeg s => [s]
                     | CGrp _ => []
                     end) (n_children n).

Definition held (h : store) : list Segment := flat_map held_by h.

(** The message exists and the objects of the search data are in the
    store. *)
Definition in_store (s : state) : Prop :=
  (0 < length (objects s))%nat /\
  Forall (fun p => (p < length (objects s))%nat) (parents (sd s)).

(** ** Further functions of the parser and observations on them *)

(** [parse_segments], for the version and the encoding characters given:
    the pieces of the text between segment separators, the empty ones left
    out, each stripped and parsed. *)
Definition parse_segments (K : core) (E : encoding_chars) (text : string)
  (vl : validation_level) : result (list Segment) :=
  let segment_sep := SEGMENT E in
  for_each
    (fun s => let* segment := parse_segment K E (PyStr.strip s) vl in
              Ok [segment])
    (List.filter (fun s => PyStr.len s >? 0) (PyStr.split segment_sep text)).

(** The pieces [parse_segments] parses. *)
Definition segment_pieces (E : encoding_chars) (text : string) : list string :=
  List.filter (fun s => PyStr.len s >? 0) (PyStr.split (SEGMENT E) text).

(** The message structure and the version [get_message_info] reads from
    the fields of the control segment: the third component of MSH.9, or its
    first two joined with an underscore, and the first component of
    MSH.12. *)
Definition message_structure_of (fields : list string) (comp : ascii)
  : option string :=
  match fields !! 8%nat with
  | None => None
  | Some f =>
      match PyStr.split comp (PyStr.strip f) with
      | _ :: _ :: c :: _ => Some c
      | [a; b] => Some (a ++ "_" ++ b)%string
      | _ => None
      end
  end.

Definition version_of (fields : list string) (comp : ascii) : option string :=
  match fields !! 11%nat with
  | None => None
  | Some f => Some (hd EmptyString (PyStr.split comp (PyStr.strip f)))
  end.

(** A group that is the child of an object has children of its own. *)
Definition no_empty_group (h : store) : Prop :=
  forall i n j, h !! i = Some n -> In (CGrp j) (n_children n) ->
                exists m, h !! j = Some m /\ n_children m <> [].

(** * Properties *)

(** ** Python lists and strings *)

Section StringFacts.
Import PyStr.

Lemma split_not_nil (sep : ascii) (s : string) : split sep s <> [].
Proof.
  destruct s as [|c s]; simpl; [discriminate|].
  destruct (Ascii.eqb c sep); [discriminate|].
  destruct (split sep s); discriminate.
Qed.

Lemma split_cons (sep c : ascii) (s : string) :
  split sep (String c s) =
  if Ascii.eqb c sep then EmptyString :: split sep s
  else String c (hd EmptyString (split sep s)) :: tl (split sep s).
Proof.
  simpl. destruct (Ascii.eqb c sep); [reflexivity|].
  destruct (split sep s); reflexivity.
Qed.

(** No piece of a split holds the separator. *)
Lemma split_no_sep (sep : ascii) (s x : string) :
  In x (split sep s) -> ~ In sep (chars x).
Proof.
  revert x. induction s as [|c s IH]; intros x Hx.
  - simpl in Hx. destruct Hx as [<-|[]]. simpl. tauto.
  - rewrite split_cons in Hx.
    destruct (Ascii.eqb_spec c sep) as [->|Hne].
    + destruct Hx as [<-|Hx]; [simpl; tauto|]. now apply IH.
    + pose proof (split_not_nil sep s) as Hnil.
      destruct (split sep s) as [|y ys]; [congruence|].
      simpl in Hx. destruct Hx as [<-|Hx].
      * simpl. intros [Heq|Hin]; [congruence|].
        apply (IH y); [now left|exact Hin].
      * apply IH. now right.
Qed.

Lemma split_length_sep (sep : ascii) (s : string) :
  In sep (chars s) -> (2 <= length (split sep s))%nat.
Proof.
  induction s as [|c s IH]; simpl; [tauto|].
  intros Hin. pose proof (split_not_nil sep s) as Hnil.
  destruct (Ascii.eqb_spec c sep) as [->|Hne].
  - destruct (split sep s); [congruence|]. simpl. lia.
  - destruct Hin as [Heq|Hin]; [congruence|].
    specialize (IH Hin). destruct (split sep s); simpl in *; lia.
Qed.

Lemma nodup_length_le (l : list ascii) :
  (length (nodup ascii_dec l) <= length l)%nat.
Proof.
  induction l as [|a l IH]; simpl; [lia|].
  destruct (in_dec ascii_dec a l); simpl; lia.
Qed.

Lemma nodup_length_NoDup (l : list ascii) :
  length (nodup ascii_dec l) = length l -> List.NoDup l.
Proof.
  induction l as [|a l IH]; simpl; intros H; [constructor|].
  pose proof (nodup_length_le l).
  destruct (in_dec ascii_dec a l); simpl in H; [lia|].
  constructor; [assumption|]. apply IH. lia.
Qed.

Lemma NoDup_nodup_length (l : list ascii) :
  List.NoDup l -> length (nodup ascii_dec l) = length l.
Proof. intros H. now rewrite nodup_fixed_point. Qed.

Lemma classic_four (l : list ascii) :
  (List.NoDup l /\ length l = 4%nat) \/ ~ (List.NoDup l /\ length l = 4%nat).
Proof.
  destruct (ListDec.NoDup_dec ascii_dec l) as [Hnd|Hnd];
    destruct (Nat.eq_dec (length l) 4%nat) as [H4|H4]; tauto.
Qed.

Lemma length_chars (s : string) : length (chars s) = String.length s.
Proof. induction s; simpl; congruence. Qed.
End StringFacts.

Lemma PyList_get_nth {A : Type} (l : list A) (i : nat) (d : A) :
  (i < length l)%nat -> PyList.get l (Z.of_nat i) = Ok (nth i l d).
Proof.
  intros Hi. unfold PyList.get.
  assert ((Z.of_nat i <? 0) = false) as -> by lia.
  assert (((0 <=? Z.of_nat i) && (Z.of_nat i <? Z.of_nat (length l))) = true) as ->
    by (apply andb_true_intro; split; lia).
  rewrite Nat2Z.id.
  destruct (l !! i) eqn:E.
  - f_equal. symmetry. apply nth_lookup_Some with (d := d) in E. exact E.
  - apply lookup_ge_None in E. lia.
Qed.

(** ** The separator extractor *)

Section MessageInfo.
Import PyStr.

Lemma match_MSH_inv (content : string) (f : ascii) :
  match_MSH content = Some f ->
  isspace f = false /\
  exists rest, content = String "M" (String "S" (String "H" (String f rest))).
Proof.
  unfold match_MSH. intros H.
  repeat match type of H with
         | match ?s with EmptyString => _ | String _ _ => _ end = _ =>
             destruct s; try discriminate
         | (if ?b then _ else _) = _ => destruct b eqn:?; try discriminate
         | match ?a with Ascii _ _ _ _ _ _ _ _ => _ end = _ =>
             destruct a
         end.
  inversion H; subst. split; [assumption|]. eexists. reflexivity.
Qed.

Lemma isspace_CR : isspace CR = true.
Proof. reflexivity. Qed.

Lemma MSH_fields_length (content : string) (f : ascii) :
  match_MSH content = Some f -> (2 <= length (MSH_fields content f))%nat.
Proof.
  intros H. destruct (match_MSH_inv _ _ H) as [Hsp [rest ->]].
  apply split_length_sep.
  assert (Ascii.eqb f CR = false) as Hf.
  { destruct (Ascii.eqb_spec f CR) as [->|]; [|reflexivity].
    rewrite isspace_CR in Hsp. discriminate. }
  cbn [before]. change (Ascii.eqb "M" CR) with false.
  change (Ascii.eqb "S" CR) with false. change (Ascii.eqb "H" CR) with false.
  cbn iota. rewrite Hf. simpl. tauto.
Qed.

Lemma MSH_2_no_field_sep (content : string) (f : ascii) :
  match_MSH content = Some f -> ~ In f (chars (MSH_2 content f)).
Proof.
  intros H. apply split_no_sep with (s := before CR content).
  apply nth_In. now apply MSH_fields_length.
Qed.
End MessageInfo.

Section MessageInfoCases.
Import PyStr.

(** What [get_message_info] does once the regular expression matched. *)
Lemma get_message_info_matched (content : string) (f : ascii) :
  match_MSH content = Some f ->
  let seps := MSH_2 content f in
  (List.NoDup (chars seps) /\ length (chars seps) = 4%nat ->
   exists comp rep esc sub ms v,
     chars seps = [comp; rep; esc; sub] /\
     get_message_info content =
     Ok ({| FIELD := f; COMPONENT := comp; SUBCOMPONENT := sub;
            REPETITION := rep; ESCAPE := esc; SEGMENT := CR; GROUP := CR |},
         ms, v)) /\
  (~ (List.NoDup (chars seps) /\ length (chars seps) = 4%nat) ->
   raises_InvalidEncodingChars (get_message_info content)).
Proof.
  intros Hm seps. unfold get_message_info. rewrite Hm.
  fold (MSH_fields content f).
  change 1 with (Z.of_nat 1).
  rewrite (PyList_get_nth (MSH_fields content f) 1 EmptyString
             (MSH_fields_length _ _ Hm)).
  fold (MSH_2 content f). fold seps. cbn [bind].
  unfold len, distinct. rewrite <- length_chars.
  pose proof (nodup_length_le (chars seps)) as Hle.
  split.
  - intros [Hnd H4].
    rewrite (NoDup_nodup_length _ Hnd).
    assert ((Z.of_nat (length (chars seps)) >? Z.of_nat (length (chars seps))) = false)
      as -> by lia.
    destruct (chars seps) as [|c1 [|c2 [|c3 [|c4 [|c5 l]]]]]; try discriminate.
    do 6 eexists. split; reflexivity.
  - intros Hbad.
    destruct (Z.of_nat (length (chars seps)) >? Z.of_nat (length (nodup ascii_dec (chars seps)))) eqn:Hd.
    + eexists; reflexivity.
    + assert (List.NoDup (chars seps)) as Hnd by (apply nodup_length_NoDup; lia).
      destruct (chars seps) as [|c1 [|c2 [|c3 [|c4 [|c5 l]]]]];
        try (destruct (_ <? N_SEPS); eexists; reflexivity).
      exfalso. apply Hbad. split; [assumption|reflexivity].
Qed.
End MessageInfoCases.

Section MessageInfoRaw.
Import PyStr.

Lemma hd_split_cons (sep c : ascii) (s : string) :
  hd EmptyString (split sep (String c s)) =
  if Ascii.eqb c sep then EmptyString
  else String c (hd EmptyString (split sep s)).
Proof. rewrite split_cons. now destruct (Ascii.eqb c sep). Qed.

Lemma before_cons (sep c : ascii) (s : string) :
  before sep (String c s) =
  if Ascii.eqb c sep then EmptyString else String c (before sep s).
Proof. reflexivity. Qed.

Lemma nth_1_cons {A : Type} (x : A) (l : list A) (d : A) :
  nth 1 (x :: l) d = hd d l.
Proof. now destruct l. Qed.

(** MSH.2 of a text whose first eight characters are known: when it has
    four characters, they are the four that follow the field separator,
    and none of them is the field separator. *)
Lemma MSH_2_raw (f c1 c2 c3 c4 : ascii) (rest : string) :
  isspace f = false ->
  let content :=
    String "M" (String "S" (String "H" (String f
      (String c1 (String c2 (String c3 (String c4 rest))))))) in
  length (chars (MSH_2 content f)) = 4%nat ->
  chars (MSH_2 content f) = [c1; c2; c3; c4].
Proof.
  intros Hsp content. unfold MSH_2, MSH_fields, content.
  assert (Ascii.eqb f CR = false) as Hf.
  { destruct (Ascii.eqb_spec f CR) as [->|]; [|reflexivity].
    rewrite isspace_CR in Hsp. discriminate. }
  rewrite !before_cons.
  change (Ascii.eqb "M" CR) with false. change (Ascii.eqb "S" CR) with false.
  change (Ascii.eqb "H" CR) with false. cbn iota. rewrite Hf.
  set (X := if Ascii.eqb c1 CR then _ else _).
  rewrite (split_cons f "M").
  destruct (Ascii.eqb_spec "M" f) as [<-|HM].
  { rewrite nth_1_cons, !hd_split_cons. simpl. discriminate. }
  rewrite nth_1_cons.
  rewrite (split_cons f "S").
  destruct (Ascii.eqb_spec "S" f) as [<-|HS].
  { cbn [tl]. rewrite !hd_split_cons. simpl. discriminate. }
  cbn [tl].
  rewrite (split_cons f "H").
  destruct (Ascii.eqb_spec "H" f) as [<-|HH].
  { cbn [tl]. rewrite split_cons. simpl. discriminate. }
  cbn [tl]. rewrite (split_cons f f), Ascii.eqb_refl. cbn [tl hd].
  unfold X. clear X.
  repeat match goal with
         | |- context [if Ascii.eqb ?a ?b then _ else _] =>
             destruct (Ascii.eqb_spec a b); subst;
             try rewrite !hd_split_cons; try rewrite !before_cons
         end;
    try (simpl; discriminate).
  simpl. intros H. injection H as H.
  destruct (hd _ _) eqn:E; [reflexivity|discriminate].
Qed.
End MessageInfoRaw.

Section MessageInfoClaims.
Import PyStr.

Lemma get_message_info_Ok_inv (content : string) (E : encoding_chars)
  (ms v : option string) :
  get_message_info content = Ok (E, ms, v) ->
  match_MSH content = Some (FIELD E) /\
  chars (MSH_2 content (FIELD E)) =
    [COMPONENT E; REPETITION E; ESCAPE E; SUBCOMPONENT E] /\
  List.NoDup (chars (MSH_2 content (FIELD E))).
Proof.
  intros HOk.
  destruct (match_MSH content) as [f|] eqn:Hm;
    [|unfold get_message_info in HOk; rewrite Hm in HOk; discriminate].
  destruct (get_message_info_matched content f Hm) as [Hgood Hbad].
  destruct (classic_four (chars (MSH_2 content f))) as [Hyes|Hno].
  - destruct (Hgood Hyes) as (comp & rep & esc & sub & ms' & v' & Hc & Heq).
    rewrite Heq in HOk. injection HOk as <- _ _. cbn.
    repeat split; [exact Hc|]. apply Hyes.
  - destruct (Hbad Hno) as [msg Hr]. rewrite Hr in HOk. discriminate.
Qed.

(** C3: a successful [get_message_info] returns five pairwise distinct
    encoding characters (the field separator and the component,
    repetition, escape and sub-component characters); and a text whose
    five characters after the tag MSH are not pairwise distinct, the
    field separator included, is refused with an exception:
    [ParserError] when the field separator is a space character,
    [InvalidEncodingChars] otherwise. *)
Theorem encoding_chars_pairwise_distinct :
  (forall content E ms v,
      get_message_info content = Ok (E, ms, v) ->
      List.NoDup (five_chars E)) /\
  (forall f c1 c2 c3 c4 rest,
      ~ List.NoDup [f; c1; c2; c3; c4] ->
      let content :=
        String "M" (String "S" (String "H" (String f
          (String c1 (String c2 (String c3 (String c4 rest))))))) in
      if isspace f
      then get_message_info content = Raise (ParserError "Invalid message")
      else raises_InvalidEncodingChars (get_message_info content)).
Proof.
  split.
  - intros content E ms v HOk.
    destruct (get_message_info_Ok_inv _ _ _ _ HOk) as (Hm & Hc & Hnd).
    unfold five_chars. constructor.
    + rewrite <- Hc. now apply MSH_2_no_field_sep.
    + now rewrite <- Hc.
  - intros f c1 c2 c3 c4 rest Hdup content.
    destruct (isspace f) eqn:Hsp.
    + unfold get_message_info, content, match_MSH. now rewrite Hsp.
    + assert (match_MSH content = Some f) as Hm
        by (unfold content, match_MSH; now rewrite Hsp).
      apply (get_message_info_matched content f Hm).
      intros [Hnd H4]. apply Hdup.
      pose proof (MSH_2_raw f c1 c2 c3 c4 rest Hsp H4) as Hraw.
      fold content in Hraw. constructor.
      * rewrite <- Hraw. now apply MSH_2_no_field_sep.
      * now rewrite <- Hraw.
Qed.
End MessageInfoClaims.

Section MessageInfoWitness.
Import PyStr.

Lemma not_NoDup_head_repeated (a b c d e : ascii) :
  a = c -> ~ List.NoDup [a; b; c; d; e].
Proof.
  intros -> H. inversion H as [|x l Hin _]; subst.
  apply Hin. simpl. tauto.
Qed.

Lemma encoding_chars_pairwise_distinct_witness :
  List.NoDup ["|"; "^"; "~"; "\"; "&"]%char /\
  raises_InvalidEncodingChars (get_message_info "MSH|^|\&|ADT").
Proof.
  split.
  - refine (proj1 encoding_chars_pairwise_distinct "MSH|^~\&|ADT"
              {| FIELD := "|"; COMPONENT := "^"; SUBCOMPONENT := "&";
                 REPETITION := "~"; ESCAPE := "\"; SEGMENT := CR;
                 GROUP := CR |} None None _).
    vm_compute. reflexivity.
  - refine (proj2 encoding_chars_pairwise_distinct "|"%char "^"%char "|"%char
              "\"%char "&"%char "|ADT" _).
    apply not_NoDup_head_repeated. reflexivity.
Defined.

(** C5: for a text that starts with the tag MSH and a field separator,
    [get_message_info] raises [InvalidEncodingChars] when MSH.2 (the
    second piece of the control segment split on the field separator)
    repeats a character, when it has fewer than four characters and when
    it has more than four; when it is four distinct characters the call
    succeeds and they become, in this order, the component, repetition,
    escape and sub-component separators. *)
Theorem get_message_info_MSH_2 (content : string) (f : ascii) :
  match_MSH content = Some f ->
  let seps := MSH_2 content f in
  (~ List.NoDup (chars seps) ->
   raises_InvalidEncodingChars (get_message_info content)) /\
  ((length (chars seps) < 4)%nat ->
   raises_InvalidEncodingChars (get_message_info content)) /\
  ((4 < length (chars seps))%nat ->
   raises_InvalidEncodingChars (get_message_info content)) /\
  (List.NoDup (chars seps) -> length (chars seps) = 4%nat ->
   exists comp rep esc sub ms v,
     chars seps = [comp; rep; esc; sub] /\
     get_message_info content =
     Ok ({| FIELD := f; COMPONENT := comp; SUBCOMPONENT := sub;
            REPETITION := rep; ESCAPE := esc; SEGMENT := CR; GROUP := CR |},
         ms, v)).
Proof.
  intros Hm seps.
  destruct (get_message_info_matched content f Hm) as [Hgood Hbad].
  fold seps in Hgood, Hbad.
  repeat split.
  - intros H. apply Hbad. tauto.
  - intros H. apply Hbad. intros [_ H4]. lia.
  - intros H. apply Hbad. intros [_ H4]. lia.
  - intros Hnd H4. apply Hgood. tauto.
Qed.

Lemma get_message_info_MSH_2_witness :
  match_MSH "MSH|^~\&|ADT" = Some "|"%char /\
  exists ms v,
    get_message_info "MSH|^~\&|ADT" =
    Ok ({| FIELD := "|"; COMPONENT := "^"; SUBCOMPONENT := "&";
           REPETITION := "~"; ESCAPE := "\"; SEGMENT := CR; GROUP := CR |},
        ms, v).
Proof.
  split; [reflexivity|].
  destruct (get_message_info_MSH_2 "MSH|^~\&|ADT" "|"%char eq_refl)
    as (_ & _ & _ & H).
  destruct H as (comp & rep & esc & sub & ms & v & Hc & Heq).
  - vm_compute. repeat constructor; simpl; intuition discriminate.
  - reflexivity.
  - exists ms, v. vm_compute in Hc. injection Hc as <- <- <- <-. exact Heq.
Defined.
End MessageInfoWitness.
(** ** The decomposition stages *)

Ltac bind_inv_auto H :=
  match type of H with
  | bind ?r _ = Ok _ =>
      let E := fresh "E" in
      destruct r eqn:E; cbn [bind] in H; [|discriminate H]
  end.

Tactic Notation "bind_inv" hyp(H) := bind_inv_auto H.

Tactic Notation "bind_inv" hyp(H) "as" ident(x) ident(E) :=
  match type of H with
  | bind ?r _ = Ok _ =>
      destruct r as [x|] eqn:E; cbn [bind] in H; [|discriminate H]
  end.

Section Loops.
Context {A B : Type}.

Lemma for_enumerate_Ok_length (body : nat -> A -> result (list B))
  (P : B -> Prop) :
  forall (l : list A) (i : nat) (out : list B),
    (forall j x r, body j x = Ok r -> (1 <= length r)%nat /\ Forall P r) ->
    for_enumerate body i l = Ok out ->
    (length l <= length out)%nat /\ Forall P out.
Proof.
  induction l as [|x l IH]; intros i out Hb H; simpl in H.
  - injection H as <-. split; [simpl; lia|constructor].
  - destruct (body i x) as [r|e] eqn:Er; [|discriminate]. cbn [bind] in H.
    destruct (for_enumerate body (S i) l) as [rest|e] eqn:El; [|discriminate].
    cbn [bind] in H. injection H as <-.
    destruct (Hb _ _ _ Er) as [Hr HP].
    destruct (IH _ _ Hb El) as [Hl HQ].
    rewrite length_app. split; [simpl; lia|].
    apply Forall_app. split; assumption.
Qed.

(** What a loop returns is the rounds' outputs one after the other, and
    every round returned. *)
Lemma for_enumerate_rounds (body : nat -> A -> result (list B)) :
  forall (l : list A) (i : nat) (out : list B),
    for_enumerate body i l = Ok out <->
    exists outs,
      Forall2 (fun jx r => body (fst jx) (snd jx) = Ok r)
        (imap (fun j x => ((i + j)%nat, x)) l) outs /\
      out = concat outs.
Proof.
  induction l as [|x l IH]; intros i out; cbn [for_enumerate imap].
  - split.
    + intros H. injection H as <-. exists []. split; [constructor|reflexivity].
    + intros (outs & H & ->). inversion H. reflexivity.
  - assert (imap ((fun j y => ((i + j)%nat, y)) ∘ S) l =
            imap (fun j y => ((S i + j)%nat, y)) l) as ->.
    { apply imap_ext. intros j y _. cbn. f_equal. lia. }
    split.
    + intros H. destruct (body i x) as [r|e] eqn:Er; [|discriminate].
      cbn [bind] in H.
      destruct (for_enumerate body (S i) l) as [rest|e] eqn:El; [|discriminate].
      cbn [bind] in H. injection H as <-.
      apply IH in El. destruct El as (outs & Hall & ->).
      exists (r :: outs). split; [|reflexivity].
      constructor; [|exact Hall]. cbn [fst snd]. now rewrite Nat.add_0_r.
    + intros (outs & Hall & ->). inversion Hall as [|jx r l1 outs' Hr Hrest]; subst.
      cbn [fst snd] in Hr. rewrite Nat.add_0_r in Hr. rewrite Hr. cbn [bind].
      assert (for_enumerate body (S i) l = Ok (concat outs')) as ->
        by (apply IH; eauto).
      reflexivity.
Qed.

(** The first round that raises ends the loop with its exception. *)
Lemma for_enumerate_raises (body : nat -> A -> result (list B)) :
  forall (l : list A) (i : nat) (e : exn),
    for_enumerate body i l = Raise e ->
    exists j x, l !! j = Some x /\ body (i + j)%nat x = Raise e.
Proof.
  induction l as [|x l IH]; intros i e H; cbn [for_enumerate] in H;
    [discriminate|].
  destruct (body i x) as [r|e0] eqn:Er.
  - cbn [bind] in H.
    destruct (for_enumerate body (S i) l) as [rest|e1] eqn:El; [discriminate|].
    cbn [bind] in H. injection H as <-.
    destruct (IH _ _ El) as (j & y & Hy & Hb).
    exists (S j), y. split; [exact Hy|].
    now replace (i + S j)%nat with (S i + j)%nat by lia.
  - cbn [bind] in H. injection H as <-.
    exists O, x. split; [reflexivity|]. now rewrite Nat.add_0_r.
Qed.


(** A loop whose rounds append one element, made of the position and the
    piece, or nothing: what it returns is made of the pieces it keeps, in
    their order. *)
Lemma for_enumerate_kept (body : nat -> A -> result (list B))
  (keep : nat -> A -> bool) (mk : nat -> A -> result B) :
  (forall i x,
      body i x = if keep i x then let* y := mk i x in Ok [y] else Ok []) ->
  forall (l : list A) (i : nat) (out : list B),
    for_enumerate body i l = Ok out ->
    Forall2 (fun ix y => mk (fst ix) (snd ix) = Ok y)
      (List.filter (fun ix => keep (fst ix) (snd ix))
         (imap (fun j x => ((i + j)%nat, x)) l))
      out.
Proof.
  intros Hbody. induction l as [|x l IH]; intros i out H;
    cbn [for_enumerate] in H.
  - injection H as <-. constructor.
  - bind_inv H as o Eo. bind_inv H as rest Er. injection H as <-.
    apply IH in Er. cbn [imap List.filter fst snd].
    assert (imap ((fun j y => ((i + j)%nat, y)) ∘ S) l =
            imap (fun j y => ((S i + j)%nat, y)) l) as ->.
    { apply imap_ext. intros j y _. cbn. f_equal. lia. }
    rewrite Nat.add_0_r. rewrite Hbody in Eo. destruct (keep i x).
    + bind_inv Eo as y Ey. injection Eo as <-. cbn [app].
      constructor; [exact Ey|exact Er].
    + injection Eo as <-. exact Er.
Qed.
End Loops.

Section Stages.
Variable K : core.
Variable E : encoding_chars.

Lemma parse_field_unfold (text : string) (name : option string)
  (vl : validation_level) (ref : reference) (force_varies : bool) :
  parse_field K E text name vl ref force_varies =
  let* field :=
    match new_Field K name vl ref with
    | Raise InvalidName =>
        if force_varies then new_Field K name vl varies_reference
        else new_Field K None vl ref
    | r => r
    end in
  parse_field_from K E text name vl field.
Proof.
  unfold parse_field, parse_field_from, control_leaf.
  destruct (match new_Field K name vl ref with Raise InvalidName => _ | r => r end);
    [|reflexivity].
  cbn [bind].
  destruct (opt_eqb name "MSH_1" || opt_eqb name "MSH_2")%bool; [|reflexivity].
  destruct (new_SubComponent K None (Some "ST") text None); [|reflexivity].
  cbn [bind]. now destruct (new_Component K None (Some "ST") None).
Qed.

Lemma parse_component_unfold (text : string) (name datatype : option string)
  (vl : validation_level) :
  parse_component K E text name datatype vl =
  let* component :=
    match new_Component K name datatype vl with
    | Raise InvalidName =>
        if is_strict K vl then Raise InvalidName
        else new_Component K datatype None vl
    | r => r
    end in
  parse_component_from K E text vl component.
Proof. reflexivity. Qed.

Lemma new_Field_inv (name : option string) (vl : validation_level)
  (ref : reference) (field : Field) :
  new_Field K name vl ref = Ok field ->
  f_name field = name /\ f_children field = [].
Proof.
  unfold new_Field. destruct (Field_resolve K name vl ref); [|discriminate].
  cbn [bind]. intros H. injection H as <-. split; reflexivity.
Qed.

Lemma new_Component_inv (name datatype : option string)
  (vl : validation_level) (c : Component) :
  new_Component K name datatype vl = Ok c ->
  c_name c = name /\ c_children c = [] /\
  c_validation_level c = element_level K vl.
Proof.
  unfold new_Component.
  destruct (Component_resolve K name datatype vl); [|discriminate].
  cbn [bind]. intros H. injection H as <-. repeat split.
Qed.

Lemma new_SubComponent_inv (name datatype : option string) (value : string)
  (vl : validation_level) (s : SubComponent) :
  new_SubComponent K name datatype value vl = Ok s -> sc_name s = name.
Proof.
  unfold new_SubComponent.
  destruct (SubComponent_resolve K name datatype value vl) as [[dt v]|];
    [|discriminate].
  cbn [bind]. intros H. now injection H as <-.
Qed.



End Stages.

Section ControlFields.
Variable K : core.
Variable E : encoding_chars.

Lemma control_leaf_inv (text : string) (c : Component) :
  control_leaf K text = Ok c ->
  (exists s, c_children c = [s] /\
             new_SubComponent K None (Some "ST") text None = Ok s) /\
  (builds_ST_leaves K -> c = leaf_component K text).
Proof.
  unfold control_leaf. intros H. bind_inv H as s Es. bind_inv H as c0 Ec.
  injection H as <-. split.
  - exists s. split; [|reflexivity].
    apply new_Component_inv in Ec as (_ & Hch & _). cbn. now rewrite Hch.
  - intros [Hc Hs]. unfold new_SubComponent in Es. rewrite Hs in Es.
    cbn [bind] in Es. injection Es as <-.
    unfold new_Component in Ec. rewrite Hc in Ec. cbn [bind] in Ec.
    injection Ec as <-. reflexivity.
Qed.

Lemma parse_field_control (text name : string) (vl : validation_level)
  (ref : reference) (fv : bool) (field : Field) :
  name = "MSH_1" \/ name = "MSH_2" ->
  parse_field K E text (Some name) vl ref fv = Ok field ->
  single_leaf K text field.
Proof.
  intros Hn H. rewrite parse_field_unfold in H. bind_inv H as f0 Ef.
  assert (f_children f0 = []) as Hch.
  { destruct (new_Field K (Some name) vl ref) as [f1|e] eqn:E1.
    - injection Ef as <-. now apply new_Field_inv in E1.
    - destruct e; try discriminate.
      destruct fv; now apply new_Field_inv in Ef. }
  unfold parse_field_from in H.
  assert ((opt_eqb (Some name) "MSH_1" || opt_eqb (Some name) "MSH_2")%bool = true)
    as Hctl by (destruct Hn as [-> | ->]; reflexivity).
  rewrite Hctl in H. bind_inv H as c Ec. injection H as <-.
  apply control_leaf_inv in Ec as [(s & Hs & Hnew) Hleaf].
  unfold single_leaf, Field_add. cbn [f_children]. rewrite Hch. cbn [app].
  split.
  - exists c, s. repeat split; assumption.
  - intros Hb. now rewrite (Hleaf Hb).
Qed.

(** C7, as the code has it: the control fields are stored whole.
    [parse_field] gives MSH_1 and MSH_2, when it returns, one component
    with one sub-component made of the text it received, whatever
    separators that text contains: the ST leaf holding that text, for
    classes that build ST leaves as they are asked to. [parse_fields], on a
    control segment whose first slot is blank and whose second is not,
    starts its result with MSH_1 holding the field separator and MSH_2
    holding the raw second slot, each as that single leaf. *)
Theorem control_fields_single_leaf :
  (forall (text name : string) vl ref fv field,
      name = "MSH_1" \/ name = "MSH_2" ->
      parse_field K E text (Some name) vl ref fv = Ok field ->
      single_leaf K text field) /\
  (forall (text : string) vl fv s1 s2 more fields,
      PyStr.split (FIELD E) (PyStr.strip_cr text) = s1 :: s2 :: more ->
      PyStr.truthy (PyStr.strip s1) = false ->
      PyStr.truthy (PyStr.strip s2) = true ->
      parse_fields K E text (Some "MSH") vl fv = Ok fields ->
      exists f1 f2 rest,
        fields = f1 :: f2 :: rest /\
        single_leaf K (String (FIELD E) EmptyString) f1 /\
        single_leaf K s2 f2).
Proof.
  split; [intros; eapply parse_field_control; eassumption|].
  intros text vl fv s1 s2 more fields Hsplit Hb1 Hb2 HOk.
  unfold parse_fields in HOk. rewrite Hsplit in HOk.
  cbn [for_enumerate] in HOk.
  unfold parse_fields_slot at 1 in HOk. rewrite Hb1 in HOk.
  change (PyStr.format_name "MSH" 1) with "MSH_1" in HOk.
  cbn [is_None orb opt_eqb String.eqb Ascii.eqb Bool.eqb] in HOk.
  bind_inv HOk as o1 E1. bind_inv E1 as f1 Hf1. injection E1 as <-.
  unfold parse_fields_slot at 1 in HOk. rewrite Hb2 in HOk.
  change (PyStr.format_name "MSH" 2) with "MSH_2" in HOk.
  cbn [is_None orb opt_eqb String.eqb Ascii.eqb Bool.eqb] in HOk.
  bind_inv HOk as tl E2. bind_inv E2 as o2 E3. bind_inv E3 as f2 Hf2.
  injection E3 as <-. bind_inv E2 as rest Er. injection E2 as <-.
  injection HOk as <-.
  exists f1, f2, rest. split; [reflexivity|].
  split; eapply parse_field_control; try eassumption; auto.
Qed.
End ControlFields.

Section EmptySlots.
Variable K : core.
Variable E : encoding_chars.

(** A text without the separator is one piece. *)
Lemma split_without (sep : ascii) (s : string) :
  ~ In sep (PyStr.chars s) -> PyStr.split sep s = [s].
Proof.
  induction s as [|c s IH]; intros Hn; [reflexivity|].
  rewrite split_cons. destruct (Ascii.eqb_spec c sep) as [->|Hc].
  - exfalso. apply Hn. now left.
  - rewrite IH; [reflexivity|]. intros Hin. apply Hn. now right.
Qed.

(** After the [try] block the name of the field is settled. *)
Lemma parse_field_from_name (text : string) (name : option string)
  (vl : validation_level) (field f : Field) :
  parse_field_from K E text name vl field = Ok f -> f_name f = f_name field.
Proof.
  unfold parse_field_from. intros H.
  destruct (opt_eqb name "MSH_1" || opt_eqb name "MSH_2")%bool.
  - bind_inv H as c Ec. now injection H as <-.
  - bind_inv H as children Ech. unfold Field_set_children in H.
    destruct (children_refused K _ _); [discriminate|]. injection H as <-.
    now destruct (is_quiet K vl && _ && _)%bool.
Qed.

(** An unnamed field comes out of [parse_field] unnamed. *)
Lemma parse_field_unnamed (text : string) (vl : validation_level)
  (fv : bool) (f : Field) :
  parse_field K E text None vl None fv = Ok f -> f_name f = None.
Proof.
  rewrite parse_field_unfold. intros H. bind_inv H as f0 Ef.
  apply parse_field_from_name in H. rewrite H.
  destruct (new_Field K None vl None) as [f1|e] eqn:E1.
  - injection Ef as <-. now apply new_Field_inv in E1.
  - destruct e; try discriminate.
    destruct fv; [now apply new_Field_inv in Ef|discriminate].
Qed.

Lemma for_each_parse_field (name : option string) (vl : validation_level)
  (fv : bool) :
  forall (reps : list string) (i : nat) (out : list Field),
    for_enumerate
      (fun _ rep => let* f := parse_field K E rep name vl None fv in Ok [f])
      i reps = Ok out ->
    Forall2 (fun rep f => parse_field K E rep name vl None fv = Ok f) reps out.
Proof.
  induction reps as [|rep reps IH]; intros i out H; cbn [for_enumerate] in H.
  - injection H as <-. constructor.
  - bind_inv H as o Eo. bind_inv Eo as f Ef. injection Eo as <-.
    bind_inv H as rest Er. injection H as <-.
    constructor; [exact Ef|]. eapply IH, Er.
Qed.

(** One round of the loop of [parse_fields], with a name prefix. *)
Lemma parse_fields_slot_prefix (prefix : string) (vl : validation_level)
  (fv : bool) (i : nat) (slot : string) (out : list Field) :
  parse_fields_slot K E (Some prefix) vl fv i slot = Ok out ->
  slot_fields K E prefix vl fv i slot out.
Proof.
  unfold parse_fields_slot, slot_fields, blank. cbn [is_None opt_eqb].
  rewrite orb_false_r. intros H.
  destruct (PyStr.truthy (PyStr.strip slot)); cbn [negb].
  - destruct (String.eqb (PyStr.format_name prefix (S i)) "MSH_2").
    + bind_inv H as f Ef. injection H as <-. eauto.
    + now apply for_each_parse_field in H.
  - destruct (String.eqb (PyStr.format_name prefix (S i)) "MSH_1") eqn:En.
    + apply String.eqb_eq in En. rewrite En in *.
      bind_inv H as f Ef. injection H as <-.
      exists f. split; [reflexivity|]. split; [reflexivity|].
      eapply parse_field_control; [|exact Ef]. now left.
    + now injection H as <-.
Qed.

(** One round of the loop without a name prefix. *)
Lemma parse_fields_slot_unnamed (vl : validation_level) (fv : bool)
  (i : nat) (slot : string) (out : list Field) :
  parse_fields_slot K E None vl fv i slot = Ok out ->
  Forall2 (fun rep f => parse_field K E rep None vl None fv = Ok f)
    (PyStr.split (REPETITION E) slot) out.
Proof.
  unfold parse_fields_slot. cbn [is_None opt_eqb]. rewrite orb_true_r.
  apply for_each_parse_field.
Qed.

Lemma imap_pair_0 {A : Type} (l : list A) :
  imap (fun i x => ((0 + i)%nat, x)) l = imap pair l.
Proof. apply imap_ext. reflexivity. Qed.

Lemma Forall2_imap_snd {A B : Type} (P : A -> B -> Prop) :
  forall (l : list A) (k : list B) (g : nat -> nat),
    Forall2 (fun ix y => P (snd ix) y) (imap (fun i x => (g i, x)) l) k ->
    Forall2 P l k.
Proof.
  induction l as [|x l IH]; intros k g H; cbn [imap] in H.
  - inversion H. constructor.
  - inversion H as [|ix y l1 k1 Hxy Hrest]; subst.
    constructor; [exact Hxy|]. apply (IH _ (g ∘ S)). exact Hrest.
Qed.

(** C6, as the code has it. With a name prefix, what [parse_fields]
    returns is, slot after slot, nothing for a blank slot, except the
    blank slot named MSH_1, which gives one field made of the field
    separator and holding it as a single leaf; MSH_2 whole when it is not
    blank; and one field for each repetition of any other slot. Without
    a name prefix every slot, blank or not, gives unnamed fields, one for
    each piece of the slot split on the repetition separator and so at
    least one: the fields are all unnamed and at least as many as the
    slots, and they stand at the positions of their slots when no slot
    holds the repetition separator. *)
Theorem parse_fields_empty_slots (vl : validation_level) (fv : bool)
  (text : string) (fields : list Field) :
  let slots := PyStr.split (FIELD E) (PyStr.strip_cr text) in
  (forall prefix,
      parse_fields K E text (Some prefix) vl fv = Ok fields ->
      exists outs,
        fields = concat outs /\
        Forall2 (fun ix out => slot_fields K E prefix vl fv (fst ix) (snd ix) out)
          (imap pair slots) outs) /\
  (parse_fields K E text None vl fv = Ok fields ->
   (exists outs,
       fields = concat outs /\
       Forall2
         (fun slot out =>
            Forall2 (fun rep f => parse_field K E rep None vl None fv = Ok f)
              (PyStr.split (REPETITION E) slot) out)
         slots outs) /\
   Forall (fun f => f_name f = None) fields /\
   (length slots <= length fields)%nat /\
   ((forall slot, In slot slots ->
                  ~ In (REPETITION E) (PyStr.chars slot)) ->
    Forall2 (fun slot f => parse_field K E slot None vl None fv = Ok f)
      slots fields)).
Proof.
  intros slots. split.
  - intros prefix H. unfold parse_fields in H. fold slots in H.
    apply for_enumerate_rounds in H. destruct H as (outs & Hall & ->).
    exists outs. split; [reflexivity|]. rewrite imap_pair_0 in Hall.
    eapply Forall2_impl; [exact Hall|].
    intros ix out Hs. now apply parse_fields_slot_prefix.
  - intros H. unfold parse_fields in H. fold slots in H.
    pose proof H as Hlen.
    apply (for_enumerate_Ok_length _ (fun f => f_name f = None)) in Hlen.
    2:{ intros j x r Hr. apply parse_fields_slot_unnamed in Hr.
        pose proof (split_not_nil (REPETITION E) x) as Hne. split.
        - apply Forall2_length in Hr. rewrite <- Hr.
          destruct (PyStr.split (REPETITION E) x); [congruence|simpl; lia].
        - clear Hne. induction Hr as [|rep f reps fs Hf _ IH];
            constructor; [|exact IH].
          now apply parse_field_unnamed in Hf. }
    destruct Hlen as [Hlen Hnames].
    apply for_enumerate_rounds in H. destruct H as (outs & Hall & ->).
    assert (Forall2
              (fun slot out =>
                 Forall2 (fun rep f => parse_field K E rep None vl None fv = Ok f)
                   (PyStr.split (REPETITION E) slot) out) slots outs) as Hslots.
    { apply (Forall2_imap_snd _ _ _ (fun i => (0 + i)%nat)).
      eapply Forall2_impl; [exact Hall|].
      intros ix out Hs. now apply parse_fields_slot_unnamed in Hs. }
    split; [exists outs; split; [reflexivity|exact Hslots]|].
    split; [exact Hnames|]. split; [exact Hlen|].
    intros Hno. clear Hall Hlen Hnames.
    induction Hslots as [|slot out slots' outs' Hs _ IH]; [constructor|].
    rewrite split_without in Hs by (apply Hno; now left).
    inversion Hs as [|rep f reps fs Hf Hnil]; subst.
    inversion Hnil; subst. cbn [concat app].
    constructor; [exact Hf|]. apply IH. intros s Hin. apply Hno. now right.
Qed.
End EmptySlots.

Section NameErrors.
Variable K : core.
Variable E : encoding_chars.

End NameErrors.



(** ** The stages on the example reference *)

Lemma K0_builds_ST_leaves : builds_ST_leaves K0.
Proof. split; [reflexivity|intros text; reflexivity]. Qed.


(** Without the quiet policy the datatype stays and the children are
    refused: under the strict level for the component, and for the field
    also when no level is given, [parse_field] testing the level it was
    given and not the default one. *)
Lemma base_datatype_children_refused :
  parse_component K0 E0 "A&B" None (Some "ST") (Some 1) =
  Raise MaxChildLimitReached /\
  parse_field K0 E0 "A^B" (Some "MSH_3") None None false =
  Raise MaxChildLimitReached.
Proof. split; reflexivity. Qed.

Lemma control_fields_single_leaf_witness :
  exists f1 f2 rest,
    parse_fields K0 E0 "|^~\&|LAB" (Some "MSH") (Some 2) false =
    Ok (f1 :: f2 :: rest) /\
    f_children f1 = [leaf_component K0 "|"] /\
    f_children f2 = [leaf_component K0 "^~\&"].
Proof.
  destruct (parse_fields K0 E0 "|^~\&|LAB" (Some "MSH") (Some 2) false)
    as [fields|e] eqn:Hfields; [|vm_compute in Hfields; discriminate].
  destruct (proj2 (control_fields_single_leaf K0 E0) "|^~\&|LAB" (Some 2) false
              "" "^~\&" ["LAB"] fields eq_refl eq_refl eq_refl Hfields)
    as (f1 & f2 & rest & -> & [_ H1] & [_ H2]).
  exists f1, f2, rest. split; [reflexivity|].
  split; [exact (H1 K0_builds_ST_leaves)|exact (H2 K0_builds_ST_leaves)].
Defined.

(** A control segment whose MSH.2 is made of four white-space characters
    (space, tab, vertical tab, form feed): [get_message_info] accepts it,
    and [parse_segment] gives the segment no MSH_2 field. *)
Lemma blank_MSH_2_dropped :
  let content :=
    ("MSH|" ++ String " " (String "009" (String "011" (String "012" "|LAB"))))%string in
  let E := {| FIELD := "|"; COMPONENT := " "; SUBCOMPONENT := "012";
              REPETITION := "009"; ESCAPE := "011";
              SEGMENT := PyStr.CR; GROUP := PyStr.CR |} in
  get_message_info content = Ok (E, None, None) /\
  exists segment,
    parse_segment K0 E content (Some 2) = Ok segment /\
    map f_name (seg_children segment) = [Some "MSH_1"; Some "MSH_3"].
Proof.
  split; [reflexivity|].
  eexists. split; [vm_compute; reflexivity|reflexivity].
Qed.

Lemma parse_fields_empty_slots_witness :
  (exists fields outs,
      parse_fields K0 E0 "|^~\&||LAB" (Some "MSH") (Some 2) false = Ok fields /\
      fields = concat outs /\
      Forall2 (fun ix out =>
                 slot_fields K0 E0 "MSH" (Some 2) false (fst ix) (snd ix) out)
        [(0%nat, ""); (1%nat, "^~\&"); (2%nat, ""); (3%nat, "LAB")] outs) /\
  (exists fields,
      parse_fields K0 E0 "1||A" None (Some 2) false = Ok fields /\
      Forall2 (fun slot f => parse_field K0 E0 slot None (Some 2) None false = Ok f)
        ["1"; ""; "A"] fields).
Proof.
  split.
  - destruct (parse_fields K0 E0 "|^~\&||LAB" (Some "MSH") (Some 2) false)
      as [fields|e] eqn:H; [|vm_compute in H; discriminate].
    destruct (proj1 (parse_fields_empty_slots K0 E0 (Some 2) false "|^~\&||LAB"
                       fields) "MSH" H) as (outs & Hc & Hall).
    exists fields, outs. split; [reflexivity|]. split; assumption.
  - destruct (parse_fields K0 E0 "1||A" None (Some 2) false)
      as [fields|e] eqn:H; [|vm_compute in H; discriminate].
    destruct (proj2 (parse_fields_empty_slots K0 E0 (Some 2) false "1||A"
                       fields) H) as (_ & _ & _ & Haligned).
    exists fields. split; [reflexivity|].
    apply Haligned. simpl. intuition (subst; simpl in *; intuition discriminate).
Defined.

(** Without a name prefix a repetition separator shifts the positions: the
    two slots of the text give three fields, and the second field is made
    of the second repetition of the first slot. *)
Lemma repetitions_shift_positions :
  PyStr.split (FIELD E0) "A~B|C" = ["A~B"; "C"] /\
  exists fA fB fC,
    parse_fields K0 E0 "A~B|C" None (Some 2) false = Ok [fA; fB; fC] /\
    parse_field K0 E0 "B" None (Some 2) None false = Ok fB /\
    parse_field K0 E0 "C" None (Some 2) None false = Ok fC.
Proof.
  split; [reflexivity|].
  eexists _, _, _. split; [vm_compute; reflexivity|]. split; reflexivity.
Qed.

(** ** The group search *)

Local Open Scope list_scope.

Section GoBack.
Lemma pop_length {A : Type} (l l' : list A) :
  PyList.pop l = Ok l' -> length l = S (length l').
Proof.
  destruct l as [|x l]; [discriminate|].
  destruct (exists_last (l := x :: l)) as (l0 & y & Heq); [discriminate|].
  rewrite Heq. unfold PyList.pop.
  destruct (l0 ++ [y]) eqn:El; [now destruct l0|]. rewrite <- El.
  rewrite removelast_last, length_app. intros H. injection H as <-.
  simpl. lia.
Qed.

Lemma pop_snoc {A : Type} (l : list A) (x : A) :
  PyList.pop (l ++ [x]) = Ok l.
Proof.
  unfold PyList.pop. rewrite removelast_last.
  now destruct l.
Qed.

Lemma go_back_structures (d d' : search_data) :
  _go_back d = Ok d' -> length (structures d) = S (length (structures d')).
Proof.
  unfold _go_back. intros H. bind_inv H. bind_inv H. bind_inv H.
  injection H as <-. cbn. now apply pop_length.
Qed.

Lemma go_back_push (d : search_data) (st : structure) (g : nat) :
  _go_back (push d st g) = Ok d.
Proof.
  unfold _go_back, push. cbn. rewrite !pop_snoc. cbn. now destruct d.
Qed.

Lemma get_last_snoc {A : Type} (l : list A) (x : A) :
  PyList.get (l ++ [x]) (-1) = Ok x.
Proof.
  unfold PyList.get. rewrite length_app. cbn [length].
  change (-1 <? 0) with true. cbv iota.
  assert (((0 <=? Z.of_nat (length l + 1) + -1)
           && (Z.of_nat (length l + 1) + -1 <? Z.of_nat (length l + 1)))%bool
          = true) as -> by (apply andb_true_intro; split; lia).
  replace (Z.to_nat (Z.of_nat (length l + 1) + -1)) with (length l) by lia.
  now rewrite list_lookup_middle.
Qed.

Lemma set_last_snoc {A : Type} (l : list A) (x v : A) :
  PyList.set (l ++ [x]) (-1) v = Ok (l ++ [v]).
Proof.
  unfold PyList.set. rewrite length_app. cbn [length].
  change (-1 <? 0) with true. cbv iota.
  assert (((0 <=? Z.of_nat (length l + 1) + -1)
           && (Z.of_nat (length l + 1) + -1 <? Z.of_nat (length l + 1)))%bool
          = true) as -> by (apply andb_true_intro; split; lia).
  replace (Z.to_nat (Z.of_nat (length l + 1) + -1)) with (length l + 0)%nat by lia.
  now rewrite insert_app_r.
Qed.

Lemma pop_inv {A : Type} (l l' : list A) :
  PyList.pop l = Ok l' -> exists x, l = l' ++ [x].
Proof.
  destruct l as [|a l]; [discriminate|].
  destruct (exists_last (l := a :: l)) as (l0 & y & Heq); [discriminate|].
  rewrite Heq, pop_snoc. intros H. injection H as <-. now exists y.
Qed.

Lemma go_back_inv (d d' : search_data) :
  _go_back d = Ok d' ->
  exists p ix st,
    parents d = parents d' ++ [p] /\ indexes d = indexes d' ++ [ix] /\
    structures d = structures d' ++ [st].
Proof.
  unfold _go_back. intros H.
  bind_inv H as ps Eps. bind_inv H as ss Ess. bind_inv H as ixs Eix.
  injection H as <-. cbn.
  apply pop_inv in Eps, Ess, Eix.
  destruct Eps as [p ->], Ess as [st ->], Eix as [ix ->].
  now exists p, ix, st.
Qed.
End GoBack.

Section FindGroup.
Variable K : core.

Lemma find_group_S (depth : nat) (segment : Segment) (s : state) :
  _find_group K (S depth) segment s =
  let* current_index := PyList.get (indexes (sd s)) (-1) in
  let* structure := PyList.get (structures (sd s)) (-1) in
  match keys_index (seg_name segment) structure with
  | Raise _ =>
      for_groups K (_find_group K depth segment) structure
        (map slot_name (List.filter is_Group structure)) s
  | Ok search_index =>
      let* rep := repetitions (seg_name segment) structure in
      if ((Z.of_nat search_index <=? current_index) && (snd rep =? 1))%bool
      then
        let* d := _go_back (sd s) in
        _find_group K depth segment (with_sd s d)
      else
        let* ixs := PyList.set (indexes (sd s)) (-1) (Z.of_nat search_index) in
        let* parent := PyList.get (parents (sd s)) (-1) in
        Ok (Z.of_nat search_index,
            {| sd := set_indexes (sd s) ixs;
               objects := Element_add parent (CSeg segment) (objects s) |})
  end.
Proof. reflexivity. Qed.

(** The slot of the segment is found in the innermost structure. *)
Lemma find_group_found (depth : nat) (segment : Segment) (s : state)
  (current_index : Z) (structure : structure) (k : nat) (rep : Z * Z) :
  PyList.get (indexes (sd s)) (-1) = Ok current_index ->
  PyList.get (structures (sd s)) (-1) = Ok structure ->
  keys_index (seg_name segment) structure = Ok k ->
  repetitions (seg_name segment) structure = Ok rep ->
  _find_group K (S depth) segment s =
  if ((Z.of_nat k <=? current_index) && (snd rep =? 1))%bool
  then
    let* d := _go_back (sd s) in
    _find_group K depth segment (with_sd s d)
  else
    let* ixs := PyList.set (indexes (sd s)) (-1) (Z.of_nat k) in
    let* parent := PyList.get (parents (sd s)) (-1) in
    Ok (Z.of_nat k,
        {| sd := set_indexes (sd s) ixs;
           objects := Element_add parent (CSeg segment) (objects s) |}).
Proof.
  intros Hi Hs Hk Hr. rewrite find_group_S, Hi, Hs. cbn [bind].
  rewrite Hk, Hr. reflexivity.
Qed.

(** A call that reports failure has not made the search data longer. *)
Lemma find_group_failed_length (depth : nat) (segment : Segment) :
  forall (s s' : state) (found : Z),
    _find_group K depth segment s = Ok (found, s') ->
    (found >? -1) = false ->
    (length (structures (sd s')) <= length (structures (sd s)))%nat.
Proof.
  induction depth as [|depth IH]; intros s s' found H Hneg; [discriminate|].
  rewrite find_group_S in H.
  bind_inv H as cur Ecur. bind_inv H as st Est.
  destruct (keys_index (seg_name segment) st) as [k|e] eqn:Ek.
  - bind_inv H as rep Erep.
    destruct ((Z.of_nat k <=? cur) && (snd rep =? 1))%bool.
    + bind_inv H as d Ed. apply IH in H; [|assumption].
      apply go_back_structures in Ed. cbn in H. lia.
    + bind_inv H as ixs Eix. bind_inv H as p Ep. injection H as <- <-. lia.
  - clear Ecur Est Ek. revert s H.
    induction (map slot_name (List.filter is_Group st)) as [|g gs IHg];
      intros s H; cbn [for_groups] in H.
    + injection H as _ <-. lia.
    + cbn [new_Group] in H. bind_inv H as r1 E1. destruct r1 as [found1 s1].
      destruct (found1 >? -1) eqn:Ef.
      * bind_inv H as i Ei. bind_inv H as p Ep. bind_inv H as si Esi.
        bind_inv H as ixs Eix. injection H as <- _. lia.
      * bind_inv H as d Ed. apply IHg in H.
        apply IH in E1; [|assumption].
        apply go_back_structures in Ed. cbn in *.
        rewrite length_app in E1. cbn in E1. lia.
Qed.
End FindGroup.

Section RootFrame.
Variable K : core.

Lemma search_levels_failed (depth : nat) (c : Segment) :
  forall (n : nat) (s s' : state),
    search_levels K depth c n s = Ok (-1, s') ->
    (length (structures (sd s')) + n <= length (structures (sd s)))%nat.
Proof.
  induction n as [|n IH]; intros s s' H; cbn [search_levels] in H.
  - injection H as <-. lia.
  - bind_inv H as r Er. destruct r as [found s1].
    destruct (found =? -1) eqn:Ef.
    + bind_inv H as d Ed. apply IH in H. cbn in H.
      apply go_back_structures in Ed.
      apply find_group_failed_length in Er; [|lia]. lia.
    + injection H as -> _. discriminate.
Qed.






(** C10: a segment that repeats a slot of the message structure that
    admits one occurrence makes [_find_group] drop the only level and read
    the last index of the emptied list: [IndexError]. So does
    [create_groups] on two segments in a row that are named after such a
    slot. *)
Theorem repeated_root_slot_IndexError (depth : nat) :
  (forall (segment : Segment) (h : store) p current_index structure k rep,
      keys_index (seg_name segment) structure = Ok k ->
      repetitions (seg_name segment) structure = Ok rep ->
      Z.of_nat k <= current_index -> snd rep = 1 ->
      let d := {| parents := [p]; indexes := [current_index];
                  structures := [structure] |} in
      _go_back d = Ok {| parents := []; indexes := []; structures := [] |} /\
      _find_group K (S (S depth)) segment {| sd := d; objects := h |} =
      Raise IndexError) /\
  (forall (message : string) (c1 c2 : Segment) (rest : list Segment) k rep,
      seg_name c2 = seg_name c1 ->
      keys_index (seg_name c1) (get_structure K message) = Ok k ->
      repetitions (seg_name c1) (get_structure K message) = Ok rep ->
      snd rep = 1 ->
      create_groups K (S (S depth)) message (c1 :: c2 :: rest) =
      Raise IndexError).
Proof.
  assert (forall (segment : Segment) (h : store) p current_index structure k rep,
      keys_index (seg_name segment) structure = Ok k ->
      repetitions (seg_name segment) structure = Ok rep ->
      Z.of_nat k <= current_index -> snd rep = 1 ->
      _find_group K (S (S depth)) segment
        {| sd := {| parents := [p]; indexes := [current_index];
                    structures := [structure] |}; objects := h |} =
      Raise IndexError) as Hfind.
  { intros segment h p cur st k rep Hk Hr Hle Hmax.
    rewrite (find_group_found K (S depth) segment _ cur st k rep);
      try assumption; try reflexivity.
    assert (((Z.of_nat k <=? cur) && (snd rep =? 1))%bool = true) as ->
      by (apply andb_true_intro; split; lia).
    reflexivity. }
  split.
  - intros. split; [reflexivity|]. eapply Hfind; eassumption.
  - intros message c1 c2 rest k rep Hname Hk Hr Hmax.
    unfold create_groups, initial_state. cbn [place_segments].
    unfold place_segment at 1. cbn [sd structures length search_levels].
    rewrite (find_group_found K (S depth) c1 _ (-1) (get_structure K message)
               k rep); try assumption; try reflexivity.
    assert (((Z.of_nat k <=? -1) && (snd rep =? 1))%bool = false) as ->
      by (apply andb_false_intro1; lia).
    cbn [sd indexes parents].
    change (PyList.set [-1] (-1) (Z.of_nat k)) with (Ok [Z.of_nat k]).
    change (PyList.get [O] (-1)) with (Ok O).
    cbn [bind].
    assert ((Z.of_nat k =? -1) = false) as Hk1 by lia.
    rewrite Hk1. cbn [bind]. rewrite Hk1. cbn [bind]. unfold place_segment.
    cbn [sd objects set_indexes structures parents length search_levels].
    unfold set_indexes. cbn [parents structures].
    rewrite Hfind with (k := k) (rep := rep); try reflexivity; try lia;
      now rewrite Hname.
Qed.
End RootFrame.

(** ** The group search on the example reference *)


Lemma repeated_root_slot_IndexError_witness :
  create_groups K0 3 "ORU" [example_segment "MSH"; example_segment "MSH"] =
  Raise IndexError.
Proof.
  apply (proj2 (repeated_root_slot_IndexError K0 1) "ORU"
           (example_segment "MSH") (example_segment "MSH") [] O (1, 1));
    reflexivity.
Defined.

(** ** Every segment ends up once in the tree *)

Section Flat.
Lemma flat_map_ext_In {A B : Type} (f g : A -> list B) (l : list A) :
  (forall x, In x l -> f x = g x) -> flat_map f l = flat_map g l.
Proof.
  induction l as [|x l IH]; intros H; [reflexivity|]. cbn [flat_map].
  rewrite (H x (or_introl eq_refl)), IH; [reflexivity|].
  intros y Hy. apply H. now right.
Qed.

(** Two stores that agree on a set of objects closed under children give
    the same segments below each object of the set. *)
Lemma segments_below_agree (h h' : store) (P : nat -> Prop) :
  (forall i, P i ->
             (i < length h)%nat /\ h' !! i = h !! i /\
             forall n j, h !! i = Some n -> In (CGrp j) (n_children n) ->
                         (i < j)%nat /\ P j) ->
  forall f f' i,
    P i -> (length h - i <= f)%nat -> (length h - i <= f')%nat ->
    segments_below f h i = segments_below f' h' i.
Proof.
  intros HP. induction f as [|f IH]; intros f' i Hi Hf Hf'.
  - destruct (HP i Hi) as (Hlt & _). lia.
  - destruct (HP i Hi) as (Hlt & Heq & Hch).
    destruct f' as [|f']; [lia|]. cbn [segments_below]. rewrite Heq.
    destruct (h !! i) as [n|] eqn:En; [|reflexivity].
    specialize (Hch n). clear Heq En.
    induction (n_children n) as [|c cs IHc]; [reflexivity|].
    cbn [flat_map]. f_equal.
    + destruct c as [x|j]; [reflexivity|].
      destruct (Hch j eq_refl (or_introl eq_refl)) as [Hij Hj].
      apply IH; [assumption|lia|lia].
    + apply IHc. intros j Hn Hin. apply Hch; [assumption|now right].
Qed.

Lemma flat_unfold (h : store) (i : nat) (n : node) :
  forward h -> h !! i = Some n ->
  flat h i = flat_map (flat_child h) (n_children n).
Proof.
  intros Hfw Hn. unfold flat.
  assert (i < length h)%nat as Hlt by (apply lookup_lt_is_Some; eauto).
  destruct (length h - i)%nat as [|f] eqn:Ef; [lia|].
  cbn [segments_below]. rewrite Hn.
  apply flat_map_ext_In. intros [x|j] Hin; [reflexivity|].
  destruct (Hfw i n j Hn Hin) as [Hij Hj]. cbn [flat_child]. unfold flat.
  apply (segments_below_agree h h (fun i => (i < length h)%nat));
    [|assumption|lia|lia].
  intros k Hk. split; [assumption|]. split; [reflexivity|].
  intros m l Hm Hl. now apply (Hfw k m l).
Qed.

(** Objects from [first] on that did not change have the same segments
    below them. *)
Lemma flat_same_above (h h' : store) (first : nat) :
  forward h -> (length h <= length h')%nat ->
  (forall i, (first <= i)%nat -> (i < length h)%nat -> h' !! i = h !! i) ->
  forall i, (first <= i)%nat -> (i < length h)%nat -> flat h' i = flat h i.
Proof.
  intros Hfw Hlen Hsame i Hfi Hi. unfold flat. symmetry.
  apply (segments_below_agree h h'
           (fun i => (first <= i)%nat /\ (i < length h)%nat));
    [|split; assumption|lia|lia].
  intros k [Hfk Hk]. split; [assumption|]. split; [now apply Hsame|].
  intros n j Hn Hin. destruct (Hfw k n j Hn Hin). repeat split; lia.
Qed.

(** Objects outside the search data have the same segments below them
    when only objects of the search data changed. *)
Lemma flat_same_off (h h' : store) (ps : list nat) :
  forward h -> last_refs h ps -> (length h <= length h')%nat ->
  (forall i, (i < length h)%nat -> ~ In i ps -> h' !! i = h !! i) ->
  forall i, (i < length h)%nat -> ~ In i ps -> flat h' i = flat h i.
Proof.
  intros Hfw Hlr Hlen Hsame i Hi Hni. unfold flat. symmetry.
  apply (segments_below_agree h h'
           (fun i => (i < length h)%nat /\ ~ In i ps));
    [|split; assumption|lia|lia].
  intros k [Hk Hnk]. split; [assumption|]. split; [now apply Hsame|].
  intros n j Hn Hin. destruct (Hfw k n j Hn Hin) as [Hkj Hj].
  repeat split; try assumption.
  intros Hjps. apply list_elem_of_In, list_elem_of_lookup in Hin.
  destruct Hin as [pos Hpos].
  destruct (Hlr k n pos j Hn Hpos Hjps) as [Hkps _]. contradiction.
Qed.
End Flat.

Section Store.
Lemma Element_add_length (p : nat) (c : child) (h : store) :
  length (Element_add p c h) = length h.
Proof. apply length_alter. Qed.

Lemma Element_add_lookup (p : nat) (c : child) (h : store) (n : node) :
  h !! p = Some n ->
  Element_add p c h !! p =
  Some {| n_name := n_name n; n_children := n_children n ++ [c] |}.
Proof. intros Hn. unfold Element_add. now rewrite list_lookup_alter_eq, Hn. Qed.

Lemma Element_add_lookup_ne (p i : nat) (c : child) (h : store) :
  i <> p -> Element_add p c h !! i = h !! i.
Proof. intros Hne. unfold Element_add. now rewrite list_lookup_alter_ne. Qed.

Lemma Element_add_same_but (p : nat) (c : child) (h : store) :
  same_but p h (Element_add p c h).
Proof.
  split; [rewrite Element_add_length; lia|].
  intros i _ Hne. now apply Element_add_lookup_ne.
Qed.

Lemma same_but_trans (t : nat) (h1 h2 h3 : store) :
  same_but t h1 h2 -> same_but t h2 h3 -> same_but t h1 h3.
Proof.
  intros [Hl1 H1] [Hl2 H2]. split; [lia|]. intros i Hi Hne.
  rewrite H2, H1; auto; lia.
Qed.

Lemma extends_refl (h : store) : extends h h.
Proof. split; [lia|reflexivity]. Qed.

Lemma extends_trans (h1 h2 h3 : store) :
  extends h1 h2 -> extends h2 h3 -> extends h1 h3.
Proof.
  intros [Hl1 H1] [Hl2 H2]. split; [lia|]. intros i Hi.
  rewrite H2, H1; auto; lia.
Qed.

Lemma extends_same_but (t : nat) (h h' : store) :
  extends h h' -> same_but t h h'.
Proof. intros [Hl H]. split; [assumption|]. intros i Hi _. now apply H. Qed.

Lemma extends_snoc (h : store) (n : node) : extends h (h ++ [n]).
Proof.
  split; [rewrite length_app; lia|]. intros i Hi. now apply lookup_app_l.
Qed.

Lemma forward_snoc (h : store) (name : string) :
  forward h -> forward (h ++ [{| n_name := name; n_children := [] |}]).
Proof.
  intros Hfw i n j Hn Hin. rewrite length_app. cbn [length].
  destruct (decide (i < length h)%nat) as [Hi|Hi].
  - rewrite lookup_app_l in Hn by assumption.
    destruct (Hfw i n j Hn Hin). lia.
  - rewrite lookup_app_r in Hn by lia.
    destruct (i - length h)%nat; [|discriminate].
    injection Hn as <-. destruct Hin.
Qed.

Lemma forward_add_segment (h : store) (p : nat) (x : Segment) :
  forward h -> forward (Element_add p (CSeg x) h).
Proof.
  intros Hfw i n j Hn Hin. rewrite Element_add_length.
  destruct (decide (i = p)) as [->|Hne].
  - destruct (h !! p) as [m|] eqn:Em.
    + rewrite (Element_add_lookup _ _ _ _ Em) in Hn. injection Hn as <-.
      cbn in Hin. apply in_app_or in Hin.
      destruct Hin as [Hin|[Heq|[]]]; [|discriminate].
      now apply (Hfw p m j).
    + apply lookup_ge_None in Em.
      assert (is_Some (Element_add p (CSeg x) h !! p)) as Hs by eauto.
      apply lookup_lt_is_Some in Hs. rewrite Element_add_length in Hs. lia.
  - rewrite Element_add_lookup_ne in Hn by assumption.
    now apply (Hfw i n j).
Qed.

Lemma forward_add_group (h : store) (p g : nat) :
  forward h -> (p < g)%nat -> (g < length h)%nat ->
  forward (Element_add p (CGrp g) h).
Proof.
  intros Hfw Hpg Hg i n j Hn Hin. rewrite Element_add_length.
  destruct (decide (i = p)) as [->|Hne].
  - destruct (h !! p) as [m|] eqn:Em.
    + rewrite (Element_add_lookup _ _ _ _ Em) in Hn. injection Hn as <-.
      cbn in Hin. apply in_app_or in Hin.
      destruct Hin as [Hin|[Heq|[]]].
      * now apply (Hfw p m j).
      * injection Heq as <-. split; assumption.
    + apply lookup_ge_None in Em.
      assert (is_Some (Element_add p (CGrp g) h !! p)) as Hs by eauto.
      apply lookup_lt_is_Some in Hs. rewrite Element_add_length in Hs. lia.
  - rewrite Element_add_lookup_ne in Hn by assumption.
    now apply (Hfw i n j).
Qed.

(** What a new last child adds to the segments below its parent. *)
Lemma flat_add_child (h : store) (p : nat) (c : child) (n : node) :
  forward h -> forward (Element_add p c h) -> h !! p = Some n ->
  flat (Element_add p c h) p =
  flat h p ++ flat_child (Element_add p c h) c.
Proof.
  intros Hfw Hfw' Hn.
  rewrite (flat_unfold _ _ _ Hfw' (Element_add_lookup p c h n Hn)).
  rewrite (flat_unfold _ _ _ Hfw Hn). cbn [n_children].
  rewrite flat_map_app. cbn [flat_map]. rewrite app_nil_r. f_equal.
  apply flat_map_ext_In. intros [x|j] Hin; [reflexivity|]. cbn [flat_child].
  destruct (Hfw p n j Hn Hin) as [Hpj Hj].
  apply (flat_same_above h (Element_add p c h) (S p)); try assumption; try lia.
  - rewrite Element_add_length. lia.
  - intros i Hi _. apply Element_add_lookup_ne. lia.
Qed.
End Store.

Section WellFormed.
Lemma increasing_app_l (l1 l2 : list nat) :
  increasing (l1 ++ l2) -> increasing l1.
Proof.
  intros H i j p q Hij Hp Hq.
  apply (H i j); [assumption| |]; apply lookup_app_l_Some; assumption.
Qed.

Lemma increasing_snoc (l : list nat) (g : nat) :
  increasing l -> Forall (fun p => (p < g)%nat) l -> increasing (l ++ [g]).
Proof.
  intros Hinc Hall i j p q Hij Hp Hq.
  apply lookup_snoc_Some in Hp, Hq.
  destruct Hq as [[Hj Hq]|[-> <-]].
  - destruct Hp as [[Hi Hp]|[-> _]]; [|lia]. now apply (Hinc i j).
  - destruct Hp as [[Hi Hp]|[-> _]]; [|lia].
    rewrite Forall_forall in Hall. apply Hall.
    apply list_elem_of_lookup. eauto.
Qed.

(** Below the last level every object is older. *)
Lemma increasing_last (l : list nat) (t j : nat) :
  increasing (l ++ [t]) -> In j l -> (j < t)%nat.
Proof.
  intros Hinc Hin. apply list_elem_of_In, list_elem_of_lookup in Hin.
  destruct Hin as [i Hi].
  apply (Hinc i (length l)).
  - apply lookup_lt_Some in Hi. lia.
  - now apply lookup_app_l_Some.
  - now apply list_lookup_middle.
Qed.

(** Above a level every object is newer. *)
Lemma increasing_after (l r : list nat) (t j : nat) :
  increasing (l ++ t :: r) -> In j r -> (t < j)%nat.
Proof.
  intros Hinc Hin. apply list_elem_of_In, list_elem_of_lookup in Hin.
  destruct Hin as [i Hi].
  apply (Hinc (length l) (length l + S i)%nat).
  - lia.
  - now apply list_lookup_middle.
  - rewrite lookup_app_r by lia.
    replace (length l + S i - length l)%nat with (S i) by lia. exact Hi.
Qed.

Lemma wf_push (s : state) (st : structure) (name : string) :
  well_formed s ->
  well_formed
    {| sd := push (sd s) st (length (objects s));
       objects := objects s ++ [{| n_name := name; n_children := [] |}] |}.
Proof.
  intros [Hpi Hps Hb Hinc Hfw Hlr]. split; cbn.
  - rewrite !length_app. cbn. lia.
  - rewrite !length_app. cbn. lia.
  - apply Forall_app. split.
    + eapply Forall_impl; [exact Hb|]. intros p Hp. cbn in Hp.
      rewrite length_app. cbn. lia.
    + constructor; [|constructor]. rewrite length_app. cbn. lia.
  - now apply increasing_snoc.
  - now apply forward_snoc.
  - intros i n k j Hn Hk Hj.
    destruct (decide (i < length (objects s))%nat) as [Hi|Hi].
    + rewrite lookup_app_l in Hn by assumption.
      assert (In (CGrp j) (n_children n)) as Hin
          by (apply list_elem_of_In, list_elem_of_lookup; eauto).
      destruct (Hfw i n j Hn Hin) as [_ Hjlt].
      apply in_app_or in Hj. destruct Hj as [Hj|[<-|[]]]; [|lia].
      destruct (Hlr i n k j Hn Hk Hj) as [Hips Hlast].
      split; [apply in_or_app; now left|assumption].
    + rewrite lookup_app_r in Hn by lia.
      destruct (i - length (objects s))%nat; [|discriminate].
      injection Hn as <-. discriminate.
Qed.

Lemma wf_go_back (s : state) (d : search_data) :
  well_formed s -> _go_back (sd s) = Ok d -> well_formed (with_sd s d).
Proof.
  intros [Hpi Hps Hb Hinc Hfw Hlr] Hgo.
  destruct (go_back_inv _ _ Hgo) as (p & ix & st & Ep & Ei & Es).
  rewrite Ep in *. rewrite Ei in Hpi. rewrite Es in Hps.
  rewrite !length_app in Hpi, Hps. cbn in Hpi, Hps.
  split; cbn; try lia.
  - now apply Forall_app in Hb.
  - now apply increasing_app_l in Hinc.
  - assumption.
  - intros i n k j Hn Hk Hj.
    destruct (Hlr i n k j Hn Hk) as [Hi Hlast];
      [apply in_or_app; now left|].
    split; [|assumption].
    apply in_app_or in Hi. destruct Hi as [Hi|[<-|[]]]; [assumption|].
    assert (In (CGrp j) (n_children n)) as Hin
        by (apply list_elem_of_In, list_elem_of_lookup; eauto).
    destruct (Hfw p n j Hn Hin) as [Hpj _].
    pose proof (increasing_last _ _ _ Hinc Hj). lia.
Qed.
End WellFormed.

Section Attach.
Lemma get_last_inv {A : Type} (l : list A) (x : A) :
  PyList.get l (-1) = Ok x -> exists l0, l = l0 ++ [x].
Proof.
  destruct l as [|a l]; [discriminate|].
  destruct (exists_last (l := a :: l)) as (l0 & y & Heq); [discriminate|].
  rewrite Heq, get_last_snoc. intros H. injection H as <-. now exists l0.
Qed.

Lemma set_length {A : Type} (l l' : list A) (i : Z) (v : A) :
  PyList.set l i v = Ok l' -> length l' = length l.
Proof.
  unfold PyList.set. destruct (_ && _)%bool; [|discriminate].
  intros H. injection H as <-. apply length_insert.
Qed.

Lemma linked_same (h h' : store) (l : list nat) :
  (forall p, In p l -> h' !! p = h !! p) -> linked h l -> linked h' l.
Proof.
  induction l as [|p [|q r] IH]; intros Hs Hl; try exact I.
  destruct Hl as [(n & Hn & Hlast) Hl]. split.
  - exists n. split; [|assumption]. rewrite Hs; [assumption|now left].
  - apply IH; [|assumption]. intros x Hx. apply Hs. now right.
Qed.

Lemma linked_app (h : store) (l r : list nat) (t : nat) :
  linked h (l ++ [t]) -> linked h (t :: r) -> linked h (l ++ t :: r).
Proof.
  induction l as [|p [|q l] IH]; intros H1 H2; [assumption| |].
  - cbn in *. split; [apply H1|assumption].
  - destruct H1 as [Ha H1]. split; [assumption|]. now apply IH.
Qed.

Lemma linked_app_l (h : store) (l r : list nat) :
  linked h (l ++ r) -> linked h l.
Proof.
  induction l as [|p [|q l] IH]; intros H; try exact I.
  destruct H as [Ha H]. split; [assumption|]. now apply IH.
Qed.

(** The segment is added to the object of the innermost level. *)
Lemma attach_segment (s : state) (base : list nat) (t : nat)
  (ixs : list Z) (x : Segment) :
  well_formed s -> parents (sd s) = base ++ [t] ->
  length ixs = length (indexes (sd s)) ->
  let s' := {| sd := set_indexes (sd s) ixs;
               objects := Element_add t (CSeg x) (objects s) |} in
  well_formed s' /\
  same_but t (objects s) (objects s') /\
  flat (objects s') t = flat (objects s) t ++ [x] /\
  linked (objects s') [t].
Proof.
  intros [Hpi Hps Hb Hinc Hfw Hlr] Ep Hix s'.
  assert (t < length (objects s))%nat as Ht.
  { rewrite Ep in Hb. apply Forall_app in Hb. destruct Hb as [_ Hb].
    now inversion Hb. }
  destruct (lookup_lt_is_Some_2 _ _ Ht) as [n Hn].
  pose proof (forward_add_segment _ t x Hfw) as Hfw'.
  split; [split; cbn|].
  - lia.
  - assumption.
  - eapply Forall_impl; [exact Hb|]. intros p Hp. cbn in Hp.
    now rewrite Element_add_length.
  - assumption.
  - assumption.
  - intros i m k j Hm Hk Hj.
    destruct (decide (i = t)) as [->|Hne].
    + rewrite (Element_add_lookup _ _ _ _ Hn) in Hm. injection Hm as <-.
      cbn in Hk. apply lookup_snoc_Some in Hk.
      destruct Hk as [[Hklt Hk]|[_ Hk]]; [|discriminate].
      assert (In (CGrp j) (n_children n)) as Hin
          by (apply list_elem_of_In, list_elem_of_lookup; eauto).
      destruct (Hfw t n j Hn Hin) as [Htj _].
      rewrite Ep in Hj, Hinc. apply in_app_or in Hj.
      destruct Hj as [Hj|[<-|[]]]; [|lia].
      pose proof (increasing_last _ _ _ Hinc Hj). lia.
    + rewrite Element_add_lookup_ne in Hm by assumption.
      now apply (Hlr i m k j).
  - split; [apply Element_add_same_but|]. split; [|exact I].
    subst s'. cbn [objects].
    now rewrite (flat_add_child _ _ _ _ Hfw Hfw' Hn).
Qed.
End Attach.

Section AttachGroup.
(** The group that received the segment becomes the last child of the
    level that opened it. *)
Lemma attach_group (s s3 : state) (base new3 : list nat) (t : nat)
  (name : string) (ixs : list Z) (x : Segment) :
  let g := length (objects s) in
  well_formed s -> parents (sd s) = base ++ [t] ->
  well_formed s3 -> parents (sd s3) = base ++ t :: g :: new3 ->
  same_but g (objects s ++ [{| n_name := name; n_children := [] |}])
    (objects s3) ->
  flat (objects s3) g = [x] ->
  linked (objects s3) (g :: new3) ->
  length ixs = length (indexes (sd s3)) ->
  let s' := {| sd := set_indexes (sd s3) ixs;
               objects := Element_add t (CGrp g) (objects s3) |} in
  well_formed s' /\
  same_but t (objects s) (objects s') /\
  flat (objects s') t = flat (objects s) t ++ [x] /\
  linked (objects s') (t :: g :: new3).
Proof.
  intros g [Hpi Hps Hb Hinc Hfw Hlr] Ep [Hpi3 Hps3 Hb3 Hinc3 Hfw3 Hlr3] Ep3
    [Hlen3 Hsame3] Hflat Hlinked Hix s'.
  set (h := objects s) in *. set (h3 := objects s3) in *.
  rewrite length_app in Hlen3. cbn [length] in Hlen3.
  assert (t < g)%nat as Htg.
  { rewrite Ep in Hb. apply Forall_app in Hb. destruct Hb as [_ Hb].
    now inversion Hb. }
  assert (forall i, (i < g)%nat -> h3 !! i = h !! i) as Hold.
  { intros i Hi. rewrite Hsame3.
    - now apply lookup_app_l.
    - rewrite length_app. cbn. fold g. lia.
    - lia. }
  destruct (lookup_lt_is_Some_2 h t Htg) as [n Hn].
  assert (h3 !! t = Some n) as Hn3 by (rewrite Hold; assumption).
  assert (forward (Element_add t (CGrp g) h3)) as Hfw'
      by (apply forward_add_group; [assumption|assumption|lia]).
  assert (forall j, In (CGrp j) (n_children n) ->
                    ~ In j (parents (sd s3))) as Hnoref.
  { intros j Hin Hj. destruct (Hfw t n j Hn Hin) as [Htj Hjg].
    rewrite Ep3 in Hj, Hinc3. apply in_app_or in Hj.
    destruct Hj as [Hj|[<-|[<-|Hj]]]; try (fold g in Hjg; lia).
    - assert (increasing (base ++ [t])) as Hi1.
      { apply (increasing_app_l _ (g :: new3)).
        now rewrite <- app_assoc. }
      pose proof (increasing_last _ _ _ Hi1 Hj). lia.
    - change (base ++ t :: g :: new3) with (base ++ [t] ++ g :: new3) in Hinc3.
      rewrite app_assoc in Hinc3.
      pose proof (increasing_after _ _ _ _ Hinc3 Hj). fold g in Hjg. lia. }
  split; [split; cbn|].
  - lia.
  - assumption.
  - eapply Forall_impl; [exact Hb3|]. intros p Hp. cbn in Hp.
    now rewrite Element_add_length.
  - assumption.
  - assumption.
  - intros i m k j Hm Hk Hj.
    destruct (decide (i = t)) as [->|Hne].
    + rewrite (Element_add_lookup _ _ _ _ Hn3) in Hm. injection Hm as <-.
      cbn in Hk |- *. apply lookup_snoc_Some in Hk.
      destruct Hk as [[Hklt Hk]|[-> Hk]].
      * exfalso. apply (Hnoref j); [|assumption].
        apply list_elem_of_In, list_elem_of_lookup; eauto.
      * split; [|rewrite length_app; cbn; lia].
        rewrite Ep3. apply in_or_app. right. now left.
    + rewrite Element_add_lookup_ne in Hm by assumption.
      now apply (Hlr3 i m k j).
  - subst s'. cbn [objects]. fold h3.
    assert (same_but t h (Element_add t (CGrp g) h3)) as Hsb.
    { split; [rewrite Element_add_length; fold g; lia|].
      intros i Hi Hne. rewrite Element_add_lookup_ne by assumption.
      now apply Hold. }
    split; [exact Hsb|]. split.
    + rewrite (flat_add_child _ _ _ _ Hfw3 Hfw' Hn3). cbn [flat_child].
      f_equal.
      * apply (flat_same_above h h3 t); try assumption; try lia.
        intros i _ Hi. now apply Hold.
      * rewrite <- Hflat.
        apply (flat_same_above h3 (Element_add t (CGrp g) h3) g);
          try assumption; try lia.
        -- rewrite Element_add_length. lia.
        -- intros i Hi _. apply Element_add_lookup_ne. lia.
    + split.
      * exists {| n_name := n_name n; n_children := n_children n ++ [CGrp g] |}.
        split; [now apply Element_add_lookup|]. cbn. apply last_snoc.
      * apply (linked_same h3); [|assumption].
        intros p Hp. apply Element_add_lookup_ne.
        destruct Hp as [<-|Hp]; [lia|].
        change (base ++ t :: g :: new3) with (base ++ [t] ++ g :: new3) in Ep3.
        rewrite Ep3, app_assoc in Hinc3.
        pose proof (increasing_after _ _ _ _ Hinc3 Hp). lia.
Qed.
End AttachGroup.

Section ForGroups.
Variable K : core.

Lemma index_first (g : nat) (l r : list nat) :
  ~ In g l -> PyList.index Nat.eqb g (l ++ g :: r) = Ok (length l).
Proof.
  induction l as [|a l IH]; intros Hnin; cbn.
  - now rewrite Nat.eqb_refl.
  - destruct (Nat.eqb_spec g a) as [->|Hne]; [exfalso; apply Hnin; now left|].
    rewrite IH; [reflexivity|]. intros Hin. apply Hnin. now right.
Qed.

Lemma get_middle {A : Type} (l r : list A) (x : A) :
  PyList.get (l ++ x :: r) (Z.of_nat (length l)) = Ok x.
Proof.
  rewrite (PyList_get_nth _ _ x).
  - now rewrite nth_middle.
  - rewrite length_app. cbn. lia.
Qed.

Lemma flat_empty (h : store) (name : string) :
  forward h ->
  flat (h ++ [{| n_name := name; n_children := [] |}]) (length h) = [].
Proof.
  intros Hfw.
  rewrite (flat_unfold _ _ {| n_name := name; n_children := [] |});
    [reflexivity|now apply forward_snoc|now apply list_lookup_middle].
Qed.

Lemma flat_extends (h h' : store) (i : nat) :
  forward h -> extends h h' -> (i < length h)%nat -> flat h' i = flat h i.
Proof.
  intros Hfw [Hlen Hsame] Hi.
  apply (flat_same_above h h' O); try assumption; try lia.
  intros k _ Hk. now apply Hsame.
Qed.

(** The loop over the groups of a level, given that the recursive call
    behaves on a level just opened. *)
Lemma for_groups_fresh (find : state -> result (Z * state))
  (segment : Segment) :
  (forall s found s',
      well_formed s -> PyList.get (indexes (sd s)) (-1) = Ok (-1) ->
      find s = Ok (found, s') -> fresh_post segment s found s') ->
  forall (st : structure) (groups : list string) (s : state) found s' base t,
    well_formed s -> parents (sd s) = base ++ [t] ->
    for_groups K find st groups s = Ok (found, s') ->
    fresh_post segment s found s'.
Proof.
  intros Hfind st. induction groups as [|g groups IH];
    intros s found s' base t Hwf Ep H; cbn [for_groups] in H.
  - injection H as <- <-. split; [assumption|]. cbn.
    split; [reflexivity|apply extends_refl].
  - cbn [new_Group] in H. bind_inv H as r Er. destruct r as [found1 s3].
    pose proof (wf_push s (get_structure K g) g Hwf) as Hwf2.
    apply Hfind in Er; [|exact Hwf2|cbn; apply get_last_snoc].
    destruct Er as [Hwf3 Hpost].
    destruct (found1 >? -1) eqn:Ef.
    + destruct Hpost as (base' & t' & new3 & Ep2 & Ep3 & Hsb & Hflat & Hlk).
      cbn [sd objects push parents] in Ep2, Hsb, Hflat.
      rewrite Ep in Ep2. apply app_inj_tail in Ep2. destruct Ep2 as [<- <-].
      rewrite <- app_assoc in Ep3. cbn [app] in Ep3.
      rewrite flat_empty in Hflat by apply Hwf. cbn [app] in Hflat.
      assert (~ In (length (objects s)) (base ++ [t])) as Hfresh.
      { intros Hin. destruct Hwf as [_ _ Hb _ _ _]. rewrite Ep in Hb.
        rewrite Forall_forall in Hb. apply list_elem_of_In in Hin.
        specialize (Hb _ Hin). cbn in Hb. lia. }
      bind_inv H as i Ei. bind_inv H as parent Epar.
      bind_inv H as search_index Esi. bind_inv H as ixs Eix.
      injection H as <- <-.
      rewrite Ep3 in Ei.
      change (base ++ t :: length (objects s) :: new3)
        with (base ++ [t] ++ length (objects s) :: new3) in Ei.
      rewrite app_assoc, index_first in Ei by assumption.
      injection Ei as <-.
      rewrite Ep3, length_app in Epar. cbn [length] in Epar.
      replace (Z.of_nat (length base + 1) - 1) with (Z.of_nat (length base))
        in Epar by lia.
      rewrite get_middle in Epar. injection Epar as <-.
      apply set_length in Eix.
      destruct (attach_group s s3 base new3 t g ixs segment
                  Hwf Ep Hwf3 Ep3 Hsb Hflat Hlk Eix)
        as (Hwf' & Hsb' & Hflat' & Hlk').
      split; [exact Hwf'|].
      assert ((Z.of_nat search_index >? -1) = true) as -> by lia.
      exists base, t, (length (objects s) :: new3).
      split; [exact Ep|]. split; [exact Ep3|]. split; [exact Hsb'|].
      split; [exact Hflat'|exact Hlk'].
    + destruct Hpost as [Esd Hext]. cbn [sd objects] in Esd, Hext.
      bind_inv H as d Ed.
      rewrite Esd, go_back_push in Ed. injection Ed as <-.
      assert (well_formed (with_sd s3 (sd s))) as Hwf4.
      { apply wf_go_back; [assumption|]. rewrite Esd. apply go_back_push. }
      specialize (IH _ _ _ base t Hwf4 Ep H).
      destruct IH as [Hwf' Hpost'].
      assert (extends (objects s) (objects s3)) as Hext'
          by (eapply extends_trans; [apply extends_snoc|exact Hext]).
      split; [exact Hwf'|].
      destruct (found >? -1).
      * destruct Hpost' as (base' & t' & new_ps & Ep1 & Ep' & Hsb & Hflat & Hlk).
        cbn [with_sd sd objects] in Ep1, Hsb, Hflat.
        rewrite Ep in Ep1. apply app_inj_tail in Ep1. destruct Ep1 as [<- <-].
        exists base, t, new_ps. split; [assumption|]. split; [assumption|].
        split; [|split; [|assumption]].
        -- eapply same_but_trans; [|exact Hsb]. now apply extends_same_but.
        -- rewrite Hflat. f_equal. apply flat_extends; [apply Hwf|assumption|].
           destruct Hwf as [_ _ Hb _ _ _]. rewrite Ep in Hb.
           apply Forall_app in Hb. destruct Hb as [_ Hb]. now inversion Hb.
      * destruct Hpost' as [Esd' Hext2]. cbn [with_sd sd objects] in *.
        split; [assumption|]. eapply extends_trans; eassumption.
Qed.
End ForGroups.

Section Search.
Variable K : core.

(** The index returned is [-1] or the position of a slot. *)
Lemma find_group_found_ge (depth : nat) (segment : Segment) :
  forall (s s' : state) (found : Z),
    _find_group K depth segment s = Ok (found, s') -> -1 <= found.
Proof.
  induction depth as [|depth IH]; intros s s' found H; [discriminate|].
  rewrite find_group_S in H.
  bind_inv H as cur Ecur. bind_inv H as st Est.
  destruct (keys_index (seg_name segment) st) as [k|e] eqn:Ek.
  - bind_inv H as rep Erep.
    destruct ((Z.of_nat k <=? cur) && (snd rep =? 1))%bool.
    + bind_inv H as d Ed. now apply IH in H.
    + bind_inv H as ixs Eix. bind_inv H as p Ep. injection H as <- _. lia.
  - clear Ecur Est Ek. revert s H.
    induction (map slot_name (List.filter is_Group st)) as [|g gs IHg];
      intros s H; cbn [for_groups] in H.
    + injection H as <- _. lia.
    + cbn [new_Group] in H. bind_inv H as r1 E1. destruct r1 as [found1 s1].
      destruct (found1 >? -1).
      * bind_inv H as i Ei. bind_inv H as p Ep. bind_inv H as si Esi.
        bind_inv H as ixs Eix. injection H as <- _. lia.
      * bind_inv H as d Ed. now apply IHg in H.
Qed.

Lemma well_formed_top (s : state) (st : structure) :
  well_formed s -> PyList.get (structures (sd s)) (-1) = Ok st ->
  exists base t, parents (sd s) = base ++ [t].
Proof.
  intros [_ Hps _ _ _ _] Hst. apply get_last_inv in Hst.
  destruct Hst as [l0 Hst]. rewrite Hst, length_app in Hps. cbn in Hps.
  destruct (parents (sd s)) as [|a l] eqn:Ep; [cbn in Hps; lia|].
  destruct (exists_last (l := a :: l)) as (base & t & Heq); [discriminate|].
  now exists base, t.
Qed.

(** A search that starts at a level just opened. *)
Lemma find_group_fresh (depth : nat) (segment : Segment) :
  forall (s : state) (found : Z) (s' : state),
    well_formed s -> PyList.get (indexes (sd s)) (-1) = Ok (-1) ->
    _find_group K depth segment s = Ok (found, s') ->
    fresh_post segment s found s'.
Proof.
  induction depth as [|depth IH]; intros s found s' Hwf Hix H;
    [discriminate|].
  rewrite find_group_S, Hix in H. cbn [bind] in H.
  bind_inv H as st Est.
  destruct (well_formed_top s st Hwf Est) as (base & t & Ep).
  destruct (keys_index (seg_name segment) st) as [k|e] eqn:Ek.
  - bind_inv H as rep Erep.
    assert (((Z.of_nat k <=? -1) && (snd rep =? 1))%bool = false) as Hc
        by (apply andb_false_intro1; lia).
    rewrite Hc in H.
    bind_inv H as ixs Eix. bind_inv H as parent Epar.
    injection H as <- <-.
    rewrite Ep, get_last_snoc in Epar. injection Epar as <-.
    apply set_length in Eix.
    destruct (attach_segment s base t ixs segment Hwf Ep Eix)
      as (Hwf' & Hsb & Hflat & Hlk).
    split; [exact Hwf'|].
    assert ((Z.of_nat k >? -1) = true) as -> by lia.
    exists base, t, []. cbn [sd set_indexes parents].
    split; [exact Ep|]. split; [exact Ep|]. split; [exact Hsb|].
    split; [exact Hflat|exact Hlk].
  - eapply for_groups_fresh; eauto.
Qed.

(** A search that starts at any level. *)
Lemma find_group_search (depth : nat) (segment : Segment) :
  forall (s : state) (found : Z) (s' : state),
    well_formed s ->
    _find_group K depth segment s = Ok (found, s') ->
    search_post segment s found s'.
Proof.
  induction depth as [|depth IH]; intros s found s' Hwf H; [discriminate|].
  rewrite find_group_S in H.
  bind_inv H as cur Ecur. bind_inv H as st Est.
  destruct (well_formed_top s st Hwf Est) as (base & t & Ep).
  destruct (keys_index (seg_name segment) st) as [k|e] eqn:Ek.
  - bind_inv H as rep Erep.
    destruct ((Z.of_nat k <=? cur) && (snd rep =? 1))%bool.
    + bind_inv H as d Ed.
      pose proof (wf_go_back s d Hwf Ed) as Hwf1.
      destruct (go_back_inv _ _ Ed) as (p & ix & st' & Ep' & _ & _).
      apply IH in H; [|exact Hwf1]. destruct H as [Hwf' Hpost].
      split; [exact Hwf'|]. cbn [with_sd sd objects] in Hpost.
      destruct (found >? -1).
      * destruct Hpost as (base1 & t1 & popped & new_ps & E1 & E2 & Hrest).
        exists base1, t1, (popped ++ [p]), new_ps.
        split; [|split; assumption].
        rewrite Ep', E1, <- app_assoc. reflexivity.
      * destruct Hpost as (popped & E1 & Hext).
        exists (popped ++ [p]). split; [|assumption].
        rewrite Ep', E1, <- app_assoc. reflexivity.
    + bind_inv H as ixs Eix. bind_inv H as parent Epar.
      injection H as <- <-.
      rewrite Ep, get_last_snoc in Epar. injection Epar as <-.
      apply set_length in Eix.
      destruct (attach_segment s base t ixs segment Hwf Ep Eix)
        as (Hwf' & Hsb & Hflat & Hlk).
      split; [exact Hwf'|].
      assert ((Z.of_nat k >? -1) = true) as -> by lia.
      exists base, t, [], []. cbn [sd set_indexes parents].
      split; [exact Ep|]. split; [exact Ep|]. split; [exact Hsb|].
      split; [exact Hflat|exact Hlk].
  - eapply for_groups_fresh in H;
      [|intros; eapply find_group_fresh; eassumption|exact Hwf|exact Ep].
    destruct H as [Hwf' Hpost]. split; [exact Hwf'|].
    destruct (found >? -1).
    + destruct Hpost as (base1 & t1 & new_ps & E1 & E2 & Hrest).
      exists base1, t1, [], new_ps. split; [exact E1|]. split; assumption.
    + destruct Hpost as [Esd Hext]. exists []. rewrite Esd, app_nil_r.
      split; [reflexivity|assumption].
Qed.
End Search.

Section Settled.
Variable K : core.

Lemma tree_segments_flat (h : store) : tree_segments h = flat h O.
Proof. unfold tree_segments, flat. now rewrite Nat.sub_0_r. Qed.

Lemma linked_same_init (h h' : store) (l : list nat) (t : nat) :
  (forall p, In p l -> h' !! p = h !! p) ->
  linked h (l ++ [t]) -> linked h' (l ++ [t]).
Proof.
  induction l as [|p l IH]; intros Hs Hl; [exact I|].
  assert (exists q r, l ++ [t] = q :: r) as (q & r & Eq)
      by (destruct l; cbn; eauto).
  cbn [app] in Hl |- *. rewrite Eq in Hl |- *.
  destruct Hl as [(n & Hn & Hlast) Hl].
  split.
  - exists n. split; [|assumption]. rewrite Hs; [assumption|now left].
  - rewrite <- Eq in Hl |- *. apply IH; [|exact Hl].
    intros x Hx. apply Hs. now right.
Qed.

(** A change below the object of a level shows at the end of every level
    under it. *)
Lemma flat_chain (h h' : store) (ps : list nat) (t : nat)
  (x : list Segment) :
  forward h -> forward h' -> last_refs h ps -> same_but t h h' ->
  In t ps ->
  flat h' t = flat h t ++ x ->
  forall l,
    linked h (l ++ [t]) ->
    (forall p, In p l -> In p ps /\ p <> t /\ (p < length h)%nat) ->
    flat h' (hd t l) = flat h (hd t l) ++ x.
Proof.
  intros Hfw Hfw' Hlr [Hlen Hsame] Htps Hflat.
  induction l as [|p l IH]; intros Hl Hin; [exact Hflat|].
  cbn [hd].
  assert (l ++ [t] = hd t l :: tl (l ++ [t])) as Eq by (destruct l; reflexivity).
  cbn [app] in Hl. rewrite Eq in Hl.
  destruct Hl as [(n & Hn & Hlast) Hl]. rewrite <- Eq in Hl.
  specialize (IH Hl (fun q Hq => Hin q (or_intror Hq))).
  destruct (Hin p (or_introl eq_refl)) as (Hpps & Hpt & Hplt).
  apply last_Some in Hlast. destruct Hlast as [cs Hcs].
  assert (h' !! p = Some n) as Hn' by (rewrite Hsame; assumption).
  rewrite (flat_unfold h' p n Hfw' Hn'), (flat_unfold h p n Hfw Hn), Hcs.
  rewrite !flat_map_app. cbn [flat_map flat_child]. rewrite !app_nil_r.
  rewrite IH, app_assoc. f_equal. f_equal.
  apply flat_map_ext_In. intros [y|j] Hj; [reflexivity|]. cbn [flat_child].
  apply list_elem_of_In, list_elem_of_lookup in Hj. destruct Hj as [k Hk].
  assert (n_children n !! k = Some (CGrp j)) as Hk'
      by (rewrite Hcs; now apply lookup_app_l_Some).
  assert (In (CGrp j) (n_children n)) as Hjin
      by (apply list_elem_of_In, list_elem_of_lookup; eauto).
  destruct (Hfw p n j Hn Hjin) as [_ Hjlt].
  assert (~ In j ps) as Hjps.
  { intros Hj. destruct (Hlr p n k j Hn Hk' Hj) as [_ Hpos].
    apply lookup_lt_Some in Hk. rewrite Hcs, length_app in Hpos.
    cbn in Hpos. lia. }
  apply (flat_same_off h h' ps); try assumption.
  intros i Hi Hni. apply Hsame; [assumption|]. intros ->. contradiction.
Qed.
End Settled.

(** ** Every segment is held by one object *)

Section Held.
Variable K : core.

Lemma held_app (h1 h2 : store) : held (h1 ++ h2) = held h1 ++ held h2.
Proof. apply flat_map_app. Qed.

Lemma held_add_group (p g : nat) (h : store) :
  held (Element_add p (CGrp g) h) = held h.
Proof.
  unfold Element_add. revert p. induction h as [|n h IH]; intros p;
    [reflexivity|].
  destruct p as [|p]; cbn.
  - unfold held_by at 1. cbn. rewrite flat_map_app. cbn.
    now rewrite app_nil_r.
  - f_equal. apply IH.
Qed.

Lemma held_add_segment (p : nat) (x : Segment) (h : store) :
  (p < length h)%nat -> held (Element_add p (CSeg x) h) ≡ₚ x :: held h.
Proof.
  unfold Element_add. revert p. induction h as [|n h IH]; intros p Hp;
    [cbn in Hp; lia|].
  destruct p as [|p]; cbn.
  - unfold held_by at 1. cbn. rewrite flat_map_app. cbn.
    fold (held_by n). fold (held h).
    rewrite <- app_assoc. cbn.
    symmetry. apply Permutation_middle.
  - fold (held h). rewrite IH by (cbn in Hp; lia).
    symmetry. apply Permutation_middle.
Qed.

Lemma in_store_go_back (s : state) (d : search_data) :
  in_store s -> _go_back (sd s) = Ok d -> in_store (with_sd s d).
Proof.
  intros [Hpos Hb] Hgo.
  destruct (go_back_inv _ _ Hgo) as (p & ix & st & Ep & _ & _).
  rewrite Ep in Hb. apply Forall_app in Hb. split; [assumption|apply Hb].
Qed.

(** A search adds the segment to one object when it finds a place and to
    none when it finds no place. *)
Lemma find_group_held (segment : Segment) :
  forall (depth : nat) (s : state) (found : Z) (s' : state),
    in_store s ->
    _find_group K depth segment s = Ok (found, s') ->
    in_store s' /\
    held (objects s') ≡ₚ
      (if found >? -1 then segment :: held (objects s) else held (objects s)).
Proof.
  induction depth as [|depth IH]; intros s found s' Hin H; [discriminate|].
  rewrite find_group_S in H.
  bind_inv H as cur Ecur. bind_inv H as st Est.
  destruct (keys_index (seg_name segment) st) as [k|e] eqn:Ek.
  - bind_inv H as rep Erep.
    destruct ((Z.of_nat k <=? cur) && (snd rep =? 1))%bool.
    + bind_inv H as d Ed.
      apply (IH _ _ _ (in_store_go_back _ _ Hin Ed)) in H. exact H.
    + bind_inv H as ixs Eix. bind_inv H as parent Epar.
      injection H as <- <-. destruct Hin as [Hpos Hb].
      apply get_last_inv in Epar. destruct Epar as [l0 Epar].
      assert (parent < length (objects s))%nat as Hp.
      { rewrite Epar in Hb. apply Forall_app in Hb. destruct Hb as [_ Hb].
        now inversion Hb. }
      split.
      * split; cbn; rewrite Element_add_length; assumption.
      * assert ((Z.of_nat k >? -1) = true) as -> by lia.
        cbn [objects]. now apply held_add_segment.
  - clear Ecur Est Ek. revert s Hin H.
    induction (map slot_name (List.filter is_Group st)) as [|g gs IHg];
      intros s Hin H; cbn [for_groups] in H.
    + injection H as <- <-. split; [assumption|reflexivity].
    + cbn [new_Group] in H. bind_inv H as r1 E1. destruct r1 as [found1 s1].
      assert (in_store
                {| sd := push (sd s) (get_structure K g) (length (objects s));
                   objects := objects s ++ [{| n_name := g; n_children := [] |}] |})
        as Hin1.
      { destruct Hin as [Hpos Hb]. split; cbn; rewrite length_app; cbn; [lia|].
        apply Forall_app. split.
        - eapply Forall_impl; [exact Hb|]. intros p Hp. cbn in Hp. lia.
        - constructor; [lia|constructor]. }
      apply (IH _ _ _ Hin1) in E1. destruct E1 as [Hin2 Hheld].
      cbn [objects] in Hheld. rewrite held_app in Hheld.
      cbn in Hheld. rewrite app_nil_r in Hheld.
      destruct (found1 >? -1).
      * bind_inv H as i Ei. bind_inv H as p Ep. bind_inv H as si Esi.
        bind_inv H as ixs Eix. injection H as <- <-.
        assert ((Z.of_nat si >? -1) = true) as -> by lia.
        cbn [objects sd set_indexes parents]. rewrite held_add_group.
        split; [|exact Hheld].
        destruct Hin2 as [Hpos Hb]. split; cbn; rewrite Element_add_length;
          assumption.
      * bind_inv H as d Ed.
        apply (IHg _ (in_store_go_back _ _ Hin2 Ed)) in H.
        destruct H as [Hin' Hheld']. split; [exact Hin'|].
        rewrite Hheld'. cbn [with_sd objects].
        destruct (found >? -1); now rewrite Hheld.
Qed.

Lemma search_levels_held (depth : nat) (c : Segment) :
  forall (n : nat) (s : state) (found : Z) (s' : state),
    in_store s ->
    search_levels K depth c n s = Ok (found, s') ->
    in_store s' /\
    held (objects s') ≡ₚ
      (if found =? -1 then held (objects s) else c :: held (objects s)).
Proof.
  induction n as [|n IH]; intros s found s' Hin H; cbn [search_levels] in H.
  - injection H as <- <-. split; [assumption|reflexivity].
  - bind_inv H as r Er. destruct r as [found1 s1].
    pose proof (find_group_found_ge K _ _ _ _ _ Er) as Hge.
    apply (find_group_held _ _ _ _ _ Hin) in Er. destruct Er as [Hin1 Hheld].
    destruct (found1 =? -1) eqn:Ef.
    + bind_inv H as d Ed.
      assert ((found1 >? -1) = false) as Hf by lia. rewrite Hf in Hheld.
      apply (IH _ _ _ (in_store_go_back _ _ Hin1 Ed)) in H.
      destruct H as [Hin' Hheld']. split; [exact Hin'|].
      rewrite Hheld'. cbn [with_sd objects].
      destruct (found =? -1); now rewrite Hheld.
    + injection H as <- <-. rewrite Ef.
      assert ((found1 >? -1) = true) as Hf by lia. rewrite Hf in Hheld.
      split; assumption.
Qed.

Lemma place_segments_held (depth : nat) :
  forall (children : list Segment) (s s' : state),
    in_store s -> place_segments K depth children s = Ok s' ->
    held (objects s') ≡ₚ held (objects s) ++ children.
Proof.
  induction children as [|c children IH]; intros s s' Hin H;
    cbn [place_segments] in H.
  - injection H as <-. now rewrite app_nil_r.
  - bind_inv H as s1 E1. unfold place_segment in E1.
    bind_inv E1 as r Er. destruct r as [found s2].
    apply (search_levels_held _ _ _ _ _ _ Hin) in Er.
    destruct Er as [Hin2 Hheld].
    assert (in_store s1 /\ held (objects s1) ≡ₚ c :: held (objects s))
      as [Hin1 Hheld1].
    { destruct (found =? -1).
      - injection E1 as <-. destruct Hin2 as [Hpos Hb]. split.
        + split; cbn; rewrite Element_add_length; assumption.
        + cbn [objects]. rewrite held_add_segment by assumption.
          now rewrite Hheld.
      - injection E1 as <-. split; assumption. }
    apply (IH _ _ Hin1) in H. rewrite H, Hheld1.
    cbn [app]. apply Permutation_middle.
Qed.
End Held.

Section Placement.
Variable K : core.

Lemma find_group_settled (depth : nat) (c : Segment) (s s' : state)
  (found : Z) (placed : list Segment) :
  settled s placed ->
  _find_group K depth c s = Ok (found, s') ->
  if found >? -1 then settled s' (placed ++ [c]) else settled s' placed.
Proof.
  intros (Hwf & Hlk & Hhd & Hpos & Htree) H.
  apply find_group_search in H; [|exact Hwf]. destruct H as [Hwf' Hpost].
  pose proof Hwf as [_ _ Hb Hinc Hfw Hlr].
  destruct (found >? -1).
  - destruct Hpost as (base & t & popped & new_ps & E1 & E2 & Hsb & Hflat & Hlk').
    rewrite E1 in Hb, Hinc, Hlk, Hhd.
    assert (base ++ t :: popped = (base ++ [t]) ++ popped) as Eassoc
        by (now rewrite <- app_assoc).
    assert (increasing (base ++ [t])) as Hinc1
        by (apply (increasing_app_l _ popped); now rewrite <- Eassoc).
    assert (forall p, In p base ->
                      In p (parents (sd s)) /\ p <> t /\
                      (p < length (objects s))%nat) as Hbase.
    { intros p Hp. split; [rewrite E1; apply in_or_app; now left|].
      pose proof (increasing_last _ _ _ Hinc1 Hp). split; [lia|].
      apply Forall_app in Hb. destruct Hb as [Hb _].
      rewrite Forall_forall in Hb. apply Hb. now apply list_elem_of_In. }
    assert (linked (objects s) (base ++ [t])) as Hlk1
        by (apply (linked_app_l _ _ popped); now rewrite <- Eassoc).
    assert (hd t base = O) as Hroot.
    { apply Hhd. destruct base; reflexivity. }
    split; [exact Hwf'|]. split; [|split; [|split]].
    + rewrite E2. apply linked_app; [|exact Hlk'].
      apply (linked_same_init (objects s)); [|exact Hlk1].
      intros p Hp. destruct (Hbase p Hp) as (_ & Hne & Hlt).
      now apply Hsb.
    + rewrite E2. intros p Hp. apply Hhd.
      destruct base; exact Hp.
    + destruct Hsb as [Hlen _]. lia.
    + rewrite tree_segments_flat, <- Htree, tree_segments_flat, <- Hroot.
      apply (flat_chain (objects s) (objects s') (parents (sd s)));
        try assumption.
      * apply Hwf'.
      * rewrite E1. apply in_or_app. right. now left.
  - destruct Hpost as (popped & E1 & Hext).
    rewrite E1 in Hlk, Hhd.
    split; [exact Hwf'|]. split; [|split; [|split]].
    + apply (linked_same (objects s)); [|now apply linked_app_l in Hlk].
      intros p Hp. apply Hext.
      rewrite E1 in Hb. apply Forall_app in Hb. destruct Hb as [Hb _].
      rewrite Forall_forall in Hb. apply Hb. now apply list_elem_of_In.
    + intros p Hp. apply Hhd. destruct (parents (sd s')); [discriminate|exact Hp].
    + destruct Hext as [Hlen _]. lia.
    + rewrite tree_segments_flat, <- Htree, tree_segments_flat.
      now apply flat_extends.
Qed.

Lemma go_back_settled (s : state) (d : search_data) (placed : list Segment) :
  settled s placed -> _go_back (sd s) = Ok d -> settled (with_sd s d) placed.
Proof.
  intros (Hwf & Hlk & Hhd & Hpos & Htree) Hgo.
  split; [now apply wf_go_back|].
  destruct (go_back_inv _ _ Hgo) as (p & ix & st & Ep & _ & _).
  cbn [with_sd sd objects]. rewrite Ep in Hlk, Hhd.
  split; [now apply linked_app_l in Hlk|]. split; [|split; assumption].
  intros q Hq. apply Hhd. destruct (parents d); [discriminate|exact Hq].
Qed.

Lemma search_levels_settled (depth : nat) (c : Segment)
  (placed : list Segment) :
  forall (n : nat) (s s' : state) (found : Z),
    settled s placed ->
    search_levels K depth c n s = Ok (found, s') ->
    if found =? -1 then settled s' placed else settled s' (placed ++ [c]).
Proof.
  induction n as [|n IH]; intros s s' found Hs H; cbn [search_levels] in H.
  - injection H as <- <-. exact Hs.
  - bind_inv H as r Er. destruct r as [found1 s1].
    pose proof (find_group_found_ge K _ _ _ _ _ Er) as Hge.
    apply (find_group_settled _ _ _ _ _ placed Hs) in Er.
    destruct (found1 =? -1) eqn:Ef.
    + bind_inv H as d Ed.
      assert ((found1 >? -1) = false) as Hf by lia. rewrite Hf in Er.
      apply (IH _ _ _ (go_back_settled _ _ _ Er Ed) H).
    + injection H as <- <-. rewrite Ef.
      assert ((found1 >? -1) = true) as Hf by lia. now rewrite Hf in Er.
Qed.

Lemma message_add_settled (s : state) (c : Segment) (placed : list Segment) :
  settled s placed -> parents (sd s) = [] ->
  settled {| sd := sd s; objects := Element_add O (CSeg c) (objects s) |}
    (placed ++ [c]).
Proof.
  intros (Hwf & Hlk & Hhd & Hpos & Htree) Hnil.
  destruct Hwf as [Hpi Hps Hb Hinc Hfw Hlr].
  pose proof (forward_add_segment _ O c Hfw) as Hfw'.
  destruct (lookup_lt_is_Some_2 _ _ Hpos) as [n Hn].
  split; [split; cbn; try assumption|].
  - rewrite Hnil. constructor.
  - intros i m k j _ _ Hj. rewrite Hnil in Hj. destruct Hj.
  - cbn [sd objects]. rewrite Hnil. split; [exact I|].
    split; [discriminate|]. split; [now rewrite Element_add_length|].
    rewrite tree_segments_flat, <- Htree, tree_segments_flat.
    now rewrite (flat_add_child _ _ _ _ Hfw Hfw' Hn).
Qed.

Lemma place_segment_settled (depth : nat) (c : Segment) (s s' : state)
  (placed : list Segment) :
  settled s placed -> place_segment K depth c s = Ok s' ->
  settled s' (placed ++ [c]).
Proof.
  intros Hs H. unfold place_segment in H.
  bind_inv H as r Er. destruct r as [found s1].
  pose proof (search_levels_settled _ _ _ _ _ _ _ Hs Er) as Hs1.
  destruct (found =? -1) eqn:Ef.
  - injection H as <-. apply message_add_settled; [exact Hs1|].
    assert (found = -1) as -> by lia.
    apply search_levels_failed in Er.
    destruct Hs1 as ([_ Hps _ _ _ _] & _).
    destruct (parents (sd s1)); [reflexivity|]. cbn in Hps. lia.
  - now injection H as <-.
Qed.

Lemma place_segments_settled (depth : nat) :
  forall (children : list Segment) (s s' : state) (placed : list Segment),
    settled s placed -> place_segments K depth children s = Ok s' ->
    settled s' (placed ++ children).
Proof.
  induction children as [|c children IH]; intros s s' placed Hs H;
    cbn [place_segments] in H.
  - injection H as <-. now rewrite app_nil_r.
  - bind_inv H as s1 E1.
    apply (place_segment_settled _ _ _ _ _ Hs) in E1.
    apply (IH _ _ _ E1) in H. now rewrite <- app_assoc in H.
Qed.

Lemma initial_state_settled (message : string) :
  settled (initial_state K message) [].
Proof.
  split; [split; cbn; try reflexivity|].
  - repeat constructor.
  - intros i j p q Hij Hp Hq. destruct i, j; try lia; discriminate.
  - intros i n j Hn Hin. destruct i; [|discriminate].
    injection Hn as <-. destruct Hin.
  - intros i n k j Hn Hk _. destruct i; [|discriminate].
    injection Hn as <-. discriminate.
  - cbn. split; [exact I|]. split; [|split; [lia|reflexivity]].
    intros p Hp. now injection Hp as <-.
Qed.

(** C2: when [create_groups] returns, the segments of the tree under the
    message, read in document order, are the segments it was given, in
    the same order, so each of them is in the tree once; and the segments
    held as children by all the objects it created, in the tree or not,
    are those segments, each as many times as it was given: none is held
    by two parents, twice or by none. *)
Theorem every_segment_once (depth : nat) (message : string)
  (children : list Segment) (s' : state) :
  create_groups K depth message children = Ok s' ->
  tree_segments (objects s') = children /\
  held (objects s') ≡ₚ children.
Proof.
  intros H. unfold create_groups in H. split.
  - apply (place_segments_settled _ _ _ _ [] (initial_state_settled message))
      in H.
    apply H.
  - apply place_segments_held in H; [exact H|].
    split; cbn; [lia|repeat constructor].
Qed.
End Placement.

(** ** A slot that admits one segment is met again *)

Section Retry.
Variable K : core.

(** The search of a level just opened that holds the name nowhere: it
    reports [-1], leaves the search data as they were and only creates
    groups that stay empty. *)
Lemma find_group_misses (segment : Segment) :
  forall (depth : nat) (s : state) (current_index : Z) (st : structure),
    misses K depth (seg_name segment) st = true ->
    PyList.get (indexes (sd s)) (-1) = Ok current_index ->
    PyList.get (structures (sd s)) (-1) = Ok st ->
    exists junk,
      childless junk /\
      _find_group K depth segment s =
      Ok (-1, {| sd := sd s; objects := objects s ++ junk |}).
Proof.
  induction depth as [|depth IH]; intros s cur st Hm Hix Hst;
    [discriminate|].
  cbn [misses] in Hm. rewrite find_group_S, Hix, Hst. cbn [bind].
  destruct (keys_index (seg_name segment) st) as [k|e]; [discriminate|].
  fold (group_names st). clear Hix Hst.
  revert s. induction (group_names st) as [|g gs IHg]; intros s.
  - exists []. split; [constructor|]. cbn. rewrite app_nil_r.
    now destruct s.
  - cbn [forallb] in Hm. apply andb_prop in Hm. destruct Hm as [Hg Hgs].
    cbn [for_groups new_Group].
    destruct (IH {| sd := push (sd s) (get_structure K g) (length (objects s));
                    objects := objects s ++ [{| n_name := g; n_children := [] |}] |}
                (-1) (get_structure K g) Hg)
      as (junk1 & Hj1 & ->); [apply get_last_snoc|apply get_last_snoc|].
    cbn [bind sd objects]. change (-1 >? -1) with false. cbv iota.
    rewrite go_back_push. cbn [bind]. unfold with_sd. cbn [sd objects].
    destruct (IHg Hgs {| sd := sd s;
                         objects := (objects s ++ [{| n_name := g; n_children := [] |}])
                                    ++ junk1 |})
      as (junk2 & Hj2 & ->).
    exists ({| n_name := g; n_children := [] |} :: junk1 ++ junk2).
    split.
    + constructor; [reflexivity|]. apply Forall_app. now split.
    + cbn [sd objects]. now rewrite <- !app_assoc.
Qed.

(** The groups tried in vain before the loop of [_find_group] reaches the
    one that takes the segment. *)
Lemma for_groups_misses (segment : Segment) (depth : nat) (st : structure) :
  forall (before rest : list string) (s : state),
    forallb (fun g => misses K depth (seg_name segment) (get_structure K g))
      before = true ->
    exists junk,
      childless junk /\
      for_groups K (_find_group K depth segment) st (before ++ rest) s =
      for_groups K (_find_group K depth segment) st rest
        {| sd := sd s; objects := objects s ++ junk |}.
Proof.
  induction before as [|g before IH]; intros rest s Hm.
  - exists []. split; [constructor|]. rewrite app_nil_r. now destruct s.
  - cbn [forallb] in Hm. apply andb_prop in Hm. destruct Hm as [Hg Hgs].
    cbn [app for_groups new_Group].
    destruct (find_group_misses segment depth
                {| sd := push (sd s) (get_structure K g) (length (objects s));
                   objects := objects s ++ [{| n_name := g; n_children := [] |}] |}
                (-1) (get_structure K g) Hg)
      as (junk1 & Hj1 & ->); [apply get_last_snoc|apply get_last_snoc|].
    cbn [bind sd objects]. change (-1 >? -1) with false. cbv iota.
    rewrite go_back_push. cbn [bind]. unfold with_sd. cbn [sd objects].
    destruct (IH rest {| sd := sd s;
                         objects := (objects s ++ [{| n_name := g; n_children := [] |}])
                                    ++ junk1 |} Hgs)
      as (junk2 & Hj2 & ->).
    exists ({| n_name := g; n_children := [] |} :: junk1 ++ junk2).
    split.
    + constructor; [reflexivity|]. apply Forall_app. now split.
    + cbn [sd objects]. now rewrite <- !app_assoc.
Qed.
End Retry.

Section RetryAbove.
Variable K : core.

Lemma index_In (x : string) (l : list string) :
  In x l -> exists i, PyList.index String.eqb x l = Ok i.
Proof.
  induction l as [|a l IH]; intros Hin; [destruct Hin|]. cbn.
  destruct (String.eqb x a) eqn:E; [now exists O|].
  destruct Hin as [->|Hin]; [now rewrite String.eqb_refl in E|].
  destruct (IH Hin) as [i ->]. now exists (S i).
Qed.

Lemma group_name_key (g : string) (st : structure) :
  In g (group_names st) -> exists i, keys_index g st = Ok i.
Proof.
  intros Hin. apply index_In. unfold group_names in Hin.
  apply in_map_iff in Hin. destruct Hin as (x & <- & Hx).
  apply filter_In in Hx. apply in_map. apply Hx.
Qed.

Lemma set_middle {A : Type} (l r : list A) (x v : A) :
  PyList.set (l ++ x :: r) (Z.of_nat (length l)) v = Ok (l ++ v :: r).
Proof.
  unfold PyList.set. rewrite length_app. cbn [length].
  assert ((Z.of_nat (length l) <? 0) = false) as -> by lia.
  assert (((0 <=? Z.of_nat (length l))
           && (Z.of_nat (length l) <? Z.of_nat (length l + S (length r))))%bool
          = true) as -> by lia.
  rewrite Nat2Z.id.
  replace (length l) with (length l + 0)%nat at 1 by lia.
  now rewrite insert_app_r.
Qed.

Lemma go_back_snoc (ps : list nat) (ixs : list Z) (sts : list structure)
  (p : nat) (ix : Z) (st : structure) :
  _go_back {| parents := ps ++ [p]; indexes := ixs ++ [ix];
              structures := sts ++ [st] |} =
  Ok {| parents := ps; indexes := ixs; structures := sts |}.
Proof. unfold _go_back. cbn. now rewrite !pop_snoc. Qed.

Lemma Element_add_new (h : store) (name : string) (c : child) :
  Element_add (length h) c (h ++ [{| n_name := name; n_children := [] |}]) =
  h ++ [{| n_name := name; n_children := [c] |}].
Proof.
  unfold Element_add.
  replace (length h) with (length h + 0)%nat at 1 by lia.
  now rewrite alter_app_r.
Qed.
End RetryAbove.

Section RetryTheorem.
Variable K : core.

(** The search of the level below, once the innermost level was dropped:
    the groups before [g] are tried in vain and a new group [g] takes the
    segment and becomes the last child of that level. *)
Lemma find_group_new_instance (depth : nat) (segment : Segment) (h : store)
  (ps : list nat) (ixs : list Z) (sts : list structure) (p : nat) (ip : Z)
  (stP : structure) (before after : list string) (g : string)
  (k' : nat) (rep' : Z * Z) (e : exn) :
  keys_index (seg_name segment) stP = Raise e ->
  group_names stP = before ++ g :: after ->
  forallb (fun g' => misses K (S depth) (seg_name segment) (get_structure K g'))
    before = true ->
  keys_index (seg_name segment) (get_structure K g) = Ok k' ->
  repetitions (seg_name segment) (get_structure K g) = Ok rep' ->
  length ixs = length ps ->
  Forall (fun q => (q < length h)%nat) (ps ++ [p]) ->
  exists junk ig,
    childless junk /\ keys_index g stP = Ok ig /\
    _find_group K (S (S depth)) segment
      {| sd := {| parents := ps ++ [p]; indexes := ixs ++ [ip];
                  structures := sts ++ [stP] |};
         objects := h |} =
    Ok (Z.of_nat ig,
        {| sd := {| parents := ps ++ [p; length h + length junk]%nat;
                    indexes := ixs ++ [Z.of_nat ig; Z.of_nat k'];
                    structures := sts ++ [stP; get_structure K g] |};
           objects :=
             Element_add p (CGrp (length h + length junk))
               (h ++ junk ++ [{| n_name := g; n_children := [CSeg segment] |}]) |}).
Proof.
  intros HkP Hgroups Hbefore Hk' Hrep' Hlen Hbound.
  destruct (group_name_key g stP) as [ig Hig].
  { rewrite Hgroups. apply in_or_app. right. now left. }
  rewrite find_group_S. cbn [sd indexes structures].
  rewrite !get_last_snoc. cbn [bind]. rewrite HkP.
  fold (group_names stP). rewrite Hgroups.
  destruct (for_groups_misses K segment (S depth) stP before (g :: after)
              {| sd := {| parents := ps ++ [p]; indexes := ixs ++ [ip];
                          structures := sts ++ [stP] |};
                 objects := h |} Hbefore) as (junk & Hjunk & ->).
  exists junk, ig. split; [exact Hjunk|]. split; [exact Hig|].
  cbn [sd objects for_groups new_Group].
  set (G' := length (h ++ junk)).
  rewrite (find_group_found K depth segment _ (-1) (get_structure K g) k' rep');
    try assumption; try (cbn; apply get_last_snoc).
  assert (((Z.of_nat k' <=? -1) && (snd rep' =? 1))%bool = false) as ->
      by (apply andb_false_intro1; lia).
  unfold push. cbn [sd objects indexes parents structures].
  rewrite set_last_snoc. cbn [bind]. unfold set_indexes.
  cbn [sd objects indexes parents structures].
  rewrite get_last_snoc. cbn [bind].
  assert ((Z.of_nat k' >? -1) = true) as -> by lia.
  unfold push, set_indexes. cbn [sd objects parents indexes structures].
  assert (~ In G' (ps ++ [p])) as Hfresh.
  { intros Hin. rewrite Forall_forall in Hbound.
    apply list_elem_of_In in Hin. specialize (Hbound _ Hin).
    cbn in Hbound. unfold G' in Hbound. rewrite length_app in Hbound. lia. }
  rewrite index_first by assumption. cbn [bind].
  rewrite length_app. cbn [length].
  replace (Z.of_nat (length ps + 1) - 1) with (Z.of_nat (length ps)) by lia.
  rewrite <- app_assoc. cbn [app]. rewrite get_middle. cbn [bind].
  rewrite Hig. cbn [bind].
  rewrite <- Hlen, <- app_assoc. cbn [app]. rewrite set_middle. cbn [bind].
  unfold G'. rewrite Element_add_new, length_app, <- !app_assoc.
  reflexivity.
Qed.
End RetryTheorem.

Section RetryClaim.
Variable K : core.

(** C1, as the code has it. A segment whose name is the slot [k] of the
    innermost structure, with [k] not above the last index matched there
    and a slot that admits one occurrence, makes [_find_group] drop that
    level and search again one level up. There, when the structure has no
    slot of that name and the first of its groups that can take the
    segment is [g], holding the name as a slot of its own, a new group
    [g] is created, receives the segment and becomes the last child of
    the object of that level; the objects that existed, the group left
    among them, keep their children. *)
Theorem retry_one_level_up :
  (forall depth segment s current_index structure k rep,
      PyList.get (indexes (sd s)) (-1) = Ok current_index ->
      PyList.get (structures (sd s)) (-1) = Ok structure ->
      keys_index (seg_name segment) structure = Ok k ->
      repetitions (seg_name segment) structure = Ok rep ->
      Z.of_nat k <= current_index -> snd rep = 1 ->
      _find_group K (S depth) segment s =
      let* d := _go_back (sd s) in
      _find_group K depth segment (with_sd s d)) /\
  (forall depth segment (h : store) ps ixs sts p G ip current_index
          stP stG k rep before g after k' rep' e,
      keys_index (seg_name segment) stG = Ok k ->
      repetitions (seg_name segment) stG = Ok rep ->
      Z.of_nat k <= current_index -> snd rep = 1 ->
      keys_index (seg_name segment) stP = Raise e ->
      group_names stP = before ++ g :: after ->
      forallb (fun g' => misses K (S depth) (seg_name segment)
                           (get_structure K g')) before = true ->
      keys_index (seg_name segment) (get_structure K g) = Ok k' ->
      repetitions (seg_name segment) (get_structure K g) = Ok rep' ->
      length ixs = length ps ->
      Forall (fun q => (q < length h)%nat) (ps ++ [p; G]) ->
      exists junk ig,
        childless junk /\ keys_index g stP = Ok ig /\
        (G < length h + length junk)%nat /\
        _find_group K (S (S (S depth))) segment
          {| sd := {| parents := ps ++ [p; G];
                      indexes := ixs ++ [ip; current_index];
                      structures := sts ++ [stP; stG] |};
             objects := h |} =
        Ok (Z.of_nat ig,
            {| sd := {| parents := ps ++ [p; length h + length junk]%nat;
                        indexes := ixs ++ [Z.of_nat ig; Z.of_nat k'];
                        structures := sts ++ [stP; get_structure K g] |};
               objects :=
                 Element_add p (CGrp (length h + length junk))
                   (h ++ junk ++
                    [{| n_name := g; n_children := [CSeg segment] |}]) |})).
Proof.
  split.
  - intros depth segment s cur st k rep Hix Hst Hk Hrep Hle Hmax.
    rewrite (find_group_found K depth segment s cur st k rep) by assumption.
    assert (((Z.of_nat k <=? cur) && (snd rep =? 1))%bool = true) as ->
        by (apply andb_true_intro; split; lia).
    reflexivity.
  - intros depth segment h ps ixs sts p G ip cur stP stG k rep before g
      after k' rep' e Hk Hrep Hle Hmax HkP Hgroups Hbefore Hk' Hrep' Hlen
      Hbound.
    assert (ps ++ [p; G] = (ps ++ [p]) ++ [G]) as E1
        by (now rewrite <- app_assoc).
    assert (ixs ++ [ip; cur] = (ixs ++ [ip]) ++ [cur]) as E2
        by (now rewrite <- app_assoc).
    assert (sts ++ [stP; stG] = (sts ++ [stP]) ++ [stG]) as E3
        by (now rewrite <- app_assoc).
    rewrite E1 in Hbound |- *. rewrite E2, E3.
    apply Forall_app in Hbound. destruct Hbound as [Hbound HG].
    destruct (find_group_new_instance K depth segment h ps ixs sts p ip stP
                before after g k' rep' e HkP Hgroups Hbefore Hk' Hrep' Hlen
                Hbound) as (junk & ig & Hjunk & Hig & Hfind).
    exists junk, ig. split; [exact Hjunk|]. split; [exact Hig|].
    split; [inversion HG; subst; cbn in *; lia|].
    rewrite (find_group_found K (S (S depth)) segment _ cur stG k rep);
      try assumption; try (cbn; apply get_last_snoc).
    assert (((Z.of_nat k <=? cur) && (snd rep =? 1))%bool = true) as ->
        by (apply andb_true_intro; split; lia).
    cbn [sd]. rewrite go_back_snoc. cbn [bind]. unfold with_sd.
    cbn [objects]. exact Hfind.
Qed.
End RetryClaim.

(** With the example reference, the message ORU has the groups PATIENT and
    ORDER, in this order, and both hold PID. After MSH, OBR and PID the
    innermost level is an ORDER group whose slot PID (index 1, one
    occurrence) was the last matched; the next PID drops that level and is
    placed in a new PATIENT group, not in a new ORDER group. *)
Lemma second_PID_leaves_ORDER :
  exists s found s' G G',
    create_groups K0 5 "ORU"
      [example_segment "MSH"; example_segment "OBR"; example_segment "PID"] = Ok s /\
    last (parents (sd s)) = Some G /\
    n_name <$> objects s !! G = Some "ORDER" /\
    last (structures (sd s)) = Some (get_structure K0 "ORDER") /\
    last (indexes (sd s)) = Some 1 /\
    keys_index "PID" (get_structure K0 "ORDER") = Ok 1%nat /\
    repetitions "PID" (get_structure K0 "ORDER") = Ok (0, 1) /\
    repetitions "ORDER" (get_structure K0 "ORU") = Ok (0, -1) /\
    _find_group K0 5 (example_segment "PID") s = Ok (found, s') /\
    last (parents (sd s')) = Some G' /\
    objects s' !! G' =
      Some {| n_name := "PATIENT";
              n_children := [CSeg (example_segment "PID")] |} /\
    objects s' !! G = objects s !! G.
Proof.
  do 5 eexists. split; [vm_compute; reflexivity|].
  repeat split; try (vm_compute; reflexivity).
Qed.

Lemma after_MSH_PID_reached :
  create_groups K0 5 "ORU" [example_segment "MSH"; example_segment "PID"] =
  Ok after_MSH_PID.
Proof. vm_compute. reflexivity. Qed.

Lemma retry_one_level_up_witness :
  _find_group K0 3 (example_segment "PID") after_MSH_PID =
  (let* d := _go_back (sd after_MSH_PID) in
   _find_group K0 2 (example_segment "PID") (with_sd after_MSH_PID d)) /\
  exists junk ig,
    childless junk /\ keys_index "PATIENT" (get_structure K0 "ORU") = Ok ig /\
    (1 < 2 + length junk)%nat /\
    _find_group K0 3 (example_segment "PID") after_MSH_PID =
    Ok (Z.of_nat ig,
        {| sd := {| parents := [O; (2 + length junk)%nat];
                    indexes := [Z.of_nat ig; 0];
                    structures := [get_structure K0 "ORU";
                                   get_structure K0 "PATIENT"] |};
           objects :=
             Element_add O (CGrp (2 + length junk))
               (objects after_MSH_PID ++ junk ++
                [{| n_name := "PATIENT";
                    n_children := [CSeg (example_segment "PID")] |}]) |}).
Proof.
  destruct (retry_one_level_up K0) as [Hretry Hnew]. split.
  - apply (Hretry 2%nat (example_segment "PID") after_MSH_PID 0
             (get_structure K0 "PATIENT") O (1, 1)); try reflexivity;
      try (cbn; lia).
  - apply (Hnew O (example_segment "PID") (objects after_MSH_PID) [] [] []
             O 1%nat 1 0 (get_structure K0 "ORU") (get_structure K0 "PATIENT")
             O (1, 1) [] "PATIENT" ["ORDER"] O (1, 1) ValueError);
      try reflexivity; try (cbn; lia); try (repeat constructor; cbn; lia).
Defined.

Lemma every_segment_once_witness :
  exists s',
    create_groups K0 5 "ORU"
      [example_segment "MSH"; example_segment "PID"; example_segment "PV1";
       example_segment "PID"; example_segment "ZZZ"] = Ok s' /\
    tree_segments (objects s') =
      [example_segment "MSH"; example_segment "PID"; example_segment "PV1";
       example_segment "PID"; example_segment "ZZZ"] /\
    held (objects s') ≡ₚ
      [example_segment "MSH"; example_segment "PID"; example_segment "PV1";
       example_segment "PID"; example_segment "ZZZ"].
Proof.
  eexists. split; [vm_compute; reflexivity|].
  apply (every_segment_once K0 5 "ORU"). vm_compute. reflexivity.
Defined.

(** * Further properties *)

(** ** Sub-components *)

Section SubComponents.
Variable K : core.
Variable E : encoding_chars.

Lemma filter_all {A : Type} (l : list A) :
List.filter (fun _ => true) l = l.
Proof. apply forallb_filter_id, forallb_forall. reflexivity. Qed.

(** X1: for a base datatype, and for no datatype at all, every piece of the
  text split on the sub-component separator gives a sub-component, blank
  pieces included: when [parse_subcomponents] returns there is one
  sub-component for each piece, in the order of the pieces, each what the
  constructor makes of its piece without a name and with the datatype
  given (ST when none), and all are unnamed. *)
Theorem subcomponents_keep_every_piece (text : string)
(component_datatype : option string) (vl : validation_level)
(subcomponents : list SubComponent) :
(is_base_datatype K component_datatype || is_None component_datatype)%bool
= true ->
parse_subcomponents K E text component_datatype vl = Ok subcomponents ->
Forall2
  (fun piece s =>
     new_SubComponent K None
       (Some (match component_datatype with
              | Some d => d
              | None => "ST"
              end)) piece vl = Ok s /\
     sc_name s = None)
  (PyStr.split (SUBCOMPONENT E) text) subcomponents.
Proof.
intros Hb H. unfold parse_subcomponents in H.
apply (for_enumerate_kept _ (fun _ _ => true)
         (fun _ piece =>
            new_SubComponent K None
              (Some (match component_datatype with
                     | Some d => d
                     | None => "ST"
                     end)) piece vl)) in H.
- rewrite filter_all in H.
  apply (Forall2_imap_snd _ _ _ (fun j => (0 + j)%nat)).
  eapply Forall2_impl; [exact H|]. cbn beta. intros ix s Hs.
  split; [exact Hs|]. now apply new_SubComponent_inv in Hs.
- intros i x. cbn beta. rewrite Hb. cbn [is_None]. rewrite orb_true_r.
  unfold parse_subcomponent. now destruct component_datatype.
Qed.

(** X2: for a datatype [d] that is not a base datatype the blank pieces
  give nothing and the others give, in their order, one sub-component
  each: when [parse_subcomponents] returns, the sub-component of the piece
  at position [i] (from 0, blank pieces counted) is what the constructor
  makes of that piece under the name [d_(i+1)], without a datatype given,
  and carries that name. *)
Theorem subcomponents_drop_blank_pieces (text d : string)
(vl : validation_level) (subcomponents : list SubComponent) :
is_base_datatype K (Some d) = false ->
parse_subcomponents K E text (Some d) vl = Ok subcomponents ->
Forall2
  (fun ip s =>
     new_SubComponent K (Some (PyStr.format_name d (S (fst ip)))) None
       (snd ip) vl = Ok s /\
     sc_name s = Some (PyStr.format_name d (S (fst ip))))
  (List.filter (fun ip => negb (blank (snd ip)))
     (imap pair (PyStr.split (SUBCOMPONENT E) text)))
  subcomponents.
Proof.
intros Hb H. unfold parse_subcomponents in H.
apply (for_enumerate_kept _ (fun _ piece => negb (blank piece))
         (fun i piece =>
            new_SubComponent K (Some (PyStr.format_name d (S i))) None
              piece vl)) in H.
- rewrite imap_pair_0 in H.
  eapply Forall2_impl; [exact H|]. cbn beta. intros ix s Hs.
  split; [exact Hs|]. now apply new_SubComponent_inv in Hs.
- intros i x. cbn beta. rewrite Hb. cbn [is_None orb].
  rewrite orb_false_r. unfold blank. rewrite negb_involutive.
  reflexivity.
Qed.
End SubComponents.
(** ** Repetitions of a field *)

Section Repetitions.
Variable K : core.
Variable E : encoding_chars.

(** The name of the field [parse_field] returns is fixed by its [try]
  block: the name given when the constructor takes it or [force_varies]
  is set, no name otherwise. The text plays no part. *)
Lemma parse_field_name (text : string) (name : option string)
(vl : validation_level) (fv : bool) (f : Field) :
parse_field K E text name vl None fv = Ok f ->
f_name f =
match new_Field K name vl None with
| Raise InvalidName => if fv then name else None
| _ => name
end.
Proof.
rewrite parse_field_unfold. intros H. bind_inv H as f0 Ef.
apply parse_field_from_name in H. rewrite H.
destruct (new_Field K name vl None) as [f1|e] eqn:E1.
- injection Ef as <-. now apply new_Field_inv in E1.
- destruct e; try discriminate.
  destruct fv; now apply new_Field_inv in Ef.
Qed.

(** X5: a slot that is not blank and is not MSH_2 gives one field for each
  piece of the slot split on the repetition separator, in the order of the
  pieces, each decoded from its own piece with the name of the slot; all
  these fields carry the same name, the name of the slot or none. *)
Theorem repetitions_are_siblings (prefix : string) (vl : validation_level)
(fv : bool) (index : nat) (field : string) (out : list Field) :
let name := PyStr.format_name prefix (S index) in
blank field = false ->
String.eqb name "MSH_2" = false ->
parse_fields_slot K E (Some prefix) vl fv index field = Ok out ->
Forall2 (fun rep f => parse_field K E rep (Some name) vl None fv = Ok f)
  (PyStr.split (REPETITION E) field) out /\
exists shared,
  (shared = Some name \/ shared = None) /\
  Forall (fun f => f_name f = shared) out.
Proof.
intros name Hb Hn H. unfold parse_fields_slot in H. fold name in H.
unfold blank in Hb. apply negb_false_iff in Hb. rewrite Hb in H.
cbn [orb opt_eqb] in H. rewrite Hn in H.
apply for_each_parse_field in H. split; [exact H|].
exists (match new_Field K (Some name) vl None with
        | Raise InvalidName => if fv then Some name else None
        | _ => Some name
        end).
split.
- destruct (new_Field K (Some name) vl None) as [f|e]; [now left|].
  destruct e; try (now left). destruct fv; auto.
- induction H as [|rep f reps fs Hf _ IH]; constructor; [|exact IH].
  now apply parse_field_name in Hf.
Qed.
End Repetitions.

(** ** The segments of a text *)

Section Segments.
Variable K : core.
Variable E : encoding_chars.
Import PyStr.

Lemma split_app_sep (sep : ascii) (s : string) :
split sep (s ++ String sep EmptyString) = split sep s ++ [EmptyString].
Proof.
induction s as [|c s IH].
- cbn. now rewrite Ascii.eqb_refl.
- cbn [append]. rewrite !split_cons, IH.
  destruct (Ascii.eqb c sep); [reflexivity|].
  pose proof (split_not_nil sep s) as Hne.
  destruct (split sep s); [congruence|reflexivity].
Qed.

Lemma parse_segment_name (text : string) (vl : validation_level)
(segment : Segment) :
parse_segment K E text vl = Ok segment ->
seg_name segment = PyStrSlice.take 3 text.
Proof.
unfold parse_segment. intros H. bind_inv H as a Ea.
bind_inv H as children Ech. now injection H as <-.
Qed.

Lemma for_each_parse_segment (vl : validation_level) :
forall (pieces : list string) (i : nat) (out : list Segment),
  for_enumerate
    (fun _ s => let* segment := parse_segment K E (strip s) vl in
                Ok [segment])
    i pieces = Ok out ->
  Forall2 (fun s segment => parse_segment K E (strip s) vl = Ok segment)
    pieces out.
Proof.
induction pieces as [|p pieces IH]; intros i out H; cbn [for_enumerate] in H.
- injection H as <-. constructor.
- bind_inv H as o Eo. bind_inv Eo as sg Es. injection Eo as <-.
  bind_inv H as rest Er. injection H as <-.
  constructor; [exact Es|]. eapply IH, Er.
Qed.

(** X6: when [parse_segments] returns, it has one segment for each
  non-empty piece of the text between segment separators, in the order of
  the pieces: each is what [parse_segment] makes of its stripped piece,
  and is named by the first three characters of it. A piece that is
  empty gives no segment. *)
Theorem segments_follow_pieces (text : string) (vl : validation_level)
(segments : list Segment) :
parse_segments K E text vl = Ok segments ->
Forall2 (fun s segment => parse_segment K E (strip s) vl = Ok segment)
  (segment_pieces E text) segments /\
map seg_name segments =
  map (fun s => PyStrSlice.take 3 (strip s)) (segment_pieces E text).
Proof.
intros H. unfold parse_segments, for_each in H.
apply for_each_parse_segment in H. fold (segment_pieces E text) in H.
split; [exact H|].
induction H as [|s sg ss sgs Hs _ IH]; [reflexivity|].
cbn [map]. f_equal; [|exact IH]. now apply parse_segment_name in Hs.
Qed.

(** X7: a segment separator at the end of the text changes nothing:
  [parse_segments] gives the same result, segments or exception, with and
  without it. *)
Theorem trailing_separator_ignored (text : string) (vl : validation_level) :
parse_segments K E (text ++ String (SEGMENT E) EmptyString) vl =
parse_segments K E text vl.
Proof.
unfold parse_segments. rewrite split_app_sep, List.filter_app.
cbn [List.filter len String.length Z.of_nat Z.gtb Z.compare].
now rewrite app_nil_r.
Qed.
End Segments.

(** ** The message structure, the version and the errors of
    [get_message_info] *)

Section MessageInfoMore.
Import PyStr.

(** The regular expression in terms of the first four characters. *)
Lemma match_MSH_spec (a b c d : ascii) (rest : string) :
match_MSH (String a (String b (String c (String d rest)))) =
if (Ascii.eqb a "M" && Ascii.eqb b "S" && Ascii.eqb c "H"
    && negb (isspace d))%bool
then Some d else None.
Proof.
destruct (Ascii.eqb_spec a "M") as [->|Ha].
- destruct (Ascii.eqb_spec b "S") as [->|Hb].
  + destruct (Ascii.eqb_spec c "H") as [->|Hc].
    * cbn. now destruct (isspace d).
    * cbn [andb]. unfold match_MSH.
      destruct c as [[] [] [] [] [] [] [] []]; try reflexivity; congruence.
  + cbn [andb]. unfold match_MSH.
    destruct b as [[] [] [] [] [] [] [] []]; try reflexivity; congruence.
- cbn [andb]. unfold match_MSH.
  destruct a as [[] [] [] [] [] [] [] []]; try reflexivity; congruence.
Qed.

Lemma match_MSH_short (s : string) :
(String.length s < 4)%nat -> match_MSH s = None.
Proof.
destruct s as [|a [|b [|c [|d r]]]]; cbn [String.length]; try lia; intros _.
- reflexivity.
- unfold match_MSH. destruct a as [[] [] [] [] [] [] [] []]; reflexivity.
- unfold match_MSH. destruct a as [[] [] [] [] [] [] [] []]; try reflexivity;
    destruct b as [[] [] [] [] [] [] [] []]; reflexivity.
- unfold match_MSH. destruct a as [[] [] [] [] [] [] [] []]; try reflexivity;
    destruct b as [[] [] [] [] [] [] [] []]; try reflexivity;
    destruct c as [[] [] [] [] [] [] [] []]; reflexivity.
Qed.

Lemma before_idem (sep : ascii) (s : string) :
before sep (before sep s) = before sep s.
Proof.
induction s as [|c s IH]; [reflexivity|]. cbn.
destruct (Ascii.eqb c sep) eqn:Ec; [reflexivity|]. cbn. now rewrite Ec, IH.
Qed.

Lemma match_MSH_before (content : string) :
match_MSH (before CR content) = match_MSH content.
Proof.
destruct content as [|a [|b [|c [|d r]]]].
- reflexivity.
- rewrite !match_MSH_short; [reflexivity|cbn; lia|].
  cbn. destruct (Ascii.eqb a CR); cbn; lia.
- rewrite !match_MSH_short; [reflexivity|cbn; lia|].
  cbn. destruct (Ascii.eqb a CR); [cbn; lia|].
  destruct (Ascii.eqb b CR); cbn; lia.
- rewrite !match_MSH_short; [reflexivity|cbn; lia|].
  cbn. destruct (Ascii.eqb a CR); [cbn; lia|].
  destruct (Ascii.eqb b CR); [cbn; lia|].
  destruct (Ascii.eqb c CR); cbn; lia.
- rewrite match_MSH_spec. cbn [before].
  destruct (Ascii.eqb_spec a CR) as [->|Ha]; [reflexivity|].
  destruct (Ascii.eqb_spec b CR) as [->|Hb].
  { rewrite match_MSH_short by (cbn; lia). cbn.
    now rewrite andb_false_r. }
  destruct (Ascii.eqb_spec c CR) as [->|Hc].
  { rewrite match_MSH_short by (cbn; lia). cbn.
    now rewrite andb_false_r. }
  destruct (Ascii.eqb_spec d CR) as [->|Hd].
  { rewrite match_MSH_short by (cbn; lia). rewrite isspace_CR.
    cbn. now rewrite andb_false_r. }
  now rewrite match_MSH_spec.
Qed.

(** X8: [get_message_info] reads the first segment only: the text after
  the first carriage return has no part in its result. *)
Theorem message_info_of_first_segment (content : string) :
get_message_info (before CR content) = get_message_info content.
Proof.
unfold get_message_info. now rewrite match_MSH_before, before_idem.
Qed.

(** X9: [get_message_info] raises nothing but [ParserError] and
  [InvalidEncodingChars], however short the control segment is; and it
  raises [ParserError] exactly when the text does not start with MSH
  followed by a character that is not a space character. *)
Theorem message_info_errors (content : string) :
(forall e, get_message_info content = Raise e ->
           e = ParserError "Invalid message" \/
           exists msg, e = InvalidEncodingChars msg) /\
((exists msg, get_message_info content = Raise (ParserError msg)) <->
 forall f rest,
   content = String "M" (String "S" (String "H" (String f rest))) ->
   isspace f = true).
Proof.
destruct (match_MSH content) as [f|] eqn:Hm.
- destruct (get_message_info_matched content f Hm) as [Hgood Hbad].
  assert (forall e, get_message_info content = Raise e ->
                    exists msg, e = InvalidEncodingChars msg) as Hraise.
  { intros e He.
    destruct (classic_four (chars (MSH_2 content f))) as [Hyes|Hno].
    - destruct (Hgood Hyes) as (? & ? & ? & ? & ? & ? & _ & Heq).
      rewrite Heq in He. discriminate.
    - destruct (Hbad Hno) as [msg Heq]. rewrite Heq in He.
      injection He as <-. now exists msg. }
  split; [intros e He; right; now apply Hraise|]. split.
  + intros [msg He]. apply Hraise in He. destruct He as [? He].
    discriminate.
  + intros Hall. destruct (match_MSH_inv _ _ Hm) as [Hsp [rest ->]].
    rewrite (Hall f rest eq_refl) in Hsp. discriminate.
- assert (get_message_info content = Raise (ParserError "Invalid message"))
    as Heq by (unfold get_message_info; now rewrite Hm).
  split; [intros e He; left; rewrite Heq in He; now injection He as <-|].
  split; [|intros _; eexists; exact Heq].
  intros _ f rest ->. rewrite match_MSH_spec in Hm. cbn in Hm.
  now destruct (isspace f).
Qed.
End MessageInfoMore.

Section MessageInfoMeta.
Import PyStr.

Lemma PyList_get_lookup {A : Type} (l : list A) (i : nat) :
PyList.get l (Z.of_nat i) =
match l !! i with
| Some x => Ok x
| None => Raise IndexError
end.
Proof.
unfold PyList.get.
assert ((Z.of_nat i <? 0) = false) as -> by lia. rewrite Nat2Z.id.
destruct (l !! i) as [x|] eqn:El.
- apply lookup_lt_Some in El.
  assert (((0 <=? Z.of_nat i) && (Z.of_nat i <? Z.of_nat (length l)))%bool
          = true) as -> by lia.
  reflexivity.
- now destruct (_ && _)%bool.
Qed.

Lemma chars_of_chars (l : list ascii) : chars (of_chars l) = l.
Proof. apply list_ascii_of_string_of_list_ascii. Qed.

Lemma chars_lstrip (p : ascii -> bool) (s : string) (c : ascii) :
In c (chars (lstrip_by p s)) -> In c (chars s).
Proof.
induction s as [|a s IH]; [tauto|]. cbn [lstrip_by].
destruct (p a); [|tauto]. intros H. right. now apply IH.
Qed.

Lemma chars_strip (p : ascii -> bool) (s : string) (c : ascii) :
In c (chars (strip_by p s)) -> In c (chars s).
Proof.
unfold strip_by, rstrip_by. rewrite chars_of_chars. intros H.
apply in_rev, chars_lstrip in H. rewrite chars_of_chars in H.
apply in_rev in H. now apply chars_lstrip in H.
Qed.

Lemma chars_split (sep : ascii) (s x : string) (c : ascii) :
In x (split sep s) -> In c (chars x) -> In c (chars s).
Proof.
revert x. induction s as [|a s IH]; intros x Hx Hc.
- destruct Hx as [<-|[]]. exact Hc.
- rewrite split_cons in Hx. pose proof (split_not_nil sep s) as Hne.
  destruct (Ascii.eqb a sep).
  + destruct Hx as [<-|Hx]; [destruct Hc|]. right. now apply (IH x).
  + destruct (split sep s) as [|y ys]; [congruence|]. cbn [hd tl] in Hx.
    destruct Hx as [<-|Hx].
    * destruct Hc as [<-|Hc]; [now left|]. right.
      apply (IH y); [now left|exact Hc].
    * right. apply (IH x); [now right|exact Hc].
Qed.

Lemma before_no_sep (sep : ascii) (s : string) :
~ In sep (chars (before sep s)).
Proof.
induction s as [|a s IH]; [tauto|]. cbn [before].
destruct (Ascii.eqb_spec a sep) as [->|Ha]; [tauto|].
intros [H|H]; [congruence|contradiction].
Qed.

Lemma get_message_info_Ok_meta (content : string) (E : encoding_chars)
(ms v : option string) :
get_message_info content = Ok (E, ms, v) ->
ms = message_structure_of (MSH_fields content (FIELD E)) (COMPONENT E) /\
v = version_of (MSH_fields content (FIELD E)) (COMPONENT E).
Proof.
intros HOk.
destruct (get_message_info_Ok_inv _ _ _ _ HOk) as (Hm & Hc & _).
unfold get_message_info in HOk. rewrite Hm in HOk.
fold (MSH_fields content (FIELD E)) in HOk.
set (fields := MSH_fields content (FIELD E)) in *.
assert (PyList.get fields 1 = Ok (MSH_2 content (FIELD E))) as H1.
{ apply (PyList_get_nth fields 1 EmptyString).
  now apply MSH_fields_length. }
rewrite H1 in HOk. cbn [bind] in HOk.
destruct (len _ >? distinct _); [discriminate|].
rewrite Hc in HOk.
assert (forall (l : list string) (i : nat),
           PyList.get l (Z.of_nat i) =
           match l !! i with Some x => Ok x | None => Raise IndexError end)
  as Hget by (intros; apply PyList_get_lookup).
pose proof (fun l => Hget l 8%nat) as H8.
pose proof (fun l => Hget l 11%nat) as H11.
pose proof (fun l => Hget l 2%nat) as H2.
pose proof (fun l => Hget l 1%nat) as H1'.
pose proof (fun l => Hget l 0%nat) as H0.
cbn [Z.of_nat Pos.of_succ_nat Pos.succ] in H8, H11, H2, H1', H0.
cbn [COMPONENT] in HOk.
rewrite H8, H11 in HOk.
unfold message_structure_of, version_of. fold fields.
destruct (fields !! 8%nat) as [f9|]; destruct (fields !! 11%nat) as [f12|];
  rewrite ?H2, ?H1', ?H0 in HOk; injection HOk as _ <- <-;
  try (pose proof (split_not_nil (COMPONENT E) (strip f12)) as Hne12);
  try (destruct (split (COMPONENT E) (strip f12)) as [|a12 l12];
       [congruence|]);
  try (destruct (split (COMPONENT E) (strip f9)) as [|a [|b [|c l]]]);
  split; reflexivity.
Qed.

(** X10: on success the message structure is the third component of MSH.9
  when it has one, else its first two components joined with an
  underscore, and none when MSH.9 is missing or has one component; the
  version is the first component of MSH.12 and none when the control
  segment has fewer than twelve fields. A version that is returned holds
  no field separator, no component separator and no carriage return. *)
Theorem message_info_metadata (content : string) (E : encoding_chars)
(ms v : option string) :
get_message_info content = Ok (E, ms, v) ->
let fields := MSH_fields content (FIELD E) in
ms = message_structure_of fields (COMPONENT E) /\
v = version_of fields (COMPONENT E) /\
((length fields < 12)%nat -> v = None) /\
forall x, v = Some x ->
          ~ In (FIELD E) (chars x) /\ ~ In (COMPONENT E) (chars x) /\
          ~ In CR (chars x).
Proof.
intros HOk fields.
destruct (get_message_info_Ok_meta _ _ _ _ HOk) as [Hms Hv].
fold fields in Hms, Hv. split; [exact Hms|]. split; [exact Hv|]. split.
- intros Hlen. rewrite Hv. unfold version_of.
  destruct (fields !! 11%nat) eqn:El; [|reflexivity].
  apply lookup_lt_Some in El. lia.
- intros x Hx. rewrite Hv in Hx. unfold version_of in Hx.
  destruct (fields !! 11%nat) as [f|] eqn:El; [|discriminate].
  injection Hx as <-.
  pose proof (split_not_nil (COMPONENT E) (strip f)) as Hne.
  assert (In (hd EmptyString (split (COMPONENT E) (strip f)))
            (split (COMPONENT E) (strip f))) as Hhd
      by (destruct (split (COMPONENT E) (strip f)); [congruence|now left]).
  assert (In f fields) as Hf
      by (apply list_elem_of_In, list_elem_of_lookup; eauto).
  split; [|split].
  + intros Hin. apply (chars_split _ _ _ _ Hhd), chars_strip in Hin.
    now apply (split_no_sep _ _ _ Hf).
  + now apply (split_no_sep _ _ _ Hhd).
  + intros Hin. apply (chars_split _ _ _ _ Hhd), chars_strip in Hin.
    apply (chars_split _ _ _ _ Hf) in Hin.
    now apply before_no_sep in Hin.
Qed.
End MessageInfoMeta.

(** ** The control segment, extracted and decoded *)

Section ControlSegment.
Variable K : core.
Import PyStr.

Lemma lstrip_by_none (p : ascii -> bool) (s : string) :
(forall c, In c (chars s) -> p c = false) -> lstrip_by p s = s.
Proof.
destruct s as [|a s]; [reflexivity|]. intros H. cbn.
now rewrite (H a (or_introl eq_refl)).
Qed.

Lemma strip_by_none (p : ascii -> bool) (s : string) :
(forall c, In c (chars s) -> p c = false) -> strip_by p s = s.
Proof.
intros H. unfold strip_by, rstrip_by. rewrite (lstrip_by_none p s H).
rewrite lstrip_by_none.
- rewrite chars_of_chars, rev_involutive.
  apply string_of_list_ascii_of_string.
- intros c Hc. rewrite chars_of_chars in Hc. apply in_rev in Hc.
  now apply H.
Qed.

(** MSH.2 of a text the regular expression matches: when it has four
  characters, the field separator is none of M, S and H and MSH.2 is the
  text between the first two field separators. *)
Lemma MSH_2_shape (f : ascii) (rest : string) :
isspace f = false ->
let content := String "M" (String "S" (String "H" (String f rest))) in
length (chars (MSH_2 content f)) = 4%nat ->
before CR content =
  String "M" (String "S" (String "H" (String f (before CR rest)))) /\
MSH_2 content f = hd EmptyString (split f (before CR rest)).
Proof.
intros Hsp content. unfold MSH_2, MSH_fields, content.
assert (Ascii.eqb f CR = false) as Hf.
{ destruct (Ascii.eqb_spec f CR) as [->|]; [|reflexivity].
  rewrite isspace_CR in Hsp. discriminate. }
rewrite !before_cons.
change (Ascii.eqb "M" CR) with false. change (Ascii.eqb "S" CR) with false.
change (Ascii.eqb "H" CR) with false. cbn iota. rewrite Hf.
set (X := before CR rest).
rewrite (split_cons f "M").
destruct (Ascii.eqb_spec "M" f) as [<-|HM].
{ rewrite nth_1_cons, !hd_split_cons. simpl. discriminate. }
rewrite nth_1_cons.
rewrite (split_cons f "S").
destruct (Ascii.eqb_spec "S" f) as [<-|HS].
{ cbn [tl]. rewrite !hd_split_cons. simpl. discriminate. }
cbn [tl].
rewrite (split_cons f "H").
destruct (Ascii.eqb_spec "H" f) as [<-|HH].
{ cbn [tl]. rewrite split_cons. simpl. discriminate. }
cbn [tl]. rewrite (split_cons f f), Ascii.eqb_refl. cbn [tl hd].
intros _. split; reflexivity.
Qed.

(** X11: the control segment decodes to what [get_message_info] extracted
  from it. For a text [get_message_info] accepts, whose MSH.2 is not
  blank, [parse_segment] on the first segment with the encoding
  characters extracted returns, when it returns, a segment named MSH
  whose first field holds the field separator and whose second field
  holds the component, repetition, escape and sub-component characters,
  in this order, each as a single leaf: one component with one
  sub-component made of that text, which is the ST leaf holding it for
  classes that build ST leaves as they are asked to. *)
Theorem control_segment_agrees (content : string) (E : encoding_chars)
(ms v : option string) (vl : validation_level) (segment : Segment) :
get_message_info content = Ok (E, ms, v) ->
blank (MSH_2 content (FIELD E)) = false ->
parse_segment K E (before CR content) vl = Ok segment ->
seg_name segment = "MSH" /\
exists f1 f2 rest,
  seg_children segment = f1 :: f2 :: rest /\
  single_leaf K (String (FIELD E) EmptyString) f1 /\
  single_leaf K
    (of_chars [COMPONENT E; REPETITION E; ESCAPE E; SUBCOMPONENT E]) f2.
Proof.
intros HOk Hnb Hseg.
destruct (get_message_info_Ok_inv _ _ _ _ HOk) as (Hm & Hc & _).
destruct (match_MSH_inv _ _ Hm) as [Hsp [rest ->]].
destruct (MSH_2_shape (FIELD E) rest Hsp) as [Hbefore H2];
  [now rewrite Hc|].
rewrite Hbefore in Hseg. unfold parse_segment in Hseg.
cbn [PyStrSlice.take PyStrSlice.drop String.eqb Ascii.eqb Bool.eqb negb]
  in Hseg.
bind_inv Hseg as a Ea. bind_inv Hseg as children Ech.
injection Hseg as <-. cbn [seg_name seg_children].
split; [reflexivity|].
unfold parse_fields in Ech.
assert (Ascii.eqb (FIELD E) CR = false) as Hf.
{ destruct (Ascii.eqb_spec (FIELD E) CR) as [Heq|]; [|reflexivity].
  rewrite Heq, isspace_CR in Hsp. discriminate. }
unfold strip_cr in Ech. rewrite strip_by_none in Ech.
2:{ intros c [<-|Hin]; [now rewrite Ascii.eqb_sym|].
    destruct (Ascii.eqb_spec CR c) as [<-|]; [|reflexivity].
    now apply before_no_sep in Hin. }
rewrite split_cons, Ascii.eqb_refl in Ech.
pose proof (split_not_nil (FIELD E) (before CR rest)) as Hne.
destruct (split (FIELD E) (before CR rest)) as [|s2 more] eqn:Esplit;
  [congruence|].
cbn [hd] in H2. rewrite H2 in Hnb, Hc.
unfold blank in Hnb. apply negb_false_iff in Hnb.
cbn [for_enumerate] in Ech.
unfold parse_fields_slot at 1 in Ech.
change (truthy (strip EmptyString)) with false in Ech.
change (format_name "MSH" 1) with "MSH_1" in Ech.
cbn [is_None orb opt_eqb String.eqb Ascii.eqb Bool.eqb] in Ech.
bind_inv Ech as o1 E1. bind_inv E1 as f1 Hf1. injection E1 as <-.
unfold parse_fields_slot at 1 in Ech. rewrite Hnb in Ech.
change (format_name "MSH" 2) with "MSH_2" in Ech.
cbn [is_None orb opt_eqb String.eqb Ascii.eqb Bool.eqb] in Ech.
bind_inv Ech as tl0 E2. bind_inv E2 as o2 E3. bind_inv E3 as f2 Hf2.
injection E3 as <-. bind_inv E2 as others Er. injection E2 as <-.
injection Ech as <-.
exists f1, f2, others. split; [reflexivity|]. split.
- eapply parse_field_control; [|exact Hf1]. now left.
- replace (of_chars [COMPONENT E; REPETITION E; ESCAPE E; SUBCOMPONENT E])
    with s2.
  + eapply parse_field_control; [|exact Hf2]. now right.
  + rewrite <- Hc. unfold of_chars, chars.
    now rewrite string_of_list_ascii_of_string.
Qed.
End ControlSegment.

(** ** What the group search raises *)

Section Raises.
Variable K : core.

Lemma keys_index_repetitions (name : string) (st : structure) (k : nat) :
keys_index name st = Ok k -> exists rep, repetitions name st = Ok rep.
Proof.
unfold keys_index, repetitions. revert k.
induction st as [|x st IH]; intros k H; [discriminate|].
cbn in H |- *. rewrite String.eqb_sym.
destruct (String.eqb name (slot_name x)); [eauto|].
bind_inv H as i Ei. exact (IH i eq_refl).
Qed.

Lemma get_raises {A : Type} (l : list A) (i : Z) (e : exn) :
PyList.get l i = Raise e -> e = IndexError.
Proof.
unfold PyList.get. destruct (_ && _)%bool; [|congruence].
destruct (l !! _); congruence.
Qed.

Lemma go_back_raises (d : search_data) (e : exn) :
_go_back d = Raise e -> e = IndexError.
Proof.
unfold _go_back, PyList.pop.
destruct (parents d); [cbn; congruence|].
destruct (structures d); [cbn; congruence|].
destruct (indexes d); cbn; congruence.
Qed.

Lemma go_back_Ok (s : state) (base : list nat) (t : nat) :
well_formed s -> parents (sd s) = base ++ [t] ->
exists d, _go_back (sd s) = Ok d.
Proof.
intros [Hpi Hps _ _ _ _] Ep. rewrite Ep, length_app in Hpi, Hps.
cbn in Hpi, Hps. unfold _go_back, PyList.pop. rewrite Ep.
destruct (base ++ [t]) eqn:El; [now destruct base|].
destruct (structures (sd s)); [cbn in Hps; lia|].
destruct (indexes (sd s)); [cbn in Hpi; lia|].
cbn. eauto.
Qed.

Lemma set_Ok {A : Type} (l : list A) (i : nat) (v : A) :
(i < length l)%nat -> exists l', PyList.set l (Z.of_nat i) v = Ok l'.
Proof.
intros Hi. unfold PyList.set.
assert ((Z.of_nat i <? 0) = false) as -> by lia.
assert (((0 <=? Z.of_nat i) && (Z.of_nat i <? Z.of_nat (length l)))%bool
        = true) as -> by lia.
eauto.
Qed.

(** After its [try] found the slot, [_find_group] at the innermost level
  goes on without an exception when that level exists. *)
Lemma attach_Ok (s : state) (base : list nat) (t : nat) (k : nat) :
well_formed s -> parents (sd s) = base ++ [t] ->
exists ixs,
  PyList.set (indexes (sd s)) (-1) (Z.of_nat k) = Ok ixs /\
  PyList.get (parents (sd s)) (-1) = Ok t.
Proof.
intros [Hpi _ _ _ _ _] Ep. rewrite Ep. rewrite Ep, length_app in Hpi.
cbn in Hpi.
destruct (indexes (sd s)) as [|a l] eqn:Ei; [cbn in Hpi; lia|].
destruct (exists_last (l := a :: l)) as (l0 & y & ->); [discriminate|].
rewrite set_last_snoc, get_last_snoc. eauto.
Qed.

(** The loop over the groups raises only what the recursive call raises. *)
Lemma for_groups_raises (find : state -> result (Z * state))
(segment : Segment) :
(forall s found s',
    well_formed s -> PyList.get (indexes (sd s)) (-1) = Ok (-1) ->
    find s = Ok (found, s') -> fresh_post segment s found s') ->
(forall s e,
    well_formed s -> PyList.get (indexes (sd s)) (-1) = Ok (-1) ->
    find s = Raise e -> e = RecursionError) ->
forall (st : structure) (groups : list string) (s : state) base t e,
  (forall g, In g groups -> exists i, keys_index g st = Ok i) ->
  well_formed s -> parents (sd s) = base ++ [t] ->
  for_groups K find st groups s = Raise e -> e = RecursionError.
Proof.
intros Hfind Hraise st. induction groups as [|g groups IH];
  intros s base t e Hkeys Hwf Ep H; cbn [for_groups] in H; [discriminate|].
cbn [new_Group] in H.
pose proof (wf_push s (get_structure K g) g Hwf) as Hwf2.
match type of H with
| bind ?r _ = _ => destruct r as [[found1 s3]|e1] eqn:Er
end; cbn [bind] in H.
2:{ injection H as <-. eapply Hraise; [exact Hwf2| |exact Er].
    cbn. apply get_last_snoc. }
pose proof Er as Er'.
apply Hfind in Er; [|exact Hwf2|cbn; apply get_last_snoc].
destruct Er as [Hwf3 Hpost].
destruct (found1 >? -1) eqn:Ef.
- exfalso.
  destruct Hpost as (base' & t' & new3 & Ep2 & Ep3 & _).
  cbn [sd objects push parents] in Ep2.
  rewrite Ep in Ep2. apply app_inj_tail in Ep2. destruct Ep2 as [<- <-].
  rewrite <- app_assoc in Ep3. cbn [app] in Ep3.
  assert (~ In (length (objects s)) (base ++ [t])) as Hfresh.
  { intros Hin. destruct Hwf as [_ _ Hb _ _ _]. rewrite Ep in Hb.
    rewrite Forall_forall in Hb. apply list_elem_of_In in Hin.
    specialize (Hb _ Hin). cbn in Hb. lia. }
  rewrite Ep3 in H.
  change (base ++ t :: length (objects s) :: new3)
    with (base ++ [t] ++ length (objects s) :: new3) in H at 1.
  rewrite app_assoc, index_first in H by assumption. cbn [bind] in H.
  rewrite length_app in H. cbn [length] in H.
  replace (Z.of_nat (length base + 1) - 1) with (Z.of_nat (length base))
    in H by lia.
  rewrite get_middle in H. cbn [bind] in H.
  destruct (Hkeys g (or_introl eq_refl)) as [ig Hig].
  rewrite Hig in H. cbn [bind] in H.
  destruct (set_Ok (indexes (sd s3)) (length base) (Z.of_nat ig))
    as [ixs Hset].
  { destruct Hwf3 as [Hpi3 _ _ _ _ _]. rewrite <- Hpi3, Ep3, length_app.
    cbn. lia. }
  rewrite Hset in H. discriminate.
- destruct Hpost as [Esd Hext]. cbn [sd objects] in Esd, Hext.
  rewrite Esd, go_back_push in H. cbn [bind] in H.
  assert (well_formed (with_sd s3 (sd s))) as Hwf4.
  { apply wf_go_back; [assumption|]. rewrite Esd. apply go_back_push. }
  apply (IH _ base t e) in H; [exact H| |exact Hwf4|exact Ep].
  intros g' Hg'. apply Hkeys. now right.
Qed.

Lemma group_names_keys (st : structure) :
forall g, In g (map slot_name (List.filter is_Group st)) ->
          exists i, keys_index g st = Ok i.
Proof. intros g Hg. now apply group_name_key. Qed.

(** A search that starts at a level just opened raises nothing but
  [RecursionError]. *)
Lemma find_group_fresh_raises (segment : Segment) :
forall (depth : nat) (s : state) (e : exn),
  well_formed s -> PyList.get (indexes (sd s)) (-1) = Ok (-1) ->
  _find_group K depth segment s = Raise e -> e = RecursionError.
Proof.
induction depth as [|depth IH]; intros s e Hwf Hix H;
  [now injection H as <-|].
rewrite find_group_S, Hix in H. cbn [bind] in H.
assert (exists base t, parents (sd s) = base ++ [t]) as (base & t & Ep).
{ destruct Hwf as [Hpi _ _ _ _ _]. apply get_last_inv in Hix.
  destruct Hix as [l0 Hl0]. rewrite Hl0, length_app in Hpi. cbn in Hpi.
  destruct (parents (sd s)) as [|a l] eqn:Epar; [cbn in Hpi; lia|].
  destruct (exists_last (l := a :: l)) as (b & x & Heq); [discriminate|].
  eauto. }
assert (exists st, PyList.get (structures (sd s)) (-1) = Ok st) as [st Est].
{ destruct Hwf as [_ Hps _ _ _ _]. rewrite Ep, length_app in Hps.
  cbn in Hps.
  destruct (structures (sd s)) as [|a l] eqn:Es; [cbn in Hps; lia|].
  destruct (exists_last (l := a :: l)) as (b & x & ->); [discriminate|].
  rewrite get_last_snoc. eauto. }
rewrite Est in H. cbn [bind] in H.
destruct (keys_index (seg_name segment) st) as [k|e1] eqn:Ek.
- exfalso. destruct (keys_index_repetitions _ _ _ Ek) as [rep Hrep].
  rewrite Hrep in H. cbn [bind] in H.
  assert (((Z.of_nat k <=? -1) && (snd rep =? 1))%bool = false) as Hc
      by (apply andb_false_intro1; lia).
  rewrite Hc in H.
  destruct (attach_Ok s base t k Hwf Ep) as (ixs & Hset & Hget).
  rewrite Hset, Hget in H. discriminate.
- eapply for_groups_raises in H; eauto.
  + intros s0 found s' Hwf0 Hix0 H0. eapply find_group_fresh; eassumption.
  + apply group_names_keys.
Qed.

(** A search from any well-formed state raises nothing but
  [RecursionError] and [IndexError]. *)
Lemma find_group_raises (segment : Segment) :
forall (depth : nat) (s : state) (e : exn),
  well_formed s ->
  _find_group K depth segment s = Raise e ->
  e = RecursionError \/ e = IndexError.
Proof.
induction depth as [|depth IH]; intros s e Hwf H;
  [left; now injection H as <-|].
rewrite find_group_S in H.
destruct (PyList.get (indexes (sd s)) (-1)) as [cur|e1] eqn:Ecur;
  cbn [bind] in H.
2:{ injection H as <-. right. now apply get_raises in Ecur. }
destruct (PyList.get (structures (sd s)) (-1)) as [st|e1] eqn:Est;
  cbn [bind] in H.
2:{ injection H as <-. right. now apply get_raises in Est. }
destruct (well_formed_top s st Hwf Est) as (base & t & Ep).
destruct (keys_index (seg_name segment) st) as [k|e1] eqn:Ek.
- destruct (keys_index_repetitions _ _ _ Ek) as [rep Hrep].
  rewrite Hrep in H. cbn [bind] in H.
  destruct ((Z.of_nat k <=? cur) && (snd rep =? 1))%bool.
  + destruct (go_back_Ok s base t Hwf Ep) as [d Hd].
    rewrite Hd in H. cbn [bind] in H.
    apply IH in H; [exact H|]. now apply wf_go_back.
  + exfalso. destruct (attach_Ok s base t k Hwf Ep) as (ixs & Hset & Hget).
    rewrite Hset, Hget in H. discriminate.
- left. eapply for_groups_raises in H; eauto.
  + intros s0 found s' Hwf0 Hix0 H0. eapply find_group_fresh; eassumption.
  + intros s0 e0 Hwf0 Hix0 H0. eapply find_group_fresh_raises; eassumption.
  + apply group_names_keys.
Qed.
End Raises.

(** ** [create_groups] as a whole *)

Section CreateGroups.
Variable K : core.

Lemma search_levels_raises (depth : nat) (c : Segment)
(placed : list Segment) :
forall (n : nat) (s : state) (e : exn),
  settled s placed ->
  search_levels K depth c n s = Raise e ->
  e = RecursionError \/ e = IndexError.
Proof.
induction n as [|n IH]; intros s e Hs H; cbn [search_levels] in H;
  [discriminate|].
destruct (_find_group K depth c s) as [[found s1]|e1] eqn:Ef;
  cbn [bind] in H.
2:{ injection H as <-. eapply find_group_raises; [apply Hs|exact Ef]. }
pose proof (find_group_found_ge K _ _ _ _ _ Ef) as Hge.
apply (find_group_settled _ _ _ _ _ _ placed Hs) in Ef.
destruct (found =? -1) eqn:E1; [|discriminate].
assert ((found >? -1) = false) as Hf by lia. rewrite Hf in Ef.
destruct (_go_back (sd s1)) as [d|e1] eqn:Ed; cbn [bind] in H.
- eapply IH; [|exact H]. eapply go_back_settled; eassumption.
- injection H as <-. right. now apply go_back_raises in Ed.
Qed.

Lemma place_segments_raises (depth : nat) :
forall (children : list Segment) (s : state) (placed : list Segment)
       (e : exn),
  settled s placed ->
  place_segments K depth children s = Raise e ->
  e = RecursionError \/ e = IndexError.
Proof.
induction children as [|c children IH]; intros s placed e Hs H;
  cbn [place_segments] in H; [discriminate|].
destruct (place_segment K depth c s) as [s1|e1] eqn:E1; cbn [bind] in H.
- eapply IH; [|exact H]. eapply place_segment_settled; eassumption.
- injection H as <-. unfold place_segment in E1.
  destruct (search_levels K depth c _ s) as [[found s2]|e2] eqn:E2;
    cbn [bind] in E1.
  + destruct (found =? -1); discriminate.
  + injection E1 as <-. eapply search_levels_raises; eassumption.
Qed.

(** X12: [create_groups] raises nothing but [IndexError] and the
  [RecursionError] of the interpreter: no [ValueError] of a list search
  and no [KeyError] of the repetitions leaves it. *)
Theorem create_groups_raises (depth : nat) (message : string)
(children : list Segment) (e : exn) :
create_groups K depth message children = Raise e ->
e = RecursionError \/ e = IndexError.
Proof.
intros H. unfold create_groups in H.
eapply place_segments_raises; [apply initial_state_settled|exact H].
Qed.

(** X13: when [create_groups] returns, the three lists of the search data
  have the same length; the objects they name exist, were created one
  after the other and start with the message; and each of them is the
  last child of the one before. *)
Theorem search_data_stay_linked (depth : nat) (message : string)
(children : list Segment) (s' : state) :
create_groups K depth message children = Ok s' ->
length (indexes (sd s')) = length (parents (sd s')) /\
length (structures (sd s')) = length (parents (sd s')) /\
Forall (fun p => (p < length (objects s'))%nat) (parents (sd s')) /\
increasing (parents (sd s')) /\
(forall p, head (parents (sd s')) = Some p -> p = O) /\
linked (objects s') (parents (sd s')).
Proof.
intros H. unfold create_groups in H.
apply (place_segments_settled _ _ _ _ _ [] (initial_state_settled K message))
  in H.
destruct H as ([Hpi Hps Hb Hinc _ _] & Hlk & Hhd & _ & _).
repeat split; try assumption; lia.
Qed.
End CreateGroups.

(** ** No empty group is left in the tree *)

Section NoEmptyGroup.
Variable K : core.

Lemma no_empty_group_snoc (h : store) (name : string) :
forward h -> no_empty_group h ->
no_empty_group (h ++ [{| n_name := name; n_children := [] |}]).
Proof.
intros Hfw Hfull i n j Hn Hin.
destruct (decide (i < length h)%nat) as [Hi|Hi].
- rewrite lookup_app_l in Hn by assumption.
  destruct (Hfull i n j Hn Hin) as (m & Hm & Hne).
  exists m. split; [|assumption].
  rewrite lookup_app_l; [assumption|]. now apply lookup_lt_Some in Hm.
- rewrite lookup_app_r in Hn by lia.
  destruct (i - length h)%nat; [|discriminate].
  injection Hn as <-. destruct Hin.
Qed.

Lemma no_empty_group_extends (h h' : store) :
no_empty_group h' -> extends h h' -> forward h -> no_empty_group h.
Proof.
intros Hfull [Hlen Hsame] Hfw i n j Hn Hin.
assert (i < length h)%nat as Hi by now apply lookup_lt_Some in Hn.
destruct (Hfw i n j Hn Hin) as [_ Hj].
rewrite <- Hsame in Hn by assumption.
destruct (Hfull i n j Hn Hin) as (m & Hm & Hne).
exists m. split; [|assumption]. now rewrite <- Hsame.
Qed.

(** Adding a child to an object, a group that has children or a segment,
  leaves no empty group behind. *)
Lemma no_empty_group_add (h : store) (p : nat) (c : child) :
no_empty_group h ->
match c with
| CSeg _ => True
| CGrp g => exists m, h !! g = Some m /\ n_children m <> []
end ->
no_empty_group (Element_add p c h).
Proof.
intros Hfull Hc.
assert (forall j m, h !! j = Some m -> n_children m <> [] ->
                    exists m', Element_add p c h !! j = Some m' /\
                               n_children m' <> []) as Hkeep.
{ intros j m Hm Hne. destruct (decide (j = p)) as [->|Hjp].
  - rewrite (Element_add_lookup _ _ _ _ Hm). eexists. split; [reflexivity|].
    cbn. destruct (n_children m); [congruence|discriminate].
  - rewrite Element_add_lookup_ne by assumption. eauto. }
intros i n j Hn Hin.
destruct (decide (i = p)) as [->|Hne].
- destruct (h !! p) as [m|] eqn:Em.
  + rewrite (Element_add_lookup _ _ _ _ Em) in Hn. injection Hn as <-.
    cbn in Hin. apply in_app_or in Hin. destruct Hin as [Hin|[Heq|[]]].
    * destruct (Hfull p m j Em Hin) as (m' & Hm' & Hne'). eauto.
    * subst c. destruct Hc as (m' & Hm' & Hne'). eauto.
  + apply lookup_ge_None in Em.
    assert (is_Some (Element_add p c h !! p)) as Hs by eauto.
    apply lookup_lt_is_Some in Hs. rewrite Element_add_length in Hs. lia.
- rewrite Element_add_lookup_ne in Hn by assumption.
  destruct (Hfull i n j Hn Hin) as (m' & Hm' & Hne'). eauto.
Qed.

Lemma flat_nonempty_children (h : store) (g : nat) (x : Segment) :
forward h -> (g < length h)%nat -> flat h g = [x] ->
exists m, h !! g = Some m /\ n_children m <> [].
Proof.
intros Hfw Hg Hflat. destruct (lookup_lt_is_Some_2 _ _ Hg) as [m Hm].
exists m. split; [assumption|]. intros Hnil.
rewrite (flat_unfold _ _ _ Hfw Hm), Hnil in Hflat. discriminate.
Qed.

Lemma for_groups_no_empty (find : state -> result (Z * state))
(segment : Segment) :
(forall s found s',
    well_formed s -> PyList.get (indexes (sd s)) (-1) = Ok (-1) ->
    find s = Ok (found, s') -> fresh_post segment s found s') ->
(forall s found s',
    well_formed s -> no_empty_group (objects s) ->
    find s = Ok (found, s') -> no_empty_group (objects s')) ->
forall (st : structure) (groups : list string) (s : state) found s' base t,
  well_formed s -> parents (sd s) = base ++ [t] ->
  no_empty_group (objects s) ->
  for_groups K find st groups s = Ok (found, s') ->
  no_empty_group (objects s').
Proof.
intros Hfind Hfull st. induction groups as [|g groups IH];
  intros s found s' base t Hwf Ep Hne H; cbn [for_groups] in H.
- now injection H as _ <-.
- cbn [new_Group] in H. bind_inv H as r Er. destruct r as [found1 s3].
  pose proof (wf_push s (get_structure K g) g Hwf) as Hwf2.
  pose proof Er as Er'.
  apply Hfull in Er';
    [|exact Hwf2|cbn; apply no_empty_group_snoc; [apply Hwf|exact Hne]].
  apply Hfind in Er; [|exact Hwf2|cbn; apply get_last_snoc].
  destruct Er as [Hwf3 Hpost].
  destruct (found1 >? -1) eqn:Ef.
  + destruct Hpost as (base' & t' & new3 & Ep2 & Ep3 & Hsb & Hflat & Hlk).
    cbn [sd objects push parents] in Ep2, Hsb, Hflat.
    rewrite Ep in Ep2. apply app_inj_tail in Ep2. destruct Ep2 as [<- <-].
    rewrite <- app_assoc in Ep3. cbn [app] in Ep3.
    rewrite flat_empty in Hflat by apply Hwf. cbn [app] in Hflat.
    assert (~ In (length (objects s)) (base ++ [t])) as Hfresh.
    { intros Hin. destruct Hwf as [_ _ Hb _ _ _]. rewrite Ep in Hb.
      rewrite Forall_forall in Hb. apply list_elem_of_In in Hin.
      specialize (Hb _ Hin). cbn in Hb. lia. }
    bind_inv H as i Ei. bind_inv H as parent Epar.
    bind_inv H as search_index Esi. bind_inv H as ixs Eix.
    injection H as _ <-. cbn [objects].
    apply no_empty_group_add; [exact Er'|].
    apply (flat_nonempty_children _ _ segment); [apply Hwf3| |exact Hflat].
    destruct Hsb as [Hlen _]. rewrite length_app in Hlen. cbn in Hlen. lia.
  + destruct Hpost as [Esd Hext]. cbn [sd objects] in Esd, Hext.
    bind_inv H as d Ed.
    rewrite Esd, go_back_push in Ed. injection Ed as <-.
    assert (well_formed (with_sd s3 (sd s))) as Hwf4.
    { apply wf_go_back; [assumption|]. rewrite Esd. apply go_back_push. }
    apply (IH _ _ _ base t Hwf4 Ep Er' H).
Qed.

Lemma find_group_no_empty (segment : Segment) :
forall (depth : nat) (s : state) (found : Z) (s' : state),
  well_formed s -> no_empty_group (objects s) ->
  _find_group K depth segment s = Ok (found, s') ->
  no_empty_group (objects s').
Proof.
induction depth as [|depth IH]; intros s found s' Hwf Hne H; [discriminate|].
rewrite find_group_S in H.
bind_inv H as cur Ecur. bind_inv H as st Est.
destruct (well_formed_top s st Hwf Est) as (base & t & Ep).
destruct (keys_index (seg_name segment) st) as [k|e] eqn:Ek.
- bind_inv H as rep Erep.
  destruct ((Z.of_nat k <=? cur) && (snd rep =? 1))%bool.
  + bind_inv H as d Ed.
    apply (IH _ _ _ (wf_go_back s d Hwf Ed) Hne H).
  + bind_inv H as ixs Eix. bind_inv H as parent Epar.
    injection H as _ <-. cbn [objects].
    now apply no_empty_group_add.
- eapply for_groups_no_empty; eauto.
  intros s0 f0 s0' Hwf0 Hix0 H0. eapply find_group_fresh; eassumption.
Qed.

Lemma place_segments_no_empty (depth : nat) :
forall (children : list Segment) (s s' : state) (placed : list Segment),
  settled s placed -> no_empty_group (objects s) ->
  place_segments K depth children s = Ok s' ->
  no_empty_group (objects s').
Proof.
induction children as [|c children IH]; intros s s' placed Hs Hne H;
  cbn [place_segments] in H; [now injection H as <-|].
bind_inv H as s1 E1.
pose proof (place_segment_settled K _ _ _ _ _ Hs E1) as Hs1.
apply (IH _ _ _ Hs1); [|exact H]. clear H IH Hs1.
unfold place_segment in E1. bind_inv E1 as r Er. destruct r as [found s2].
assert (no_empty_group (objects s2)) as Hne2.
{ clear E1. remember (length (structures (sd s))) as n eqn:En. clear En.
  revert s Hs Hne Er.
  induction n as [|n IHn]; intros s0 Hs0 Hne0 Er;
    cbn [search_levels] in Er.
  - now injection Er as _ <-.
  - bind_inv Er as r1 Er1. destruct r1 as [found1 s3].
    pose proof (find_group_found_ge K _ _ _ _ _ Er1) as Hge.
    pose proof (find_group_no_empty _ _ _ _ _ (proj1 Hs0) Hne0 Er1) as Hne3.
    apply (find_group_settled _ _ _ _ _ _ placed Hs0) in Er1.
    destruct (found1 =? -1) eqn:Ef.
    + bind_inv Er as d Ed.
      assert ((found1 >? -1) = false) as Hf by lia. rewrite Hf in Er1.
      apply (IHn (with_sd s3 d)); [|exact Hne3|exact Er].
      eapply go_back_settled; eassumption.
    + now injection Er as _ <-. }
destruct (found =? -1); injection E1 as <-; [|exact Hne2].
cbn [objects]. now apply no_empty_group_add.
Qed.

(** X14: when [create_groups] returns, every group that is the child of an
  object has at least one child of its own: the groups created for a
  search that failed are attached nowhere. *)
Theorem no_empty_group_attached (depth : nat) (message : string)
(children : list Segment) (s' : state) :
create_groups K depth message children = Ok s' ->
no_empty_group (objects s').
Proof.
intros H. unfold create_groups in H.
eapply place_segments_no_empty; [apply initial_state_settled| |exact H].
intros i n j Hn Hin. destruct i; [|discriminate].
injection Hn as <-. destruct Hin.
Qed.
End NoEmptyGroup.

(** ** Components of a complex or unknown datatype *)

Section NamedComponents.
Variable K : core.
Variable E : encoding_chars.

Lemma parse_component_from_name (text : string) (vl : validation_level)
(c0 c : Component) :
parse_component_from K E text vl c0 = Ok c -> c_name c = c_name c0.
Proof.
unfold parse_component_from. intros H. bind_inv H as children Ech.
unfold Component_set_children in H.
destruct (children_refused K _ _); [discriminate|]. injection H as <-.
now destruct (_ && _ && _)%bool.
Qed.

Lemma parse_component_name (text n : string) (vl : validation_level)
(c : Component) :
parse_component K E text (Some n) None vl = Ok c ->
c_name c = Some n \/ (is_strict K vl = false /\ c_name c = None).
Proof.
rewrite parse_component_unfold. intros H. bind_inv H as c0 Ec.
apply parse_component_from_name in H. rewrite H.
destruct (new_Component K (Some n) None vl) as [c1|e] eqn:E1.
- injection Ec as <-. left. now apply new_Component_inv in E1.
- destruct e; try discriminate.
  destruct (is_strict K vl); [discriminate|]. right. split; [reflexivity|].
  now apply new_Component_inv in Ec.
Qed.

Lemma for_enumerate_names (name_at : nat -> string) (keep : string -> bool)
(vl : validation_level)
(body : nat -> string -> result (list Component)) :
(forall i p,
    body i p =
    if keep p
    then let* c := parse_component K E p (Some (name_at i)) None vl in Ok [c]
    else Ok []) ->
forall (pieces : list string) (index : nat) (cs : list Component),
  for_enumerate body index pieces = Ok cs ->
  Forall2
    (fun c ip => c_name c = Some (name_at (fst ip)) \/
                 (is_strict K vl = false /\ c_name c = None))
    cs
    (List.filter (fun ip => keep (snd ip))
       (imap (fun i p => ((index + i)%nat, p)) pieces)).
Proof.
intros Hbody. induction pieces as [|p pieces IH]; intros index cs H;
  cbn [for_enumerate] in H.
- injection H as <-. constructor.
- bind_inv H as out Eout. bind_inv H as rest Erest. injection H as <-.
  apply IH in Erest. cbn [imap List.filter snd].
  assert (imap ((fun i p0 => ((index + i)%nat, p0)) ∘ S) pieces =
          imap (fun i p0 => ((S index + i)%nat, p0)) pieces) as ->.
  { apply imap_ext. intros i x _. cbn. f_equal. lia. }
  rewrite Hbody in Eout. destruct (keep p).
  + bind_inv Eout as c Ec. injection Eout as <-. cbn [app].
    constructor; [|exact Erest]. cbn [fst].
    rewrite Nat.add_0_r. now apply parse_component_name in Ec.
  + injection Eout as <-. exact Erest.
Qed.

(** X15: the components of a field of a complex datatype [d] keep their
  position in their names. When [parse_components] returns, the blank
  pieces of the text have given no component, and the component of the
  piece at position [i] (from 0, blank pieces counted) is named
  [d_(i+1)]; outside strict validation it may instead be unnamed, when the
  reference does not know that name. *)
Theorem complex_components_keep_position (text d : string)
(vl : validation_level) (cs : list Component) :
is_base_datatype K (Some d) = false ->
String.eqb d "varies" = false ->
(forall i, PyStr.startswith "VARIES_" (PyStr.format_name d i) = false) ->
parse_components K E text (Some d) vl = Ok cs ->
Forall2
  (fun c ip => c_name c = Some (PyStr.format_name d (S (fst ip))) \/
               (is_strict K vl = false /\ c_name c = None))
  cs
  (List.filter (fun ip => negb (blank (snd ip)))
     (imap pair (PyStr.split (COMPONENT E) text))).
Proof.
intros Hb Hv Hs H. unfold parse_components in H.
rewrite <- imap_pair_0.
apply (for_enumerate_names (fun i => PyStr.format_name d (S i))
         (fun p => negb (blank p)) vl) in H; [exact H|].
intros i p. cbn beta. rewrite Hb. cbn [is_None opt_eqb orb]. rewrite Hv.
cbn [is_None]. rewrite Hs, !orb_false_r. unfold blank.
rewrite negb_involutive. reflexivity.
Qed.

(** X16: a field without a datatype, or of the datatype varies, loses no
  piece: when [parse_components] returns there is one component for every
  piece of the text, blank pieces included, and the one at position [i]
  is named [VARIES_(i+1)], or, outside strict validation, unnamed. *)
Theorem varies_components_keep_every_piece (text : string)
(dt : option string) (vl : validation_level) (cs : list Component) :
is_base_datatype K dt = false ->
(is_None dt || opt_eqb dt "varies")%bool = true ->
parse_components K E text dt vl = Ok cs ->
Forall2
  (fun c ip => c_name c = Some (PyStr.format_name "VARIES" (S (fst ip))) \/
               (is_strict K vl = false /\ c_name c = None))
  cs (imap pair (PyStr.split (COMPONENT E) text)).
Proof.
intros Hb Hv H. unfold parse_components in H.
apply (for_enumerate_names (fun i => PyStr.format_name "VARIES" (S i))
         (fun _ => true) vl) in H.
- rewrite imap_pair_0 in H.
  rewrite forallb_filter_id in H; [exact H|].
  apply forallb_forall. reflexivity.
- intros i p. cbn beta. rewrite Hb, Hv.
  assert (PyStr.startswith "VARIES_" (PyStr.format_name "VARIES" (S i))
          = true) as ->
    by (unfold PyStr.startswith, PyStr.format_name; cbn;
        now destruct (PyStr.decimal _)).
  now rewrite orb_true_r.
Qed.
End NamedComponents.

(** ** Components and fields of a base datatype *)

Section BaseDatatype.
Variable K : core.
Variable E : encoding_chars.


(** X4: a field of a base datatype whose text is not blank and holds
  neither the component nor the sub-component separator is one leaf: when
  [parse_field] returns, the field has the name and the datatype its
  constructor gave it, one component, and in it one sub-component, made
  by the constructor of the whole text. *)
Theorem simple_field_is_one_leaf (text : string) (name : option string)
(vl : validation_level) (force_varies : bool) (field f : Field) :
new_Field K name vl None = Ok field ->
is_base_datatype K (f_datatype field) = true ->
opt_eqb name "MSH_1" = false -> opt_eqb name "MSH_2" = false ->
~ In (COMPONENT E) (PyStr.chars text) ->
~ In (SUBCOMPONENT E) (PyStr.chars text) ->
blank text = false ->
parse_field K E text name vl None force_varies = Ok f ->
f_name f = name /\ f_datatype f = f_datatype field /\
exists c s n dt,
  f_children f = [c] /\ c_children c = [s] /\
  new_SubComponent K n dt text vl = Ok s.
Proof.
intros Hnew Hb H1 H2 Hc Hs Hnb H.
rewrite parse_field_unfold, Hnew in H. cbn [bind] in H.
unfold parse_field_from in H. rewrite H1, H2 in H. cbn [orb] in H.
bind_inv H as children Ech.
unfold parse_components in Ech. rewrite (split_without _ _ Hc) in Ech.
cbn [for_enumerate] in Ech. rewrite Hb in Ech. cbn [is_None] in Ech.
rewrite orb_true_r in Ech. cbn [orb] in Ech.
bind_inv Ech as o Eo. bind_inv Eo as c Ecomp. injection Eo as <-.
cbn [bind app] in Ech. injection Ech as <-.
change (Z.of_nat (length [c]) >? 1) with false in H.
rewrite !andb_false_r in H.
unfold Field_set_children in H.
destruct (children_refused K _ _); [discriminate|]. injection H as <-. cbn [f_name f_datatype f_children].
apply new_Field_inv in Hnew as [Hname _].
split; [exact Hname|]. split; [reflexivity|].
rewrite parse_component_unfold in Ecomp. bind_inv Ecomp as c0 Ec0.
unfold parse_component_from in Ecomp. bind_inv Ecomp as subs Esubs.
unfold parse_subcomponents in Esubs. rewrite (split_without _ _ Hs) in Esubs.
cbn [for_enumerate] in Esubs.
unfold blank in Hnb. apply negb_false_iff in Hnb.
destruct (is_base_datatype K (c_datatype c0) || is_None (c_datatype c0))%bool;
  rewrite Hnb in Esubs; cbn [orb] in Esubs;
  bind_inv Esubs as o Eo; bind_inv Eo as s Esub; injection Eo as <-;
  cbn [bind app] in Esubs; injection Esubs as <-;
  change (Z.of_nat (length [s]) >? 1) with false in Ecomp;
  rewrite !andb_false_r in Ecomp;
  unfold Component_set_children in Ecomp;
  (destruct (children_refused K _ _); [discriminate|]);
  injection Ecomp as <-;
  unfold parse_subcomponent in Esub; eauto 10.
Qed.
End BaseDatatype.

(** ** The further properties on the example reference *)

Section FurtherExamples.
Import PyStr.

Lemma subcomponents_keep_every_piece_witness :
exists subcomponents,
  parse_subcomponents K0 E0 "A&&B" (Some "ST") (Some 2) = Ok subcomponents /\
  Forall2
    (fun piece s =>
       new_SubComponent K0 None (Some "ST") piece (Some 2) = Ok s /\
       sc_name s = None)
    ["A"; ""; "B"] subcomponents.
Proof.
destruct (parse_subcomponents K0 E0 "A&&B" (Some "ST") (Some 2))
  as [subcomponents|e] eqn:H; [|vm_compute in H; discriminate].
exists subcomponents. split; [reflexivity|].
exact (subcomponents_keep_every_piece K0 E0 "A&&B" (Some "ST") (Some 2)
         subcomponents eq_refl H).
Defined.

Lemma subcomponents_drop_blank_pieces_witness :
exists subcomponents,
  parse_subcomponents K0 E0 "A& &B" (Some "FN") (Some 2) = Ok subcomponents /\
  Forall2
    (fun ip s =>
       new_SubComponent K0 (Some (format_name "FN" (S (fst ip)))) None
         (snd ip) (Some 2) = Ok s /\
       sc_name s = Some (format_name "FN" (S (fst ip))))
    [(0%nat, "A"); (2%nat, "B")] subcomponents.
Proof.
destruct (parse_subcomponents K0 E0 "A& &B" (Some "FN") (Some 2))
  as [subcomponents|e] eqn:H; [|vm_compute in H; discriminate].
exists subcomponents. split; [reflexivity|].
exact (subcomponents_drop_blank_pieces K0 E0 "A& &B" "FN" (Some 2)
         subcomponents eq_refl H).
Defined.


Lemma simple_field_is_one_leaf_witness :
exists f c s n dt,
  parse_field K0 E0 "7" (Some "PID_1") (Some 1) None false = Ok f /\
  f_name f = Some "PID_1" /\ f_datatype f = Some "SI" /\
  f_children f = [c] /\ c_children c = [s] /\
  new_SubComponent K0 n dt "7" (Some 1) = Ok s.
Proof.
destruct (parse_field K0 E0 "7" (Some "PID_1") (Some 1) None false)
  as [f|e] eqn:H; [|vm_compute in H; discriminate].
destruct (simple_field_is_one_leaf K0 E0 "7" (Some "PID_1") (Some 1) false
            {| f_name := Some "PID_1"; f_datatype := Some "SI";
               f_children := [] |} f eq_refl eq_refl eq_refl eq_refl)
  as (Hn & Hd & c & s & n & dt & Hc & Hs & Hnew);
  [simpl; intuition discriminate|simpl; intuition discriminate
  |reflexivity|exact H|].
exists f, c, s, n, dt. repeat split; assumption.
Defined.

Lemma repetitions_are_siblings_witness :
exists out shared,
  parse_fields_slot K0 E0 (Some "PID") (Some 2) false 4 "A~B" = Ok out /\
  length out = 2%nat /\
  Forall (fun f => f_name f = shared) out.
Proof.
destruct (parse_fields_slot K0 E0 (Some "PID") (Some 2) false 4 "A~B")
  as [out|e] eqn:Hout; [|vm_compute in Hout; discriminate].
destruct (repetitions_are_siblings K0 E0 "PID" (Some 2) false 4 "A~B" out
            eq_refl eq_refl Hout) as (Hall & shared & _ & Hshared).
exists out, shared. split; [reflexivity|]. split; [|exact Hshared].
apply Forall2_length in Hall. now rewrite <- Hall.
Defined.

Lemma segments_follow_pieces_witness :
exists segments,
  parse_segments K0 E0 ("PID|1" ++ String CR "NTE|2") (Some 2) = Ok segments /\
  map seg_name segments = ["PID"; "NTE"].
Proof.
destruct (parse_segments K0 E0 ("PID|1" ++ String CR "NTE|2") (Some 2))
  as [segments|e] eqn:Hs; [|vm_compute in Hs; discriminate].
exists segments. split; [reflexivity|].
exact (proj2 (segments_follow_pieces K0 E0 _ (Some 2) segments Hs)).
Defined.

Lemma message_info_errors_witness :
exists msg, get_message_info "PID|1" = Raise (ParserError msg).
Proof.
apply (proj2 (message_info_errors "PID|1")). intros f rest H. discriminate H.
Defined.

Lemma message_info_metadata_witness :
message_structure_of
  (MSH_fields "MSH|^~\&|A|B|C|D|2020||ORU^R01|1|P|2.5" "|") "^"
= Some "ORU_R01" /\
~ In "|"%char (chars "2.5").
Proof.
destruct (message_info_metadata "MSH|^~\&|A|B|C|D|2020||ORU^R01|1|P|2.5"
            E0 (Some "ORU_R01") (Some "2.5") eq_refl)
  as (Hms & _ & _ & Hv).
split; [symmetry; exact Hms|]. exact (proj1 (Hv "2.5" eq_refl)).
Defined.

Lemma control_segment_agrees_witness :
exists segment f1 f2 rest,
  parse_segment K0 E0 "MSH|^~\&|LAB" (Some 2) = Ok segment /\
  seg_children segment = f1 :: f2 :: rest /\
  f_children f1 = [leaf_component K0 "|"] /\
  f_children f2 = [leaf_component K0 "^~\&"].
Proof.
destruct (parse_segment K0 E0 "MSH|^~\&|LAB" (Some 2)) as [segment|e] eqn:Hs;
  [|vm_compute in Hs; discriminate].
destruct (control_segment_agrees K0 "MSH|^~\&|LAB" E0 None None (Some 2)
            segment eq_refl eq_refl Hs)
  as (_ & f1 & f2 & rest & H0 & [_ H1] & [_ H2]).
exists segment, f1, f2, rest. split; [reflexivity|]. split; [exact H0|].
split; [exact (H1 K0_builds_ST_leaves)|exact (H2 K0_builds_ST_leaves)].
Defined.

Lemma create_groups_raises_witness :
IndexError = RecursionError \/ IndexError = IndexError.
Proof.
apply (create_groups_raises K0 3 "ORU"
         [example_segment "MSH"; example_segment "MSH"] IndexError).
vm_compute. reflexivity.
Defined.

Lemma search_data_stay_linked_witness :
exists s',
  create_groups K0 5 "ORU"
    [example_segment "MSH"; example_segment "PID"; example_segment "PV1"]
  = Ok s' /\
  length (indexes (sd s')) = length (parents (sd s')) /\
  linked (objects s') (parents (sd s')).
Proof.
destruct (create_groups K0 5 "ORU"
            [example_segment "MSH"; example_segment "PID";
             example_segment "PV1"]) as [s'|e] eqn:Hc;
  [|vm_compute in Hc; discriminate].
destruct (search_data_stay_linked K0 5 "ORU" _ s' Hc)
  as (H1 & _ & _ & _ & _ & H6).
exists s'. repeat split; assumption.
Defined.

Lemma no_empty_group_attached_witness :
exists s',
  create_groups K0 5 "ORU"
    [example_segment "MSH"; example_segment "ZZZ"; example_segment "PID"]
  = Ok s' /\
  no_empty_group (objects s').
Proof.
destruct (create_groups K0 5 "ORU"
            [example_segment "MSH"; example_segment "ZZZ";
             example_segment "PID"]) as [s'|e] eqn:Hc;
  [|vm_compute in Hc; discriminate].
exists s'. split; [reflexivity|].
exact (no_empty_group_attached K0 5 "ORU" _ s' Hc).
Defined.

Lemma complex_components_keep_position_witness :
exists cs,
  parse_components K0 E0 "DOE^^JOHN" (Some "XPN") (Some 1) = Ok cs /\
  Forall2
    (fun c ip => c_name c = Some (format_name "XPN" (S (fst ip))) \/
                 (is_strict K0 (Some 1) = false /\ c_name c = None))
    cs [(0%nat, "DOE"); (2%nat, "JOHN")].
Proof.
destruct (parse_components K0 E0 "DOE^^JOHN" (Some "XPN") (Some 1))
  as [cs|e] eqn:Hc; [|vm_compute in Hc; discriminate].
exists cs. split; [reflexivity|].
exact (complex_components_keep_position K0 E0 "DOE^^JOHN" "XPN" (Some 1) cs
         eq_refl eq_refl (fun i => eq_refl) Hc).
Defined.

Lemma varies_components_keep_every_piece_witness :
exists cs,
  parse_components K0 E0 "A^^B" None (Some 2) = Ok cs /\
  Forall2
    (fun c ip => c_name c = Some (format_name "VARIES" (S (fst ip))) \/
                 (is_strict K0 (Some 2) = false /\ c_name c = None))
    cs [(0%nat, "A"); (1%nat, ""); (2%nat, "B")].
Proof.
destruct (parse_components K0 E0 "A^^B" None (Some 2))
  as [cs|e] eqn:Hc; [|vm_compute in Hc; discriminate].
exists cs. split; [reflexivity|].
exact (varies_components_keep_every_piece K0 E0 "A^^B" None (Some 2) cs
         eq_refl eq_refl Hc).
Defined.
End FurtherExamples.
